(** * autodist.network: cluster topology, SSH configuration and process lifecycle

    A shallow embedding of [src/autodist/network.py] and the properties of
    its topology builder, address classifier, SSH configuration registry and
    [Cluster.start] / [Cluster.terminate] lifecycle.

    Layout:
    - [Py]        the Python built-ins the module relies on (string methods,
                  [sorted], insertion-ordered [dict], exceptions);
    - [IpAddress] the part of the standard [ipaddress] module that
                  [_get_ip_from_address] calls;
    - [Network]   the module itself: [SSHConfig], [SSHConfigMap], [Cluster],
                  [SSHCluster] and the address helpers;
    - [SimpleOS]  a small concrete operating system used to run the model on
                  concrete inputs;
    - the vocabulary of the statements, then the lemmas and theorems. *)

From Stdlib Require Import ZArith String Ascii List DecimalString Lia.
From stdpp Require Import base list sorting strings.
Import ListNotations.
Open Scope string_scope.

(* ===================================================================== *)
(** * Python built-ins *)
(* ===================================================================== *)

Module Py.

(** Python exceptions that the module can raise or let through.  [OtherError]
    stands for any exception class of a third-party library (paramiko,
    socket, ...) named by its class name. *)
Inductive exn :=
| ValueError
| KeyError
| IndexError
| AttributeError
| TypeError
| StopIteration
| OSError
| ProcessLookupError
| OtherError (name : string).

(** The outcome of evaluating a Python expression: a value or a raised
    exception. *)
Inductive result (A : Type) :=
| Ok (a : A)
| Raise (e : exn).
Arguments Ok {A} a.
Arguments Raise {A} e.

Definition is_ok {A} (r : result A) : bool :=
  match r with Ok _ => true | Raise _ => false end.

Definition rbind {A B} (r : result A) (k : A -> result B) : result B :=
  match r with Ok a => k a | Raise e => Raise e end.

(** ** Strings

    A Python [str] is modelled by [string], the sequence of its characters.
    Comparison is lexicographic on character codes, as in Python. *)

Definition colon : ascii := ":"%char.

(** [s.split(sep)] for a one-character separator: never empty, one more
    part than there are separators in [s]. *)
Fixpoint split_on (sep : ascii) (s : string) : list string :=
  match s with
  | EmptyString => [EmptyString]
  | String c r =>
      if Ascii.eqb c sep then EmptyString :: split_on sep r
      else match split_on sep r with
           | p :: ps => String c p :: ps
           | [] => [String c EmptyString]
           end
  end.

Fixpoint count_char (c : ascii) (s : string) : nat :=
  match s with
  | EmptyString => 0
  | String d r => (if Ascii.eqb d c then 1 else 0) + count_char c r
  end.

Definition has_char (c : ascii) (s : string) : bool :=
  negb (Nat.eqb (count_char c s) 0).

(** [s.rpartition(sep)]: split at the last occurrence of [sep]; when [sep]
    does not occur the result is [('', '', s)]. *)
Fixpoint rpartition_aux (sep : ascii) (s : string) : option (string * string) :=
  match s with
  | EmptyString => None
  | String c r =>
      match rpartition_aux sep r with
      | Some (hd, tl) => Some (String c hd, tl)
      | None => if Ascii.eqb c sep then Some (EmptyString, r) else None
      end
  end.

Definition rpartition (sep : ascii) (s : string) : string * string * string :=
  match rpartition_aux sep s with
  | Some (hd, tl) => (hd, String sep EmptyString, tl)
  | None => (EmptyString, EmptyString, s)
  end.

Definition in_chars (chars : list ascii) (c : ascii) : bool :=
  existsb (Ascii.eqb c) chars.

Fixpoint lstrip (chars : list ascii) (s : string) : string :=
  match s with
  | EmptyString => EmptyString
  | String c r => if in_chars chars c then lstrip chars r else s
  end.

Fixpoint rstrip (chars : list ascii) (s : string) : string :=
  match s with
  | EmptyString => EmptyString
  | String c r =>
      match rstrip chars r with
      | EmptyString => if in_chars chars c then EmptyString else String c EmptyString
      | r' => String c r'
      end
  end.

(** [s.strip(chars)]: remove leading and trailing characters of [chars]. *)
Definition strip (chars : list ascii) (s : string) : string :=
  rstrip chars (lstrip chars s).

(** [needle in hay] on strings: [needle] is a substring of [hay]. *)
Fixpoint contains (needle hay : string) : bool :=
  String.prefix needle hay ||
  match hay with
  | EmptyString => false
  | String _ r => contains needle r
  end.

(** [str(n)] and the [%d] / [{}] formatting of an [int]. *)
Definition str_of_Z (n : Z) : string := NilZero.string_of_int (Z.to_int n).

(** [sep.join(l)]. *)
Fixpoint join (sep : string) (l : list string) : string :=
  match l with
  | [] => EmptyString
  | [x] => x
  | x :: r => x ++ sep ++ join sep r
  end.

(** [x or y] on strings: the empty string is falsy. *)
Definition str_or (x y : string) : string :=
  if String.eqb x EmptyString then y else x.

(** ** [sorted] on strings *)

Definition str_le (a b : string) : Prop := String.leb a b = true.

#[export] Instance str_le_dec : RelDecision str_le.
Proof. intros a b. unfold str_le. apply _. Defined.

Definition sorted (l : list string) : list string := merge_sort str_le l.

(** ** Insertion-ordered dictionaries

    A [dict] is an association list without duplicate keys, in insertion
    order.  Assigning to an existing key keeps its position. *)

Section Dict.
Context {K V : Type} `{EqDecision K}.

Definition dict := list (K * V).

Fixpoint dict_get (k : K) (d : dict) : option V :=
  match d with
  | [] => None
  | (k', v) :: r => if decide (k = k') then Some v else dict_get k r
  end.

(** [d[k] = v] *)
Fixpoint dict_set (k : K) (v : V) (d : dict) : dict :=
  match d with
  | [] => [(k, v)]
  | (k', v') :: r =>
      if decide (k = k') then (k', v) :: r else (k', v') :: dict_set k v r
  end.

Definition dict_keys (d : dict) : list K := map fst d.
Definition dict_values (d : dict) : list V := map snd d.
Definition dict_items (d : dict) : list (K * V) := d.

(** [k in d] *)
Definition dict_mem (k : K) (d : dict) : bool :=
  match dict_get k d with Some _ => true | None => false end.

(** [d[k]]: raises [KeyError] when the key is missing. *)
Definition dict_item (k : K) (d : dict) : result V :=
  match dict_get k d with Some v => Ok v | None => Raise KeyError end.

(** [dict(pairs)] / a dict comprehension: later pairs overwrite. *)
Definition dict_of_pairs (l : list (K * V)) : dict :=
  fold_left (fun d kv => dict_set (fst kv) (snd kv) d) l [].
End Dict.
Arguments dict K V : clear implicits.

(** [enumerate(l)] *)
Definition enumerate {A} (l : list A) : list (nat * A) := imap (fun i a => (i, a)) l.

(** [os.path.join(a, b)] and [os.path.basename(p)] (posixpath). *)
Definition path_join (a b : string) : string :=
  if String.prefix "/" b then b
  else if String.eqb a "" || String.eqb (snd (rpartition "/"%char a)) "" then a ++ b
  else a ++ "/" ++ b.

Definition basename (p : string) : string := snd (rpartition "/"%char p).

(** The double-quote character, for building command lines. *)
Definition dquote : string := String (ascii_of_nat 34) EmptyString.

(** ** Iterators over integers

    An iterator such as [iter(range(a, b))] is described by the values it
    has yet to yield; [next] takes the first one and raises [StopIteration]
    on exhaustion. *)
Definition int_iter := list Z.

Definition next (it : int_iter) : result Z * int_iter :=
  match it with
  | [] => (Raise StopIteration, [])
  | p :: r => (Ok p, r)
  end.

Definition range_iter (start : Z) (len : nat) : int_iter :=
  map (fun i => start + Z.of_nat i)%Z (seq 0 len).

End Py.

(* ===================================================================== *)
(** * The standard [ipaddress] module *)
(* ===================================================================== *)

(** The part of CPython's [Lib/ipaddress.py] reached through
    [ipaddress.ip_address(str)] and the [is_loopback] property, as of
    Python 3.9.5 to 3.12: an octet with a leading zero is rejected, an IPv6
    address may carry a scope id, and the only IPv6 loopback address is
    [::1].  Every parsing failure surfaces from [ip_address] as a
    [ValueError]. *)
Module IpAddress.
Import Py.

Inductive ip :=
| IPv4Address (_ip : Z)
| IPv6Address (_ip : Z) (_scope_id : option string).

Definition ip_eqb (a b : ip) : bool :=
  match a, b with
  | IPv4Address x, IPv4Address y => Z.eqb x y
  | IPv6Address x sx, IPv6Address y sy =>
      Z.eqb x y &&
      match sx, sy with
      | None, None => true
      | Some p, Some q => String.eqb p q
      | _, _ => false
      end
  | _, _ => false
  end.

Definition is_decimal_digit (c : ascii) : bool :=
  let n := nat_of_ascii c in Nat.leb 48 n && Nat.leb n 57.

Definition hex_digit_value (c : ascii) : option Z :=
  let n := nat_of_ascii c in
  if Nat.leb 48 n && Nat.leb n 57 then Some (Z.of_nat (n - 48))
  else if Nat.leb 97 n && Nat.leb n 102 then Some (Z.of_nat (n - 87))
  else if Nat.leb 65 n && Nat.leb n 70 then Some (Z.of_nat (n - 55))
  else None.

(** [int(s, 10)] / [int(s, 16)] on a string of legal digits, most
    significant first. *)
Fixpoint int_of_digits (base : Z) (acc : Z) (s : string) : option Z :=
  match s with
  | EmptyString => Some acc
  | String c r =>
      match hex_digit_value c with
      | Some d => int_of_digits base (acc * base + d) r
      | None => None
      end
  end.

Definition all_chars (p : ascii -> bool) (s : string) : bool :=
  forallb p (list_ascii_of_string s).

(** [IPv4Address._parse_octet]. *)
Definition _parse_octet (octet_str : string) : option Z :=
  if String.eqb octet_str "" then None
  else if negb (all_chars is_decimal_digit octet_str) then None
  else if Nat.ltb 3 (String.length octet_str) then None
  else if negb (String.eqb octet_str "0") && String.prefix "0" octet_str then None
  else match int_of_digits 10 0 octet_str with
       | Some octet_int => if Z.ltb 255 octet_int then None else Some octet_int
       | None => None
       end.

Fixpoint parse_all {A} (f : string -> option A) (l : list string) : option (list A) :=
  match l with
  | [] => Some []
  | x :: r =>
      match f x, parse_all f r with
      | Some a, Some ar => Some (a :: ar)
      | _, _ => None
      end
  end.

(** [IPv4Address._ip_int_from_string]. *)
Definition ipv4_int_from_string (ip_str : string) : option Z :=
  if String.eqb ip_str "" then None
  else
    let octets := split_on "."%char ip_str in
    if negb (Nat.eqb (length octets) 4) then None
    else match parse_all _parse_octet octets with
         | Some bytes => Some (fold_left (fun acc b => acc * 256 + b)%Z bytes 0%Z)
         | None => None
         end.

(** [IPv4Address(addr_str)]. *)
Definition parse_ipv4 (addr_str : string) : option Z :=
  if has_char "/"%char addr_str then None else ipv4_int_from_string addr_str.

(** [IPv6Address._parse_hextet]. *)
Definition _parse_hextet (hextet_str : string) : option Z :=
  if negb (all_chars (fun c => match hex_digit_value c with Some _ => true | None => false end)
                     hextet_str) then None
  else if Nat.ltb 4 (String.length hextet_str) then None
  else if String.eqb hextet_str "" then None
  else int_of_digits 16 0 hextet_str.

(** ['%x' % n] for [0 <= n]. *)
Definition hex_digit_char (d : Z) : ascii :=
  ascii_of_nat (Z.to_nat (if Z.ltb d 10 then 48 + d else 87 + d)).

Fixpoint hex_of_Z_aux (fuel : nat) (n : Z) (acc : string) : string :=
  match fuel with
  | O => acc
  | S f =>
      let acc' := String (hex_digit_char (n mod 16)) acc in
      if Z.ltb n 16 then acc' else hex_of_Z_aux f (n / 16) acc'
  end.

Definition hex_of_Z (n : Z) : string := hex_of_Z_aux 64 n "".

Definition _HEXTET_COUNT : nat := 8.

(** The hextets of an address through which the 128-bit value is built. *)
Definition shift_in (acc : option Z) (part : string) : option Z :=
  match acc, _parse_hextet part with
  | Some ip_int, Some h => Some (Z.lor (Z.shiftl ip_int 16) h)
  | _, _ => None
  end.

Definition lastn {A} (n : nat) (l : list A) : list A := skipn (length l - n) l.

(** [IPv6Address._ip_int_from_string]. *)
Definition ipv6_int_from_string (ip_str : string) : option Z :=
  if String.eqb ip_str "" then None
  else
    let parts := split_on colon ip_str in
    (* an IPv6 address needs at least 2 colons (3 parts) *)
    if Nat.ltb (length parts) 3 then None
    else
      (* an IPv4-style suffix is converted to two hextets *)
      let parts' :=
        if has_char "."%char (List.last parts "") then
          match parse_ipv4 (List.last parts "") with
          | Some ipv4_int =>
              Some (removelast parts ++
                    [hex_of_Z (Z.land (Z.shiftr ipv4_int 16) 65535);
                     hex_of_Z (Z.land ipv4_int 65535)])%list
          | None => None
          end
        else Some parts in
      match parts' with
      | None => None
      | Some parts =>
          if Nat.ltb (_HEXTET_COUNT + 1) (length parts) then None
          else
            let is_empty i := String.eqb (nth i parts "") "" in
            let layout :=
              match List.filter is_empty (seq 1 (length parts - 2)) with
              | _ :: _ :: _ => None            (* more than one '::' *)
              | [skip_index] =>
                  let parts_hi := skip_index in
                  let parts_lo := length parts - skip_index - 1 in
                  let hi := if is_empty 0 then parts_hi - 1 else parts_hi in
                  let lo := if is_empty (length parts - 1) then parts_lo - 1 else parts_lo in
                  if is_empty 0 && negb (Nat.eqb hi 0) then None
                  else if is_empty (length parts - 1) && negb (Nat.eqb lo 0) then None
                  else if Nat.ltb (_HEXTET_COUNT - (hi + lo)) 1 then None
                  else Some (hi, lo, _HEXTET_COUNT - (hi + lo))
              | [] =>
                  if negb (Nat.eqb (length parts) _HEXTET_COUNT) then None
                  else if is_empty 0 then None
                  else if is_empty (length parts - 1) then None
                  else Some (length parts, 0, 0)
              end in
            match layout with
            | None => None
            | Some (parts_hi, parts_lo, parts_skipped) =>
                let high := fold_left shift_in (firstn parts_hi parts) (Some 0%Z) in
                let mid := option_map (fun v => Z.shiftl v (16 * Z.of_nat parts_skipped)) high in
                fold_left shift_in (lastn parts_lo parts) mid
            end
      end.

(** [str.partition('%')] as used by [IPv6Address._split_scope_id]. *)
Fixpoint partition_first (sep : ascii) (s : string) : option (string * string) :=
  match s with
  | EmptyString => None
  | String c r =>
      if Ascii.eqb c sep then Some (EmptyString, r)
      else match partition_first sep r with
           | Some (hd, tl) => Some (String c hd, tl)
           | None => None
           end
  end.

(** [IPv6Address(addr_str)]. *)
Definition parse_ipv6 (addr_str : string) : option (Z * option string) :=
  if has_char "/"%char addr_str then None
  else
    match partition_first "%"%char addr_str with
    | None => option_map (fun v => (v, None)) (ipv6_int_from_string addr_str)
    | Some (addr, scope_id) =>
        if String.eqb scope_id "" || has_char "%"%char scope_id then None
        else option_map (fun v => (v, Some scope_id)) (ipv6_int_from_string addr)
    end.

(** [ipaddress.ip_address(address)]: an IPv4 address if the string parses
    as one, else an IPv6 address, else [ValueError]. *)
Definition ip_address (address : string) : result ip :=
  match parse_ipv4 address with
  | Some n => Ok (IPv4Address n)
  | None =>
      match parse_ipv6 address with
      | Some (n, scope) => Ok (IPv6Address n scope)
      | None => Raise ValueError
      end
  end.

(** The [is_loopback] property: 127.0.0.0/8 for IPv4, [::1] for IPv6. *)
Definition is_loopback (a : ip) : bool :=
  match a with
  | IPv4Address n => Z.eqb (Z.shiftr n 24) 127
  | IPv6Address n _ => Z.eqb n 1
  end.

End IpAddress.

(* ===================================================================== *)
(** * [autodist.network] *)
(* ===================================================================== *)

Module Network.
Import Py IpAddress.

(** ** Values from outside the module *)

(** A value of an environment mapping: a string, an integer or a boolean,
    rendered by [str()] when a command line is built. *)
Inductive pyval :=
| PStr (s : string)
| PInt (n : Z)
| PBool (b : bool).

Definition py_str (v : pyval) : string :=
  match v with
  | PStr s => s
  | PInt n => str_of_Z n
  | PBool true => "True"
  | PBool false => "False"
  end.

(** What the module reads from [autodist.const], [sys] and the imported
    [autodist.utils.server_starter]: the [ENV] values, the working directory
    and the names under which the server starter is run. *)
Record Env := {
  AUTODIST_WORKER : string;             (* ENV.AUTODIST_WORKER.val, '' when unset *)
  AUTODIST_DEBUG_REMOTE : bool;         (* ENV.AUTODIST_DEBUG_REMOTE.val *)
  AUTODIST_PATCH_TF : pyval;            (* ENV.AUTODIST_PATCH_TF.val *)
  AUTODIST_MIN_LOG_LEVEL_name : string; (* ENV.AUTODIST_MIN_LOG_LEVEL.name *)
  DEFAULT_WORKING_DIR : string;
  sys_executable : string;
  server_starter_name : string;         (* server_starter.__name__ *)
  server_starter_file : string          (* server_starter.__file__ *)
}.

(** A [paramiko.RSAKey], identified by the file it was loaded from. *)
Inductive RSAKey := RSAKeyFromFile (path : string).

(** ** [SSHConfig] and [SSHConfigMap] *)

Record SSHConfig := {
  username : string;
  port : Z;
  python_venv : string;
  key_file : string;
  pkey : option RSAKey;
  env : dict string pyval
}.

(** One entry of the [info] argument: the SSH information of a group.  The
    constructor only reads the keys below, each through [.get]; a missing
    key is [None]. *)
Record ssh_info := {
  info_username : option string;
  info_port : option Z;
  info_python_venv : option string;
  info_key_file : option string;
  info_shared_envs : option (dict string pyval)
}.

Section SSHConfigMap.
Variable environ : Env.
(** [paramiko.RSAKey.from_private_key_file] applied to the expanded
    absolute path; it raises on an unreadable or invalid key file. *)
Variable from_private_key_file : string -> result RSAKey.

Definition _gen_rsa_pkey (key_file_path : option string) : result (option RSAKey) :=
  match key_file_path with
  | None => Ok None
  | Some path =>
      if String.eqb path "" then Ok None
      else rbind (from_private_key_file path) (fun k => Ok (Some k))
  end.

(** [dict(TF_CPP_MIN_LOG_LEVEL=0, AUTODIST_PATCH_TF=..., **shared_envs)]:
    a keyword given twice is a [TypeError]. *)
Definition config_env (shared_envs : dict string pyval) : result (dict string pyval) :=
  let base := [("TF_CPP_MIN_LOG_LEVEL", PInt 0);
               ("AUTODIST_PATCH_TF", AUTODIST_PATCH_TF environ)] in
  if existsb (fun k => dict_mem k base) (dict_keys shared_envs) then Raise TypeError
  else Ok (base ++ shared_envs)%list.

Definition make_config (info : ssh_info) : result SSHConfig :=
  rbind (_gen_rsa_pkey (info_key_file info)) (fun pk =>
  rbind (config_env (default [] (info_shared_envs info))) (fun e =>
  Ok {| username := default "" (info_username info);
        port := default 22%Z (info_port info);
        python_venv := default "" (info_python_venv info);
        key_file := default "" (info_key_file info);
        pkey := pk;
        env := e |})).

(** The first loop of [SSHConfigMap.__init__]: group name to config. *)
Fixpoint build_conf_map (items : list (string * ssh_info))
         (conf_map : dict string SSHConfig) : result (dict string SSHConfig) :=
  match items with
  | [] => Ok conf_map
  | (key, info) :: r =>
      rbind (make_config info) (fun c => build_conf_map r (dict_set key c conf_map))
  end.

(** The second loop: [self[hostname] = conf_map.get(group)].  The stored
    value is the config or Python's [None]. *)
Fixpoint assign_hosts (items : list (string * string))
         (conf_map : dict string SSHConfig)
         (self : dict string (option SSHConfig)) : dict string (option SSHConfig) :=
  match items with
  | [] => self
  | (hostname, group) :: r =>
      assign_hosts r conf_map (dict_set hostname (dict_get group conf_map) self)
  end.

Definition SSHConfigMap (info : dict string ssh_info) (node_groups : dict string string)
  : result (dict string (option SSHConfig)) :=
  rbind (build_conf_map (dict_items info) []) (fun conf_map =>
  Ok (assign_hosts (dict_items node_groups) conf_map [])).
End SSHConfigMap.

(** ** The resource specification

    Of [resource_spec] the module reads [nodes] (a set of node identities,
    given here in the order in which the set happens to iterate), [chief]
    and [ssh_config_map]. *)
Record ResourceSpec := {
  nodes : list string;
  chief : string;
  ssh_config_map : dict string (option SSHConfig)
}.

(** ** Address helpers *)

Definition _get_ip_from_address (address : string) : result ip :=
  let '(ip, _, _) := rpartition colon address in
  let ip := str_or ip address in
  let ip := if String.eqb ip "localhost" then "127.0.0.1" else ip in
  ip_address (strip ["["%char; "]"%char] ip).

Definition is_loopback_address (address : string) : result bool :=
  rbind (_get_ip_from_address address) (fun ip => Ok (is_loopback ip)).

(** [is_local_address] given what [netifaces] reports: for each interface
    the ['addr'] fields of its [AF_INET] entries ([None] for the placeholder
    of an interface without one). *)
Fixpoint local_addresses (addrs : list (option string)) : result (list ip) :=
  match addrs with
  | [] => Ok []
  | None :: r => local_addresses r
  | Some a :: r =>
      if String.eqb a "" then local_addresses r
      else rbind (ip_address a) (fun i => rbind (local_addresses r) (fun l => Ok (i :: l)))
  end.

Definition is_local_address_in (ifaddrs : list (option string)) (address : string)
  : result bool :=
  rbind (_get_ip_from_address address) (fun ip =>
  rbind (local_addresses ifaddrs) (fun addresses =>
  Ok (existsb (ip_eqb ip) addresses))).

(** ** [Cluster] *)

Record Popen := { pid : Z }.

(** The attributes of a [Cluster] object; [_ssh_conf] is the one that
    [SSHCluster] adds.  An element of [subprocesses] is a process handle or
    Python's [None]. *)
Record Cluster := {
  cluster_spec : dict string (list string);
  _chief : string;
  _full_addresses : list string;
  _address_to_port : dict string string;
  _task_to_address : dict (string * nat) string;
  subprocesses : list (option Popen);
  _ssh_conf : dict string (option SSHConfig)
}.

(** The comprehension of [_get_default_cluster_spec]: one
    [next(DEFAULT_PORT_RANGE)] per node, in list order. *)
Fixpoint format_workers (ns : list string) (DEFAULT_PORT_RANGE : int_iter)
  : result (list string) * int_iter :=
  match ns with
  | [] => (Ok [], DEFAULT_PORT_RANGE)
  | n :: r =>
      match next DEFAULT_PORT_RANGE with
      | (Raise e, it) => (Raise e, it)
      | (Ok port, it) =>
          let '(rest, it') := format_workers r it in
          (rbind rest (fun l => Ok ((n ++ ":" ++ str_of_Z port) :: l)), it')
      end
  end.

(** [Cluster._get_default_cluster_spec].  [DEFAULT_PORT_RANGE] is the
    module-level iterator imported from [autodist.const]; the function
    receives its current state and returns the state it leaves behind. *)
Definition _get_default_cluster_spec (resource_spec : ResourceSpec)
           (DEFAULT_PORT_RANGE : int_iter)
  : result (dict string (list string)) * int_iter :=
  let '(workers, it) := format_workers (sorted (nodes resource_spec)) DEFAULT_PORT_RANGE in
  (rbind workers (fun w => Ok [("worker", w)]), it).

(** [dict(a.split(':') for a in full_addresses)]: every element must have
    exactly two items, else [ValueError]. *)
Fixpoint address_port_dict (full_addresses : list string) (acc : dict string string)
  : result (dict string string) :=
  match full_addresses with
  | [] => Ok acc
  | a :: r =>
      match split_on colon a with
      | [k; v] => address_port_dict r (dict_set k v acc)
      | _ => Raise ValueError
      end
  end.

Definition task_address_pairs (spec : dict string (list string))
  : list ((string * nat) * string) :=
  flat_map (fun '(job_name, tasks) =>
              map (fun '(task_index, a) =>
                     ((job_name, task_index), hd "" (split_on colon a)))
                  (enumerate tasks))
           (dict_items spec).

(** [Cluster.__init__], with [self._ssh_conf] as set by
    [SSHCluster.__init__] before it calls the base constructor. *)
Definition SSHCluster_init (resource_spec : ResourceSpec) (DEFAULT_PORT_RANGE : int_iter)
  : result Cluster * int_iter :=
  let '(spec, it) := _get_default_cluster_spec resource_spec DEFAULT_PORT_RANGE in
  (rbind spec (fun cluster_spec =>
   let full_addresses := concat (dict_values cluster_spec) in
   rbind (address_port_dict full_addresses []) (fun address_to_port =>
   Ok {| cluster_spec := cluster_spec;
         _chief := chief resource_spec;
         _full_addresses := full_addresses;
         _address_to_port := address_to_port;
         _task_to_address := dict_of_pairs (task_address_pairs cluster_spec);
         subprocesses := [];
         _ssh_conf := ssh_config_map resource_spec |})), it).

Section Queries.
Variable environ : Env.

Definition get_local_address (self : Cluster) : string :=
  str_or (AUTODIST_WORKER environ) (_chief self).

(** [is_chief(address=None)]: [address or self.get_local_address()]
    compared with the chief. *)
Definition is_chief (self : Cluster) (address : option string) : bool :=
  let address :=
    match address with
    | Some a => str_or a (get_local_address self)
    | None => get_local_address self
    end in
  String.eqb address (_chief self).

Definition get_address_from_task (self : Cluster) (job_name : string) (task_index : nat)
  : result string :=
  dict_item (job_name, task_index) (_task_to_address self).

(** [[i for i, a in enumerate(...) if local in a][0]] *)
Definition get_local_worker_task_index (self : Cluster) : result nat :=
  match List.filter (fun '(i, a) => contains (get_local_address self) a)
               (enumerate (_full_addresses self)) with
  | (i, _) :: _ => Ok i
  | [] => Raise IndexError
  end.

Definition get_local_session_target (self : Cluster) : result string :=
  rbind (dict_item (get_local_address self) (_address_to_port self)) (fun port =>
  Ok ("grpc://localhost:" ++ port)).
End Queries.

(** ** The outside world

    [start] and [terminate] act on the operating system and on remote
    hosts.  The world is a state [W] with one transition per kind of call;
    each transition may raise.  Calls whose return value the module does not
    use are gathered in [action]. *)

Definition SIGTERM : Z := 15.

Inductive action :=
| AtexitRegister                               (* atexit.register(self.terminate) *)
| Wait (p : Popen)                             (* p.wait() *)
| Killpg (pgid : Z) (sig : Z)                  (* os.killpg(pgid, sig) *)
| JsonDump (path : string) (spec : dict string (list string))
                                               (* json.dump(spec, open(path, 'w+')) *)
| SshClientNew (hostname : string)              (* SSHClient(); load host keys; set policy *)
| SshConnect (hostname : string) (port : Z) (username : string) (pkey : option RSAKey)
                                               (* client.connect(...) *)
| SshExecCommand (hostname : string) (cmd : string)   (* client.exec_command(cmd) *)
| SshClose (hostname : string)                        (* client.close() *)
| SftpConnect (hostname : string) (port : Z) (username : string) (pkey : option RSAKey)
                                               (* Transport; connect; SFTPClient.from_transport *)
| SftpWrite (hostname : string) (remote_path : string) (data : string)
                                               (* with sftp.open(path, 'w') as f: f.write(data) *)
| SftpPut (hostname : string) (localpath : string) (remotepath : string)
                                               (* sftp.put(localpath, remotepath) *)
| SftpClose (hostname : string).               (* sftp.close(); t.close() *)

Class OS (W : Type) := {
  (** [subprocess.Popen(cmd, shell=True, ...)]: [setsid] is
      [preexec_fn=os.setsid], [pipe] is [stdout=PIPE, stderr=STDOUT]. *)
  os_popen : string -> bool -> bool -> W -> result Popen * W;
  (** [os.getpgid(pid)] *)
  os_getpgid : Z -> W -> result Z * W;
  os_do : action -> W -> result unit * W;
  (** [netifaces]: the ['addr'] of every [AF_INET] entry of every interface. *)
  os_ifaddrs : W -> list (option string);
  (** [json.dumps] *)
  json_dumps : dict string (list string) -> string
}.

(** What is observed of a run: every call made to the world, with its
    outcome, oldest first. *)
Inductive event :=
| EvPopen (cmd : string) (setsid pipe : bool) (r : result Popen)
| EvGetpgid (pid : Z) (r : result Z)
| EvDo (a : action) (r : result unit).

Record state (W : Type) := {
  self : Cluster;
  world : W;
  trace : list event
}.
Arguments self {W} s.
Arguments world {W} s.
Arguments trace {W} s.

(** ** The state and exception monad of the methods *)

Definition M (W A : Type) : Type := state W -> result A * state W.

Definition ret {W A} (a : A) : M W A := fun st => (Ok a, st).
Definition raise {W A} (e : exn) : M W A := fun st => (Raise e, st).
Definition bind {W A B} (m : M W A) (k : A -> M W B) : M W B :=
  fun st => match m st with
            | (Ok a, st') => k a st'
            | (Raise e, st') => (Raise e, st')
            end.
Definition lift {W A} (r : result A) : M W A := fun st => (r, st).

Declare Scope monad_scope.
Delimit Scope monad_scope with monad.
Notation "x <- m ;; k" := (bind m (fun x => k))
  (at level 100, m at next level, right associativity) : monad_scope.
Notation "m ;;; k" := (bind m (fun _ => k))
  (at level 100, right associativity) : monad_scope.
Open Scope monad_scope.

(** [for x in l: body(x)] *)
Fixpoint for_each {W A} (l : list A) (body : A -> M W unit) : M W unit :=
  match l with
  | [] => ret tt
  | x :: r => body x ;;; for_each r body
  end.

(** A loop that collects one value per iteration. *)
Fixpoint for_collect {W A B} (l : list A) (body : A -> M W B) : M W (list B) :=
  match l with
  | [] => ret []
  | x :: r => y <- body x ;; ys <- for_collect r body ;; ret (y :: ys)
  end.

Section Methods.
Context {W : Type} `{OS W}.
Variable environ : Env.

Definition get_self : M W Cluster := fun st => (Ok (self st), st).

Definition popen (cmd : string) (setsid pipe : bool) : M W Popen :=
  fun st =>
    let '(r, w) := os_popen cmd setsid pipe (world st) in
    (r, {| self := self st; world := w;
           trace := (trace st ++ [EvPopen cmd setsid pipe r])%list |}).

Definition getpgid (pid : Z) : M W Z :=
  fun st =>
    let '(r, w) := os_getpgid pid (world st) in
    (r, {| self := self st; world := w; trace := (trace st ++ [EvGetpgid pid r])%list |}).

Definition do_ (a : action) : M W unit :=
  fun st =>
    let '(r, w) := os_do a (world st) in
    (r, {| self := self st; world := w; trace := (trace st ++ [EvDo a r])%list |}).

(** [self.subprocesses.append(proc)] *)
Definition append_subprocess (proc : option Popen) : M W unit :=
  fun st =>
    let c := self st in
    (Ok tt,
     {| self := {| cluster_spec := cluster_spec c;
                   _chief := _chief c;
                   _full_addresses := _full_addresses c;
                   _address_to_port := _address_to_port c;
                   _task_to_address := _task_to_address c;
                   subprocesses := (subprocesses c ++ [proc])%list;
                   _ssh_conf := _ssh_conf c |};
        world := world st; trace := trace st |}).

Definition is_local_address (address : string) : M W bool :=
  fun st => (is_local_address_in (os_ifaddrs (world st)) address, st).

(** *** [SSHCluster] *)

(** Reading an attribute of [self._ssh_conf[...]]: the stored value may
    be Python's [None], on which the access is an [AttributeError]. *)
Definition attr_of (ssh_config : option SSHConfig) : result SSHConfig :=
  match ssh_config with
  | Some c => Ok c
  | None => Raise AttributeError
  end.

(** [self._ssh_conf[hostname]] followed by an attribute access: a missing
    host is a [KeyError], a stored [None] an [AttributeError]. *)
Definition ssh_config_of (self : Cluster) (hostname : string) : result SSHConfig :=
  rbind (dict_item hostname (_ssh_conf self)) attr_of.

(** The command line that [remote_exec] builds. *)
Definition remote_cmd (ssh_config : SSHConfig) (args : list string) (hostname : string)
  : string :=
  let venv :=                       (* if ssh_config.python_venv: append *)
    if String.eqb (python_venv ssh_config) "" then []
    else [python_venv ssh_config ++ ";"] in
  let assignments :=                (* if ssh_config.env: extend *)
    match env ssh_config with
    | [] => []
    | e => map (fun '(k, v) => k ++ "=" ++ py_str v) (dict_items e)
    end in
  let cmd_list := app venv assignments in
  let full_cmd := join " " (app cmd_list args) in
  "ssh -i " ++ key_file ssh_config ++ " -o StrictHostKeyChecking=no -tt -p "
    ++ str_of_Z (port ssh_config) ++ " " ++ username ssh_config ++ "@" ++ hostname
    ++ " 'bash -c " ++ dquote ++ full_cmd ++ dquote ++ "'".

Definition remote_exec (args : list string) (hostname : string) : M W (option Popen) :=
  self <- get_self ;;
  ssh_config <- lift (ssh_config_of self hostname) ;;
  if negb (AUTODIST_DEBUG_REMOTE environ) then
    proc <- popen (remote_cmd ssh_config args hostname) true true ;;
    ret (Some proc)
  else ret None.

(** [with self._get_sftp_client(hostname) as sftp: body].  The context
    manager has no [finally]: the channel is closed when the body
    returns. *)
Definition with_sftp_client {A} (hostname : string) (body : M W A) : M W A :=
  self <- get_self ;;
  ssh_config <- lift (ssh_config_of self hostname) ;;
  do_ (SftpConnect hostname (port ssh_config) (username ssh_config) (pkey ssh_config)) ;;;
  a <- body ;;
  do_ (SftpClose hostname) ;;;
  ret a.

(** [with self._get_ssh_client(hostname) as client: body] *)
Definition with_ssh_client {A} (hostname : string) (body : M W A) : M W A :=
  self <- get_self ;;
  stored <- lift (dict_item hostname (_ssh_conf self)) ;;
  do_ (SshClientNew hostname) ;;;
  ssh_config <- lift (attr_of stored) ;;
  do_ (SshConnect hostname (port ssh_config) (username ssh_config) (pkey ssh_config)) ;;;
  a <- body ;;
  do_ (SshClose hostname) ;;;
  ret a.

Definition remote_file_write (remote_path data hostname : string) : M W unit :=
  with_sftp_client hostname (do_ (SftpWrite hostname remote_path data)).

Definition remote_copy (local_path remote_path hostname : string) : M W unit :=
  with_ssh_client hostname (do_ (SshExecCommand hostname ("mkdir -p " ++ remote_path))) ;;;
  with_sftp_client hostname
    (do_ (SftpPut hostname local_path (path_join remote_path (basename local_path)))).

(** *** [Cluster] *)

Definition remote_pre_start_tf_server (hostname tf_server_starter_filepath : string)
  : M W unit :=
  let working_dir := DEFAULT_WORKING_DIR environ in
  remote_copy tf_server_starter_filepath working_dir hostname ;;;
  self <- get_self ;;
  remote_file_write (path_join working_dir "cluster_spec.json")
                    (json_dumps (cluster_spec self)) hostname.

Definition kill_cmd (process_keyword : string) : string :=
  "ps aux | awk '\''! /awk/ && /" ++ process_keyword
    ++ "/ {print \$2}'\'' | xargs kill -9".

Definition local_kill_cmd (process_keyword : string) : string :=
  "bash -c 'bash -c " ++ dquote ++ kill_cmd process_keyword ++ dquote ++ "'".

(** [proc.wait()] on an element of [procs], which may be [None]. *)
Definition wait_proc (proc : option Popen) : M W unit :=
  match proc with
  | Some p => do_ (Wait p)
  | None => raise AttributeError
  end.

Definition clean_host (process_keyword : string) (hostname : string)
  : M W (option Popen) :=
  self <- get_self ;;
  if is_chief environ self (Some hostname) then
    proc <- popen (local_kill_cmd process_keyword) false true ;;
    ret (Some proc)
  else
    remote_exec (split_on " "%char (kill_cmd process_keyword)) hostname.

Definition _clean_autodist_processes (process_keyword : string) : M W unit :=
  self <- get_self ;;
  procs <- for_collect (dict_keys (_address_to_port self)) (clean_host process_keyword) ;;
  for_each procs wait_proc.

Definition envs : list string := [AUTODIST_MIN_LOG_LEVEL_name environ ++ "=ERROR"].

(** The body of the launch loop of [start] for one task. *)
Definition launch_task (job_name : string) (task : nat * string) : M W unit :=
  let '(task_index, full_address) := task in
  let address := hd "" (split_on colon full_address) in
  let args := ["--job_name=" ++ job_name;
               "--task_index=" ++ str_of_Z (Z.of_nat task_index)] in
  local <- is_local_address address ;;
  self <- get_self ;;
  if local || is_chief environ self (Some address) then
    do_ (JsonDump (path_join (DEFAULT_WORKING_DIR environ) "cluster_spec.json")
                  (cluster_spec self)) ;;;
    let cmd := app envs (app [sys_executable environ; "-m"; server_starter_name environ] args) in
    proc <- popen (join " " cmd) true false ;;
    append_subprocess (Some proc)
  else
    remote_pre_start_tf_server address (server_starter_file environ) ;;;
    let file := path_join (DEFAULT_WORKING_DIR environ)
                          (basename (server_starter_file environ)) in
    let bash := app envs (app ["python"; "-u"; file] args) in
    proc <- remote_exec bash address ;;
    append_subprocess proc.

(** The two nested [for] loops of [start]. *)
Definition launch_loop : M W unit :=
  self <- get_self ;;
  for_each (dict_items (cluster_spec self)) (fun '(job_name, tasks) =>
    for_each (enumerate tasks) (launch_task job_name)).

(** [start] up to the launch loop: the exit hook, then the sweep when the
    local address is the chief. *)
Definition start_prelude : M W unit :=
  do_ AtexitRegister ;;;
  self <- get_self ;;
  if is_chief environ self None then
    _clean_autodist_processes (server_starter_name environ)
  else ret tt.

Definition start : M W unit :=
  start_prelude ;;; launch_loop.

Definition terminate_one (p : option Popen) : M W unit :=
  match p with
  | None => raise AttributeError                 (* None.pid *)
  | Some proc => pgid <- getpgid (pid proc) ;; do_ (Killpg pgid SIGTERM)
  end.

Definition terminate : M W unit :=
  self <- get_self ;;
  for_each (subprocesses self) terminate_one.
End Methods.

End Network.

(* ===================================================================== *)
(** * A concrete world *)
(* ===================================================================== *)

(** A small operating system on which the methods can be run: a table of
    the processes that exist (pid and process group), a set of hosts that
    refuse connections, and the addresses of the local interfaces. *)
Module SimpleOS.
Import Py IpAddress Network.

Record sim := {
  next_pid : Z;
  own_pgid : Z;
  table : list (Z * Z);
  unreachable : list string;
  ifaddrs : list (option string)
}.

Definition spawn (setsid : bool) (w : sim) : result Popen * sim :=
  let p := next_pid w in
  (Ok {| pid := p |},
   {| next_pid := p + 1;
      own_pgid := own_pgid w;
      table := table w ++ [(p, if setsid then p else own_pgid w)];
      unreachable := unreachable w;
      ifaddrs := ifaddrs w |})%Z.

(** The process [p] has exited and has been reaped: its pid is gone. *)
Definition reap (p : Z) (w : sim) : sim :=
  {| next_pid := next_pid w;
     own_pgid := own_pgid w;
     table := List.filter (fun e => negb (Z.eqb (fst e) p)) (table w);
     unreachable := unreachable w;
     ifaddrs := ifaddrs w |}.

Definition connect (hostname : string) (w : sim) : result unit * sim :=
  if existsb (String.eqb hostname) (unreachable w)
  then (Raise (OtherError "NoValidConnectionsError"), w)
  else (Ok tt, w).

Definition sim_do (a : action) (w : sim) : result unit * sim :=
  match a with
  | Wait p => (Ok tt, reap (pid p) w)
  | Killpg pgid _ =>
      if existsb (fun e => Z.eqb (snd e) pgid) (table w) then (Ok tt, w)
      else (Raise ProcessLookupError, w)
  | SshConnect h _ _ _ => connect h w
  | SftpConnect h _ _ _ => connect h w
  | _ => (Ok tt, w)
  end.

Definition sim_getpgid (p : Z) (w : sim) : result Z * sim :=
  match List.filter (fun e => Z.eqb (fst e) p) (table w) with
  | (_, g) :: _ => (Ok g, w)
  | [] => (Raise ProcessLookupError, w)
  end.

Definition sim_json_dumps (spec : dict string (list string)) : string :=
  "{" ++ join ", " (map (fun '(k, l) =>
                          dquote ++ k ++ dquote ++ ": ["
                            ++ join ", " (map (fun a => dquote ++ a ++ dquote) l) ++ "]")
                       spec) ++ "}".

#[export] Instance sim_os : OS sim := {
  os_popen := fun _ setsid _ => spawn setsid;
  os_getpgid := sim_getpgid;
  os_do := sim_do;
  os_ifaddrs := ifaddrs;
  json_dumps := sim_json_dumps
}.

(** A machine with address 10.0.0.1 and no process of the cluster yet. *)
Definition boot : sim :=
  {| next_pid := 100; own_pgid := 1; table := [];
     unreachable := []; ifaddrs := [Some "127.0.0.1"; None; Some "10.0.0.1"] |}.

Definition with_unreachable (hosts : list string) (w : sim) : sim :=
  {| next_pid := next_pid w; own_pgid := own_pgid w; table := table w;
     unreachable := hosts; ifaddrs := ifaddrs w |}.

Definition init_state (c : Cluster) (w : sim) : state sim :=
  {| self := c; world := w; trace := [] |}.

(** The [ENV] of a process started without any AutoDist variable set. *)
Definition default_env : Env :=
  {| AUTODIST_WORKER := "";
     AUTODIST_DEBUG_REMOTE := false;
     AUTODIST_PATCH_TF := PBool true;
     AUTODIST_MIN_LOG_LEVEL_name := "AUTODIST_MIN_LOG_LEVEL";
     DEFAULT_WORKING_DIR := "/tmp/autodist";
     sys_executable := "/usr/bin/python3";
     server_starter_name := "autodist.utils.server_starter";
     server_starter_file := "/opt/autodist/utils/server_starter.py" |}.

Definition with_worker (a : string) (e : Env) : Env :=
  {| AUTODIST_WORKER := a;
     AUTODIST_DEBUG_REMOTE := AUTODIST_DEBUG_REMOTE e;
     AUTODIST_PATCH_TF := AUTODIST_PATCH_TF e;
     AUTODIST_MIN_LOG_LEVEL_name := AUTODIST_MIN_LOG_LEVEL_name e;
     DEFAULT_WORKING_DIR := DEFAULT_WORKING_DIR e;
     sys_executable := sys_executable e;
     server_starter_name := server_starter_name e;
     server_starter_file := server_starter_file e |}.

Definition with_debug_remote (b : bool) (e : Env) : Env :=
  {| AUTODIST_WORKER := AUTODIST_WORKER e;
     AUTODIST_DEBUG_REMOTE := b;
     AUTODIST_PATCH_TF := AUTODIST_PATCH_TF e;
     AUTODIST_MIN_LOG_LEVEL_name := AUTODIST_MIN_LOG_LEVEL_name e;
     DEFAULT_WORKING_DIR := DEFAULT_WORKING_DIR e;
     sys_executable := sys_executable e;
     server_starter_name := server_starter_name e;
     server_starter_file := server_starter_file e |}.

(** A group config with a user name and a port, as in the specification's
    scenario, and a three-node resource specification using it. *)
Definition group_A : ssh_info :=
  {| info_username := Some "u"; info_port := Some 2222%Z;
     info_python_venv := None; info_key_file := None; info_shared_envs := None |}.

Definition no_key_file (path : string) : result RSAKey := Raise OSError.

Definition registry_of (env : Env) (hosts : dict string string)
  : dict string (option SSHConfig) :=
  match SSHConfigMap env no_key_file [("A", group_A)] hosts with
  | Ok m => m
  | Raise _ => []
  end.

Definition three_nodes (env : Env) : ResourceSpec :=
  {| nodes := ["10.0.0.3"; "10.0.0.1"; "10.0.0.2"];
     chief := "10.0.0.1";
     ssh_config_map :=
       registry_of env [("10.0.0.1", "A"); ("10.0.0.2", "A"); ("10.0.0.3", "A")] |}.

Definition cluster_of (rs : ResourceSpec) (base_port : Z) : Cluster :=
  match fst (SSHCluster_init rs (range_iter base_port 1000)) with
  | Ok c => c
  | Raise _ =>
      {| cluster_spec := []; _chief := chief rs; _full_addresses := [];
         _address_to_port := []; _task_to_address := []; subprocesses := [];
         _ssh_conf := ssh_config_map rs |}
  end.

End SimpleOS.

Import Py IpAddress Network SimpleOS.

(* ===================================================================== *)
(** * Vocabulary of the statements *)
(* ===================================================================== *)

(** [s] occurs in [t] as a substring. *)
Definition is_substring (s t : string) : Prop :=
  exists pre post, t = pre ++ s ++ post.

(** The full address that the topology builder forms from a node identity
    and a port. *)
Definition full_address (n : string) (port : Z) : string :=
  n ++ ":" ++ str_of_Z port.

(** The cluster built for the node set of the scenario, enumerated as [l],
    with chief 10.0.0.1 and the port iterator standing at 2222. *)
Definition two_node_scenario (l : list string) : Prop :=
  forall (environ : Env) (conf : dict string (option SSHConfig)) (later_ports : int_iter),
  exists c,
    SSHCluster_init {| nodes := l; chief := "10.0.0.1"; ssh_config_map := conf |}
                    (2222 :: 2223 :: later_ports)%Z = (Ok c, later_ports) /\
    dict_get "worker" (cluster_spec c) = Some ["10.0.0.1:2222"; "10.0.0.2:2223"] /\
    is_chief environ c (Some "10.0.0.1") = true /\
    is_chief environ c (Some "10.0.0.2") = false.

(** A node identity that is an IPv6 address, bare or in brackets. *)
Definition is_ipv6_identity (n : string) : Prop :=
  exists v scope, ip_address (strip ["["%char; "]"%char] n) = Ok (IPv6Address v scope).

Section RegistryVocabulary.
Variable environ : Env.
Variable from_private_key_file : string -> result RSAKey.

(** The registry of the scenario of the specification. *)
Definition scenario_registry : result (dict string (option SSHConfig)) :=
SSHConfigMap environ from_private_key_file
  [("A", {| info_username := Some "u"; info_port := Some 2222%Z;
            info_python_venv := None; info_key_file := None;
            info_shared_envs := None |})]
  [("h1", "A")].
End RegistryVocabulary.

Section LifecycleVocabulary.
Context {W : Type} `{OS W}.
Variable environ : Env.
Implicit Types (st : state W) (evs : list event).

(** The processes that a sequence of events has created. *)
Definition spawned evs : list Popen :=
flat_map (fun ev => match ev with
                    | EvPopen _ _ _ (Ok p) => [p]
                    | _ => []
                    end) evs.

(** The handles of a handle list that are processes (not [None]). *)
Definition processes (hs : list (option Popen)) : list Popen :=
flat_map (fun h => match h with Some p => [p] | None => [] end) hs.

(** A computation that leaves the object as it is and creates no
  process. *)
Definition quiet {A} (m : M W A) : Prop :=
forall st r st', m st = (r, st') ->
  self st' = self st /\ exists evs, trace st' = (trace st ++ evs)%list /\ spawned evs = [].

(** A computation that leaves the object as it is. *)
Definition keeps_self {A} (m : M W A) : Prop :=
forall st r st', m st = (r, st') ->
  self st' = self st /\ exists evs, trace st' = (trace st ++ evs)%list.

(** A computation that on success has appended exactly one handle, the
  one of the process it has created if any, and that on failure has
  appended nothing and created no process. *)
Definition records_one (m : M W unit) : Prop :=
forall st r st', m st = (r, st') ->
  exists evs, trace st' = (trace st ++ evs)%list /\
    match r with
    | Ok _ => exists h,
        subprocesses (self st') = (subprocesses (self st) ++ [h])%list /\
        spawned evs = processes [h]
    | Raise _ =>
        subprocesses (self st') = subprocesses (self st) /\ spawned evs = []
    end.

(** The tasks of a topology in the order in which [start] visits them. *)
Definition all_tasks (spec : dict string (list string)) : list (string * (nat * string)) :=
flat_map (fun '(job_name, tasks) => map (pair job_name) (enumerate tasks))
         (dict_items spec).

(** The launch of one element of [all_tasks]. *)
Definition launch (t : string * (nat * string)) : M W unit :=
launch_task environ (fst t) (snd t).

(** The events that [st'] has seen since [st]. *)
Definition events_since st st' : list event := drop (length (trace st)) (trace st').

(** The kill command that the sweep runs for a host, with the flags of
  its [Popen]: through a local shell for the chief, through ssh for any
  other host (which needs the host's config). *)
Definition sweep_command (c : Cluster) (kw host : string) : option (string * bool * bool) :=
if is_chief environ c (Some host) then Some (local_kill_cmd kw, false, true)
else match ssh_config_of c host with
     | Ok cfg => Some (remote_cmd cfg (split_on " "%char (kill_cmd kw)) host, true, true)
     | Raise _ => None
     end.

(** [kill_commands_issued c kw hosts procs evs]: for the hosts in order,
  [evs] are the successful spawns of their kill commands and [procs]
  what the sweep keeps for each: the process, or [None] where
  [remote_exec] ran nothing (dry-run mode). *)
Inductive kill_commands_issued (c : Cluster) (kw : string)
: list string -> list (option Popen) -> list event -> Prop :=
| kci_nil : kill_commands_issued c kw [] [] []
| kci_spawn host hosts p procs cmd setsid pipe evs :
  sweep_command c kw host = Some (cmd, setsid, pipe) ->
  kill_commands_issued c kw hosts procs evs ->
  kill_commands_issued c kw (host :: hosts) (Some p :: procs)
                       (EvPopen cmd setsid pipe (Ok p) :: evs)
| kci_dry_run host hosts procs evs :
  AUTODIST_DEBUG_REMOTE environ = true ->
  is_chief environ c (Some host) = false ->
  kill_commands_issued c kw hosts procs evs ->
  kill_commands_issued c kw (host :: hosts) (None :: procs) evs.

(** An event of the sweep: the spawn of a host's kill command, or the
  wait for such a process. *)
Definition is_sweep_event (c : Cluster) (kw : string) (ev : event) : Prop :=
(exists host cmd setsid pipe r,
   sweep_command c kw host = Some (cmd, setsid, pipe) /\ ev = EvPopen cmd setsid pipe r) \/
(exists p r, ev = EvDo (Wait p) r).

(** The event of a wait that returned. *)
Definition waited (p : Popen) : event := EvDo (Wait p) (Ok tt).

(** [signalled_all hs evs]: [evs] are the events of signalling every
  handle of [hs] with success: for each, in order, the lookup of its
  process group and the SIGTERM sent to that group. *)
Inductive signalled_all : list (option Popen) -> list event -> Prop :=
| sa_nil : signalled_all [] []
| sa_cons p pgid hs evs :
  signalled_all hs evs ->
  signalled_all (Some p :: hs)
                (EvGetpgid (pid p) (Ok pgid) :: EvDo (Killpg pgid SIGTERM) (Ok tt) :: evs).

(** What the handle at which [terminate] fails has caused: nothing for
  [None] (the attribute access fails), a failed group lookup, or a
  lookup and a failed signal. *)
Definition failed_at (h : option Popen) (e : exn) (evs : list event) : Prop :=
match h with
| None => e = AttributeError /\ evs = []
| Some p =>
    evs = [EvGetpgid (pid p) (Raise e)] \/
    exists pgid, evs = [EvGetpgid (pid p) (Ok pgid);
                        EvDo (Killpg pgid SIGTERM) (Raise e)]
end.

(** The target of a task is remote in a state: its address is neither
  one of the local interfaces nor the chief. *)
Definition target_is_remote st (full_address : string) : Prop :=
let address := hd "" (split_on colon full_address) in
is_local_address_in (os_ifaddrs (world st)) address = Ok false /\
is_chief environ (self st) (Some address) = false.
End LifecycleVocabulary.

(** ** States of the concrete world *)

(** The chief 10.0.0.1 of a three-node cluster, about to call [start]. *)
Definition chief_state : state sim :=
  init_state (cluster_of (three_nodes default_env) 15000) boot.

(** The same, with the host 10.0.0.3 refusing connections. *)
Definition chief_state_one_down : state sim :=
  init_state (cluster_of (three_nodes default_env) 15000)
             (with_unreachable ["10.0.0.3"] boot).

(** The chief after a successful [start], its three servers running. *)
Definition started_state : state sim := snd (start default_env chief_state).

(** The same after the first server has exited and has been reaped. *)
Definition first_server_gone : state sim :=
  {| self := self started_state;
     world := reap 103 (world started_state);
     trace := [] |}.

(** A worker process (local address 10.0.0.2, not the chief) in dry-run
    mode. *)
Definition dry_run_worker_env : Env :=
  with_worker "10.0.0.2" (with_debug_remote true default_env).

(** ** Vocabulary of the further properties *)

(** A string without a colon. *)
Definition colon_free (s : string) : Prop := count_char colon s = 0.

(** The name of one of the two environment entries that every config
    carries. *)
Definition is_baseline_key (k : string) : bool :=
  String.eqb k "TF_CPP_MIN_LOG_LEVEL" || String.eqb k "AUTODIST_PATCH_TF".

(** Two node identities of which the second, in sorted order, is a
    substring of the first. *)
Definition overlapping_nodes : ResourceSpec :=
  {| nodes := ["2.2.2.2"; "12.2.2.2"]; chief := "12.2.2.2"; ssh_config_map := [] |}.

(** The config of a group can be built. *)
Definition config_ok (environ : Env) (from_private_key_file : string -> result RSAKey)
           (kv : string * ssh_info) : Prop :=
  is_ok (make_config environ from_private_key_file (snd kv)) = true.

(** A group whose shared environment names a baseline entry. *)
Definition group_shadowing : ssh_info :=
  {| info_username := Some "u"; info_port := None;
     info_python_venv := None; info_key_file := None;
     info_shared_envs := Some [("TF_CPP_MIN_LOG_LEVEL", PInt 3)] |}.

(** A group with a shared environment and no port. *)
Definition group_with_env : ssh_info :=
  {| info_username := Some "u"; info_port := None;
     info_python_venv := None; info_key_file := Some "";
     info_shared_envs := Some [("LD_LIBRARY_PATH", PStr "/opt/lib")] |}.

Section TransportVocabulary.
Context {W : Type} `{OS W}.
Variable environ : Env.

(** The events of pushing the server starter and the topology to a remote
    host, every step having returned: the copy of the starter file into the
    working directory, then the writing of the serialized topology. *)
Definition pushed (cfg : SSHConfig) (host : string) (spec : dict string (list string))
  : list event :=
  let dir := DEFAULT_WORKING_DIR environ in
  let file := server_starter_file environ in
  [EvDo (SshClientNew host) (Ok tt);
   EvDo (SshConnect host (port cfg) (username cfg) (pkey cfg)) (Ok tt);
   EvDo (SshExecCommand host ("mkdir -p " ++ dir)) (Ok tt);
   EvDo (SshClose host) (Ok tt);
   EvDo (SftpConnect host (port cfg) (username cfg) (pkey cfg)) (Ok tt);
   EvDo (SftpPut host file (path_join dir (basename file))) (Ok tt);
   EvDo (SftpClose host) (Ok tt);
   EvDo (SftpConnect host (port cfg) (username cfg) (pkey cfg)) (Ok tt);
   EvDo (SftpWrite host (path_join dir "cluster_spec.json") (json_dumps spec)) (Ok tt);
   EvDo (SftpClose host) (Ok tt)].

(** The command that starts the server of a task on a remote host. *)
Definition remote_server_args (job_name : string) (task_index : nat) : list string :=
  [AUTODIST_MIN_LOG_LEVEL_name environ ++ "=ERROR"; "python"; "-u";
   path_join (DEFAULT_WORKING_DIR environ) (basename (server_starter_file environ));
   "--job_name=" ++ job_name;
   "--task_index=" ++ str_of_Z (Z.of_nat task_index)].

(** The command that starts the server of a task on the local machine. *)
Definition local_server_cmd (job_name : string) (task_index : nat) : string :=
  join " " [AUTODIST_MIN_LOG_LEVEL_name environ ++ "=ERROR"; sys_executable environ;
            "-m"; server_starter_name environ;
            "--job_name=" ++ job_name;
            "--task_index=" ++ str_of_Z (Z.of_nat task_index)].

(** The target of a task is launched locally in a state: its address
    parses and is one of the local interfaces or the chief. *)
Definition target_is_local (st : state W) (full_address : string) : Prop :=
  let address := hd "" (split_on colon full_address) in
  exists b, is_local_address_in (os_ifaddrs (world st)) address = Ok b /\
            b || is_chief environ (self st) (Some address) = true.
End TransportVocabulary.

(** A cluster whose registry has a config for 10.0.0.1, the value [None]
    for 10.0.0.2 (unknown group) and no entry for 10.0.0.3. *)
Definition partial_registry_state : state sim :=
  init_state
    (cluster_of {| nodes := ["10.0.0.1"; "10.0.0.2"; "10.0.0.3"];
                   chief := "10.0.0.1";
                   ssh_config_map :=
                     registry_of default_env [("10.0.0.1", "A"); ("10.0.0.2", "B")] |}
                15000)
    boot.

(** A cluster one of whose nodes is named by a host name. *)
Definition hostname_state : state sim :=
  init_state
    (cluster_of {| nodes := ["node1"; "10.0.0.1"];
                   chief := "10.0.0.1";
                   ssh_config_map :=
                     registry_of default_env [("10.0.0.1", "A"); ("node1", "A")] |}
                15000)
    boot.

(* ===================================================================== *)
(** * Properties of the built-ins *)
(* ===================================================================== *)

Section StringFacts.

Lemma append_cons c s t : String c s ++ t = String c (s ++ t).
Proof. reflexivity. Qed.

Lemma append_nil t : "" ++ t = t.
Proof. reflexivity. Qed.

Lemma ascii_compare_refl c : Ascii.compare c c = Eq.
Proof. unfold Ascii.compare. apply N.compare_refl. Qed.

Lemma ascii_compare_Eq a b : Ascii.compare a b = Eq -> a = b.
Proof. apply Ascii.compare_eq_iff. Qed.

Lemma ascii_compare_Lt_trans a b c :
  Ascii.compare a b = Lt -> Ascii.compare b c = Lt -> Ascii.compare a c = Lt.
Proof.
  unfold Ascii.compare. rewrite !N.compare_lt_iff. apply N.lt_trans.
Qed.

Lemma string_compare_Lt_trans a : forall b c,
  String.compare a b = Lt -> String.compare b c = Lt -> String.compare a c = Lt.
Proof.
  induction a as [|x a IH]; intros [|y b] [|z c]; simpl; try congruence.
  destruct (Ascii.compare x y) eqn:Hxy; try congruence;
    destruct (Ascii.compare y z) eqn:Hyz; try congruence; intros H1 H2.
  - apply ascii_compare_Eq in Hxy, Hyz. subst.
    rewrite ascii_compare_refl. eauto.
  - apply ascii_compare_Eq in Hxy. subst. now rewrite Hyz.
  - apply ascii_compare_Eq in Hyz. subst. now rewrite Hxy.
  - now rewrite (ascii_compare_Lt_trans _ _ _ Hxy Hyz).
Qed.

Lemma str_le_cases a b : str_le a b <-> a = b \/ String.compare a b = Lt.
Proof.
  unfold str_le, String.leb. split.
  - destruct (String.compare a b) eqn:E; try discriminate; auto.
    apply String.compare_eq_iff in E. auto.
  - intros [-> | ->]; [|reflexivity].
    assert (String.compare b b = Eq) as ->; [|reflexivity].
    induction b as [|c b IH]; simpl; [reflexivity|].
    now rewrite ascii_compare_refl.
Qed.

#[export] Instance str_le_trans : Transitive str_le.
Proof.
  intros a b c. rewrite !str_le_cases.
  intros [-> | H1] [-> | H2]; auto.
  right. eapply string_compare_Lt_trans; eauto.
Qed.

#[export] Instance str_le_antisym : AntiSymm eq str_le.
Proof. intros a b. apply String.leb_antisym. Qed.

#[export] Instance str_le_total : Total str_le.
Proof. intros a b. apply String.leb_total. Qed.

(** [sorted] depends on the set of elements only, not on the order in
    which they are given. *)
Lemma sorted_Permutation l1 l2 : l1 ≡ₚ l2 -> sorted l1 = sorted l2.
Proof.
  intros Hp. unfold sorted.
  apply (Sorted_unique str_le); try apply Sorted_merge_sort; try apply _.
  now rewrite !merge_sort_Permutation.
Qed.

Lemma sorted_perm l : sorted l ≡ₚ l.
Proof. apply merge_sort_Permutation. Qed.

Lemma sorted_is_sorted l : Sorted str_le (sorted l).
Proof. apply Sorted_merge_sort. apply _. Qed.

Lemma count_char_app c s t :
  count_char c (s ++ t) = count_char c s + count_char c t.
Proof. induction s as [|d s IH]; simpl; [reflexivity|]. rewrite IH. lia. Qed.

Lemma split_on_length c s : length (split_on c s) = S (count_char c s).
Proof.
  induction s as [|d s IH]; simpl; [reflexivity|].
  destruct (Ascii.eqb d c); simpl.
  - now rewrite IH.
  - destruct (split_on c s); simpl in *; [discriminate|]. exact IH.
Qed.

Lemma lstrip_count chars c s : count_char c (lstrip chars s) <= count_char c s.
Proof.
  induction s as [|d s IH]; simpl; [lia|].
  destruct (in_chars chars d); simpl; lia.
Qed.

Lemma rstrip_count chars c s : count_char c (rstrip chars s) <= count_char c s.
Proof.
  induction s as [|d s IH]; simpl; [lia|].
  destruct (rstrip chars s) eqn:E; simpl in *.
  - destruct (in_chars chars d); simpl; lia.
  - lia.
Qed.

Lemma strip_count chars c s : count_char c (strip chars s) <= count_char c s.
Proof.
  unfold strip. etransitivity; [apply rstrip_count|apply lstrip_count].
Qed.

Lemma prefix_spec s : forall t, String.prefix s t = true <-> exists post, t = s ++ post.
Proof.
  induction s as [|c s IH]; intros t.
  - split; [eauto|]. intros _. now destruct t.
  - destruct t as [|d t]; simpl.
    + split; [discriminate|]. intros [post Hp]. discriminate.
    + destruct (ascii_dec c d) as [-> | Hne].
      * rewrite IH. split; intros [post Hp]; exists post.
        -- rewrite append_cons. now f_equal.
        -- rewrite append_cons in Hp. now injection Hp.
      * split; [discriminate|]. intros [post Hp].
        rewrite append_cons in Hp. injection Hp as Hd _. congruence.
Qed.

Lemma contains_nil s : contains s "" = String.prefix s "" || false.
Proof. reflexivity. Qed.

Lemma contains_cons s d t :
  contains s (String d t) = String.prefix s (String d t) || contains s t.
Proof. reflexivity. Qed.

Lemma contains_spec s t : contains s t = true <-> is_substring s t.
Proof.
  unfold is_substring. induction t as [|d t IH].
  - rewrite contains_nil, orb_false_r, prefix_spec. split.
    + intros [post Hp]. exists "", post. exact Hp.
    + intros [[|? ?] [post Hp]]; [eauto|discriminate].
  - rewrite contains_cons, orb_true_iff, prefix_spec, IH. split.
    + intros [[post Hp]|[pre [post Hp]]].
      * exists "", post. exact Hp.
      * exists (String d pre), post. rewrite append_cons. now rewrite Hp.
    + intros [[|e pre] [post Hp]].
      * left. eauto.
      * right. exists pre, post. rewrite append_cons in Hp. congruence.
Qed.
End StringFacts.

Section DictFacts.
Context {K V : Type} `{EqDecision K}.
Implicit Types (d : dict K V) (k : K) (v : V).

Lemma dict_get_set_eq k v d : dict_get k (dict_set k v d) = Some v.
Proof.
  induction d as [|[k' v'] d IH]; simpl.
  - now rewrite decide_True.
  - destruct (decide (k = k')) as [->|Hne]; simpl.
    + now rewrite decide_True.
    + now rewrite decide_False.
Qed.

Lemma dict_get_set_ne k k' v d :
  k <> k' -> dict_get k' (dict_set k v d) = dict_get k' d.
Proof.
  intros Hne. induction d as [|[k2 v2] d IH]; simpl.
  - now rewrite decide_False by congruence.
  - destruct (decide (k = k2)) as [->|Hk]; simpl.
    + now rewrite !decide_False by congruence.
    + destruct (decide (k' = k2)); auto.
Qed.

Lemma dict_get_None_keys k d : dict_get k d = None <-> k ∉ dict_keys d.
Proof.
  induction d as [|[k' v'] d IH]; simpl.
  - split; [intros _; apply not_elem_of_nil|reflexivity].
  - rewrite not_elem_of_cons. destruct (decide (k = k')) as [->|Hne].
    + split; [discriminate|]. intros [? _]. congruence.
    + rewrite IH. tauto.
Qed.
End DictFacts.

(* ===================================================================== *)
(** * The topology builder *)
(* ===================================================================== *)

Section Topology.

(** With enough ports left, the workers are the nodes paired in order
    with the next ports, and that many ports are consumed. *)
Lemma format_workers_enough ns : forall it,
  length ns <= length it ->
  format_workers ns it =
    (Ok (zip_with full_address ns (take (length ns) it)), drop (length ns) it).
Proof.
  induction ns as [|n ns IH]; intros it Hlen; simpl.
  - now rewrite drop_0.
  - destruct it as [|p it]; simpl in *; [lia|].
    rewrite IH by lia. reflexivity.
Qed.

(** With too few ports left, the comprehension stops with
    [StopIteration] and the iterator is exhausted. *)
Lemma format_workers_exhausted ns : forall it,
  length it < length ns ->
  format_workers ns it = (Raise StopIteration, []).
Proof.
  induction ns as [|n ns IH]; intros it Hlen; simpl in *; [lia|].
  destruct it as [|p it]; simpl in *; [reflexivity|].
  rewrite IH by lia. reflexivity.
Qed.

Lemma format_workers_Ok ns it w it' :
  format_workers ns it = (Ok w, it') ->
  length ns <= length it /\ w = zip_with full_address ns (take (length ns) it).
Proof.
  intros Hf. destruct (decide (length ns <= length it)) as [Hle|Hgt].
  - rewrite format_workers_enough in Hf by exact Hle. split; [exact Hle|congruence].
  - rewrite format_workers_exhausted in Hf by lia. discriminate.
Qed.

Lemma get_default_cluster_spec_enough rs it :
  length (nodes rs) <= length it ->
  _get_default_cluster_spec rs it =
    (Ok [("worker", zip_with full_address (sorted (nodes rs))
                             (take (length (nodes rs)) it))],
     drop (length (nodes rs)) it).
Proof.
  intros Hlen. unfold _get_default_cluster_spec.
  assert (length (sorted (nodes rs)) = length (nodes rs)) as Hs
    by (now rewrite sorted_perm).
  rewrite format_workers_enough by lia. now rewrite Hs.
Qed.
End Topology.

(** C1, as the code has it.  For a fixed set of node identities and a fixed
    state of the port iterator the build is deterministic: the order in
    which the set is enumerated does not matter, and the job-to-address
    mapping and the iterator left behind are the same.  The ports come from
    the module-level iterator [DEFAULT_PORT_RANGE], which every build in the
    process advances by one port per node: with enough ports left, the
    workers are the sorted nodes paired with the next ports, and the next
    build starts after them. *)
Theorem get_default_cluster_spec_deterministic (rs1 rs2 : ResourceSpec) (it : int_iter) :
  nodes rs1 ≡ₚ nodes rs2 ->
  _get_default_cluster_spec rs1 it = _get_default_cluster_spec rs2 it /\
  (length (nodes rs1) <= length it ->
   _get_default_cluster_spec rs1 it =
     (Ok [("worker", zip_with full_address (sorted (nodes rs1))
                              (take (length (nodes rs1)) it))],
      drop (length (nodes rs1)) it)).
Proof.
  intros Hp. split.
  - unfold _get_default_cluster_spec. now rewrite (sorted_Permutation _ _ Hp).
  - apply get_default_cluster_spec_enough.
Qed.

Lemma get_default_cluster_spec_deterministic_witness :
  let rs1 := {| nodes := ["10.0.0.2"; "10.0.0.1"; "10.0.0.3"];
                chief := "10.0.0.1"; ssh_config_map := [] |} in
  let rs2 := {| nodes := ["10.0.0.3"; "10.0.0.2"; "10.0.0.1"];
                chief := "10.0.0.1"; ssh_config_map := [] |} in
  _get_default_cluster_spec rs1 (range_iter 15000 5)
    = _get_default_cluster_spec rs2 (range_iter 15000 5) /\
  _get_default_cluster_spec rs1 (range_iter 15000 5)
    = (Ok [("worker", ["10.0.0.1:15000"; "10.0.0.2:15001"; "10.0.0.3:15002"])],
       [15003; 15004]%Z).
Proof.
  intros rs1 rs2.
  assert (nodes rs1 ≡ₚ nodes rs2) as Hp.
  { simpl. change ["10.0.0.2"; "10.0.0.1"; "10.0.0.3"]
      with (["10.0.0.2"; "10.0.0.1"] ++ ["10.0.0.3"])%list.
    now rewrite (Permutation_app_comm _ ["10.0.0.3"]). }
  destruct (get_default_cluster_spec_deterministic rs1 rs2 (range_iter 15000 5) Hp)
    as [Heq Hports].
  split; [exact Heq|].
  rewrite Hports; [reflexivity|simpl; lia].
Defined.

(** C1, as stated, fails: the port source is shared by the builds of a
    process, so a second build from the same resource specification gets
    other ports than the first. *)
Lemma second_build_in_process_differs :
  let rs := {| nodes := ["10.0.0.2"; "10.0.0.1"];
               chief := "10.0.0.1"; ssh_config_map := [] |} in
  let DEFAULT_PORT_RANGE := range_iter 15000 1000 in
  let '(first, it1) := _get_default_cluster_spec rs DEFAULT_PORT_RANGE in
  let '(second, _) := _get_default_cluster_spec rs it1 in
  first = Ok [("worker", ["10.0.0.1:15000"; "10.0.0.2:15001"])] /\
  second = Ok [("worker", ["10.0.0.1:15002"; "10.0.0.2:15003"])] /\
  first <> second.
Proof. vm_compute. repeat split. discriminate. Qed.

(* ===================================================================== *)
(** * Scenarios and role queries *)
(* ===================================================================== *)

(** C6.  For the node set {10.0.0.2, 10.0.0.1}, in either order of
    enumeration, with chief 10.0.0.1 and base port 2222, the "worker" list
    is ["10.0.0.1:2222"; "10.0.0.2:2223"], [is_chief("10.0.0.1")] is true
    and [is_chief("10.0.0.2")] is false. *)
Theorem two_node_topology_and_chief :
  two_node_scenario ["10.0.0.2"; "10.0.0.1"] /\
  two_node_scenario ["10.0.0.1"; "10.0.0.2"].
Proof.
  split; intros environ conf later_ports; eexists; (split; [reflexivity|]);
    repeat split; reflexivity.
Qed.

(** C8.  [is_loopback_address] on the three inputs of the specification;
    the bracketed IPv6 address with a port suffix is parsed to [::1]. *)
Theorem is_loopback_address_examples :
  is_loopback_address "127.0.0.1" = Ok true /\
  is_loopback_address "10.0.0.5" = Ok false /\
  is_loopback_address "[::1]:2222" = Ok true /\
  _get_ip_from_address "[::1]:2222" = Ok (IPv6Address 1 None).
Proof. repeat split; vm_compute; reflexivity. Qed.

Section LocalTaskIndex.
Variable environ : Env.

Lemma enumerate_filter_first {A} (P : A -> bool) (l : list A) : forall (k : nat),
  match List.filter (fun '(i, a) => P a) (imap (fun i a => (k + i, a)) l) with
  | (i, a) :: _ =>
      exists j, i = k + j /\ l !! j = Some a /\ P a = true /\
                forall j' b, j' < j -> l !! j' = Some b -> P b = false
  | [] => forall a, a ∈ l -> P a = false
  end.
Proof.
  induction l as [|x l IH]; intros k; simpl.
  - intros a Ha. now apply elem_of_nil in Ha.
  - destruct (P x) eqn:Px; simpl.
    + exists 0. split; [lia|]. repeat split; auto. intros j' b Hj'. lia.
    + specialize (IH (S k)).
      rewrite (imap_ext _ (fun i a => (S k + i, a))) by (intros; simpl; f_equal; lia).
      destruct (List.filter _ _) as [|[i a] rest].
      * intros a Ha. apply elem_of_cons in Ha as [->|Ha]; auto.
      * destruct IH as (j & -> & Hj & Pa & Hmin).
        exists (S j). split; [lia|]. repeat split; auto.
        intros [|j'] b Hlt Hb; simpl in Hb; [congruence|].
        apply (Hmin j'); [lia|exact Hb].
Qed.

(** C7.  [get_local_worker_task_index] returns the first index of the
    flattened address list whose entry has the local address as a
    substring (so an entry "address:port" matches its address), and
    raises (an [IndexError], the failure the specification names
    NoLocalTaskFound) when no entry has. *)
Theorem get_local_worker_task_index_first_match (self : Cluster) :
  let local := get_local_address environ self in
  match get_local_worker_task_index environ self with
  | Ok i =>
      exists a, _full_addresses self !! i = Some a /\ is_substring local a /\
        forall j b, j < i -> _full_addresses self !! j = Some b -> ~ is_substring local b
  | Raise e =>
      e = IndexError /\ forall a, a ∈ _full_addresses self -> ~ is_substring local a
  end.
Proof.
  intros local. unfold get_local_worker_task_index, enumerate.
  pose proof (enumerate_filter_first (contains local) (_full_addresses self) 0) as Hf.
  simpl in Hf. fold local.
  destruct (List.filter _ _) as [|[i a] rest].
  - split; [reflexivity|]. intros a Ha Hsub.
    apply contains_spec in Hsub. rewrite (Hf a Ha) in Hsub. discriminate.
  - destruct Hf as (j & -> & Hj & Pa & Hmin).
    exists a. split; [exact Hj|]. split; [now apply contains_spec|].
    intros j' b Hlt Hb Hsub. apply contains_spec in Hsub.
    rewrite (Hmin j' b Hlt Hb) in Hsub. discriminate.
Qed.

(** An entry of the form address:port contains its address. *)
Lemma address_port_contains a p : is_substring a (a ++ ":" ++ p).
Proof. exists "", (":" ++ p). reflexivity. Qed.
End LocalTaskIndex.

Lemma get_local_worker_task_index_first_match_witness :
  let c := cluster_of (three_nodes default_env) 15000 in
  let environ := with_worker "10.0.0.2" default_env in
  get_local_worker_task_index environ c = Ok 1 /\
  exists a, _full_addresses c !! 1 = Some a /\ is_substring "10.0.0.2" a /\
    forall j b, j < 1 -> _full_addresses c !! j = Some b -> ~ is_substring "10.0.0.2" b.
Proof.
  intros c environ. split; [reflexivity|].
  exact (get_local_worker_task_index_first_match environ c).
Defined.

(* ===================================================================== *)
(** * The SSH configuration registry *)
(* ===================================================================== *)

Section Registry.
Variable environ : Env.
Variable from_private_key_file : string -> result RSAKey.

Lemma build_conf_map_unknown items : forall acc conf_map group,
  build_conf_map environ from_private_key_file items acc = Ok conf_map ->
  dict_get group items = None ->
  dict_get group conf_map = dict_get group acc.
Proof.
  induction items as [|[key info] items IH]; intros acc conf_map group; simpl.
  - intros [= ->] _. reflexivity.
  - destruct (make_config _ _ info) as [c|e]; simpl; [|discriminate].
    intros Hb Hg.
    destruct (decide (group = key)) as [->|Hne]; [discriminate|].
    rewrite (IH _ _ _ Hb Hg).
    apply dict_get_set_ne. congruence.
Qed.

Lemma assign_hosts_lookup conf_map items : forall self host,
  NoDup (dict_keys items) ->
  dict_get host (assign_hosts items conf_map self) =
    match dict_get host items with
    | Some group => Some (dict_get group conf_map)
    | None => dict_get host self
    end.
Proof.
  induction items as [|[h g] items IH]; intros self host Hnd; simpl; [reflexivity|].
  simpl in Hnd. apply NoDup_cons in Hnd as [Hh Hnd].
  rewrite IH by exact Hnd.
  destruct (decide (host = h)) as [->|Hne].
  - apply dict_get_None_keys in Hh. rewrite Hh. apply dict_get_set_eq.
  - destruct (dict_get host items); [reflexivity|].
    apply dict_get_set_ne. congruence.
Qed.

(** What the registry holds for a host, given the host map. *)
Lemma SSHConfigMap_lookup info node_groups m host :
  SSHConfigMap environ from_private_key_file info node_groups = Ok m ->
  NoDup (dict_keys node_groups) ->
  exists conf_map,
    build_conf_map environ from_private_key_file info [] = Ok conf_map /\
    dict_get host m =
      match dict_get host node_groups with
      | Some group => Some (dict_get group conf_map)
      | None => None
      end.
Proof.
  unfold SSHConfigMap, dict_items. intros Hm Hnd.
  destruct (build_conf_map _ _ info []) as [conf_map|e] eqn:Hb; simpl in Hm;
    [|discriminate].
  injection Hm as <-. exists conf_map. split; [reflexivity|].
  now rewrite assign_hosts_lookup.
Qed.

(** C3, as the code has it.  In the scenario the entry of "h1" has port
    2222 and user name "u" and "h2", which the host map does not mention,
    has no entry.  In general a host that the host map does not mention
    has no entry, and a host mapped to a group that is not among the
    group configs does have an entry: the key is stored with Python's
    [None] as its value, so that a lookup succeeds and returns [None]. *)
Theorem SSHConfigMap_scenario_and_unknown_group :
  (exists m c,
     scenario_registry environ from_private_key_file = Ok m /\
     dict_get "h1" m = Some (Some c) /\ port c = 2222%Z /\ username c = "u" /\
     dict_get "h2" m = None /\ dict_mem "h2" m = false) /\
  (forall info node_groups m host,
     SSHConfigMap environ from_private_key_file info node_groups = Ok m ->
     NoDup (dict_keys node_groups) ->
     match dict_get host node_groups with
     | None => dict_get host m = None /\ dict_item host m = Raise KeyError
     | Some group =>
         dict_get group info = None ->
         dict_get host m = Some None /\ dict_mem host m = true /\
         dict_item host m = Ok None
     end).
Proof.
  split.
  - do 2 eexists. split; [reflexivity|]. repeat split; reflexivity.
  - intros info node_groups m host Hm Hnd.
    destruct (SSHConfigMap_lookup _ _ _ host Hm Hnd) as (conf_map & Hb & Hget).
    unfold dict_item, dict_mem. rewrite Hget.
    destruct (dict_get host node_groups) as [group|]; [|split; reflexivity].
    intros Hg.
    rewrite (build_conf_map_unknown _ _ _ _ Hb Hg). repeat split; reflexivity.
Qed.
End Registry.

Lemma SSHConfigMap_scenario_and_unknown_group_witness :
  let m := [("h1", Some {| username := "u"; port := 2222; python_venv := "";
                           key_file := ""; pkey := None;
                           env := [("TF_CPP_MIN_LOG_LEVEL", PInt 0);
                                   ("AUTODIST_PATCH_TF", PBool true)] |});
            ("h3", None)] in
  SSHConfigMap default_env no_key_file [("A", group_A)] [("h1", "A"); ("h3", "B")] = Ok m /\
  dict_get "h3" m = Some None /\ dict_mem "h3" m = true /\ dict_item "h3" m = Ok None.
Proof.
  intros m. split; [reflexivity|].
  destruct (SSHConfigMap_scenario_and_unknown_group default_env no_key_file) as [_ Hgen].
  refine (Hgen [("A", group_A)] [("h1", "A"); ("h3", "B")] m "h3" eq_refl _ eq_refl).
  repeat constructor; rewrite ?elem_of_cons, ?elem_of_nil; intuition discriminate.
Defined.

(** C3, as stated, fails: for a host whose group is unknown an entry is
    stored, with [None] as its value; the host is a key of the registry and
    looking it up does not raise. *)
Lemma unknown_group_entry_is_stored :
  let m := [("h1", None)] in
  dict_get "B" [("A", group_A)] = None /\
  SSHConfigMap default_env no_key_file [("A", group_A)] [("h1", "B")] = Ok m /\
  dict_mem "h1" m = true /\
  dict_keys m = ["h1"] /\
  dict_item "h1" m = Ok None.
Proof. repeat split; reflexivity. Qed.

(* ===================================================================== *)
(** * Construction of the cluster manager *)
(* ===================================================================== *)

Section Construction.

Lemma ipv6_int_from_string_colons s v :
  ipv6_int_from_string s = Some v -> 2 <= count_char colon s.
Proof.
  unfold ipv6_int_from_string.
  destruct (String.eqb s ""); [discriminate|].
  destruct (Nat.ltb_spec (length (split_on colon s)) 3) as [|Hlen]; [discriminate|].
  intros _. rewrite split_on_length in Hlen. lia.
Qed.

Lemma partition_first_app sep s : forall hd tl,
  partition_first sep s = Some (hd, tl) -> s = hd ++ String sep tl.
Proof.
  induction s as [|c s IH]; intros hd tl; simpl; [discriminate|].
  destruct (Ascii.eqb_spec c sep) as [->|Hne].
  - intros [= <- <-]. reflexivity.
  - destruct (partition_first sep s) as [[hd' tl']|]; [|discriminate].
    intros [= <- <-]. rewrite append_cons. f_equal. now apply IH.
Qed.

Lemma parse_ipv6_colons s v scope :
  parse_ipv6 s = Some (v, scope) -> 2 <= count_char colon s.
Proof.
  unfold parse_ipv6. destruct (has_char "/"%char s); [discriminate|].
  destruct (partition_first "%"%char s) as [[addr scope_id]|] eqn:Hp.
  - destruct (_ || _); [discriminate|].
    destruct (ipv6_int_from_string addr) as [w|] eqn:Hw; [|discriminate].
    intros _. apply ipv6_int_from_string_colons in Hw.
    rewrite (partition_first_app _ _ _ _ Hp), count_char_app. lia.
  - destruct (ipv6_int_from_string s) as [w|] eqn:Hw; [|discriminate].
    intros _. now apply ipv6_int_from_string_colons in Hw.
Qed.

Lemma is_ipv6_identity_colons n : is_ipv6_identity n -> 2 <= count_char colon n.
Proof.
  intros (v & scope & Hip). unfold ip_address in Hip.
  destruct (parse_ipv4 _); [discriminate|].
  destruct (parse_ipv6 _) as [[w sc]|] eqn:Hp; [|discriminate].
  apply parse_ipv6_colons in Hp.
  pose proof (strip_count ["["%char; "]"%char] colon n). lia.
Qed.

Lemma full_address_colons n p :
  count_char colon (full_address n p) = S (count_char colon n + count_char colon (str_of_Z p)).
Proof.
  unfold full_address. rewrite !count_char_app. simpl. lia.
Qed.

(** [dict(a.split(':') for a in ...)] succeeds exactly when every element
    has one colon, and fails with [ValueError] otherwise. *)
Lemma address_port_dict_Ok l : forall acc d,
  address_port_dict l acc = Ok d -> Forall (fun a => count_char colon a = 1) l.
Proof.
  induction l as [|a l IH]; intros acc d; simpl; [constructor|].
  pose proof (split_on_length colon a) as Hlen.
  destruct (split_on colon a) as [|k [|v [|x r]]]; try discriminate.
  intros Hd. constructor; [simpl in Hlen; lia|eauto].
Qed.

Lemma address_port_dict_Raise l : forall acc,
  Exists (fun a => count_char colon a <> 1) l ->
  address_port_dict l acc = Raise ValueError.
Proof.
  induction l as [|a l IH]; intros acc Hex; simpl.
  - now apply Exists_nil in Hex.
  - pose proof (split_on_length colon a) as Hlen.
    destruct (split_on colon a) as [|k [|v [|x r]]]; try reflexivity.
    apply Exists_cons in Hex as [Ha|Hl]; [simpl in Hlen; lia|eauto].
Qed.

Lemma zip_with_full_address_elem n ns : forall ports,
  n ∈ ns -> length ns <= length ports ->
  exists p, full_address n p ∈ zip_with full_address ns ports.
Proof.
  induction ns as [|m ns IH]; intros ports Hin Hlen.
  - now apply elem_of_nil in Hin.
  - destruct ports as [|q ports]; simpl in *; [lia|].
    apply elem_of_cons in Hin as [->|Hin].
    + exists q. apply elem_of_cons. now left.
    + destruct (IH ports Hin) as [p Hp]; [lia|].
      exists p. apply elem_of_cons. now right.
Qed.

(** C9.  The constructor succeeds only with full addresses that have
    exactly one colon.  When some node identity is an IPv6 address, bare
    or in brackets, the topology that is built has a full address with
    more than one colon, building the address-to-port map from it raises
    [ValueError], and so does the constructor; it is a function of the
    resource specification and the port iterator alone, so this happens
    before anything is launched. *)
Theorem SSHCluster_init_one_colon (rs : ResourceSpec) (it : int_iter) :
  (forall c it',
     SSHCluster_init rs it = (Ok c, it') ->
     Forall (fun a => count_char colon a = 1) (_full_addresses c)) /\
  (forall n spec it',
     n ∈ nodes rs -> is_ipv6_identity n ->
     _get_default_cluster_spec rs it = (Ok spec, it') ->
     Exists (fun a => 1 < count_char colon a) (concat (dict_values spec)) /\
     address_port_dict (concat (dict_values spec)) [] = Raise ValueError /\
     SSHCluster_init rs it = (Raise ValueError, it')) /\
  (forall n, n ∈ nodes rs -> is_ipv6_identity n ->
     is_ok (fst (SSHCluster_init rs it)) = false).
Proof.
  assert (forall n spec it',
     n ∈ nodes rs -> is_ipv6_identity n ->
     _get_default_cluster_spec rs it = (Ok spec, it') ->
     Exists (fun a => 1 < count_char colon a) (concat (dict_values spec))) as Hex.
  { intros n spec it' Hin Hv6 Hspec.
    unfold _get_default_cluster_spec in Hspec.
    destruct (format_workers _ it) as [[w|e] it1] eqn:Hf; simpl in Hspec;
      [|discriminate].
    injection Hspec as <- <-.
    apply format_workers_Ok in Hf as [Hlen ->]. simpl. rewrite app_nil_r.
    destruct (zip_with_full_address_elem n (sorted (nodes rs))
                (take (length (sorted (nodes rs))) it)) as [p Hp].
    - now rewrite sorted_perm.
    - rewrite length_take. lia.
    - apply Exists_exists. exists (full_address n p). split; [exact Hp|].
      rewrite full_address_colons. apply is_ipv6_identity_colons in Hv6. lia. }
  assert (forall n spec it',
     n ∈ nodes rs -> is_ipv6_identity n ->
     _get_default_cluster_spec rs it = (Ok spec, it') ->
     address_port_dict (concat (dict_values spec)) [] = Raise ValueError) as Hraise.
  { intros n spec it' Hin Hv6 Hspec. apply address_port_dict_Raise.
    eapply Exists_impl; [exact (Hex n spec it' Hin Hv6 Hspec)|].
    simpl. intros a Ha. lia. }
  split; [|split].
  - intros c it'. unfold SSHCluster_init.
    destruct (_get_default_cluster_spec rs it) as [[spec|e] it1]; simpl;
      [|discriminate].
    destruct (address_port_dict _ []) as [d|e] eqn:Hd; simpl; [|discriminate].
    intros [= <- <-]. simpl. eapply address_port_dict_Ok, Hd.
  - intros n spec it' Hin Hv6 Hspec.
    split; [eauto|]. split; [eauto|].
    unfold SSHCluster_init. rewrite Hspec. simpl.
    now rewrite (Hraise n spec it' Hin Hv6 Hspec).
  - intros n Hin Hv6. unfold SSHCluster_init.
    destruct (_get_default_cluster_spec rs it) as [[spec|e] it1] eqn:Hspec; simpl;
      [|reflexivity].
    now rewrite (Hraise n spec it1 Hin Hv6 eq_refl).
Qed.
End Construction.

Lemma SSHCluster_init_one_colon_witness :
  let rs := {| nodes := ["[::1]"; "10.0.0.1"; "fe80::2"]; chief := "10.0.0.1";
               ssh_config_map := [] |} in
  let spec := [("worker", ["10.0.0.1:15000"; "[::1]:15001"; "fe80::2:15002"])] in
  (Exists (fun a => 1 < count_char colon a) (concat (dict_values spec)) /\
   address_port_dict (concat (dict_values spec)) [] = Raise ValueError /\
   SSHCluster_init rs (range_iter 15000 4) = (Raise ValueError, [15003%Z])) /\
  Forall (fun a => count_char colon a = 1)
         (_full_addresses (cluster_of (three_nodes default_env) 15000)).
Proof.
  intros rs spec. split.
  - destruct (SSHCluster_init_one_colon rs (range_iter 15000 4)) as (_ & Hv6 & _).
    apply (Hv6 "[::1]" spec [15003%Z]).
    + apply elem_of_cons. now left.
    + exists 1%Z, None. reflexivity.
    + reflexivity.
  - destruct (SSHCluster_init_one_colon (three_nodes default_env) (range_iter 15000 1000))
      as (Hok & _ & _).
    eapply (Hok _ (range_iter 15003 997)). reflexivity.
Defined.

(* ===================================================================== *)
(** * The process lifecycle: [start] and [terminate] *)
(* ===================================================================== *)

Create HintDb quiet.

Section Lifecycle.
Context {W : Type} `{OS W}.
Variable environ : Env.

Implicit Types (st : state W) (evs : list event).

Lemma spawned_app evs1 evs2 : spawned (evs1 ++ evs2) = (spawned evs1 ++ spawned evs2)%list.
Proof. unfold spawned. apply flat_map_app. Qed.

Lemma processes_app hs1 hs2 :
  processes (hs1 ++ hs2) = (processes hs1 ++ processes hs2)%list.
Proof. unfold processes. apply flat_map_app. Qed.

(** ** Inversion of the monadic operations *)

Lemma bind_inv {A B} (m : M W A) (k : A -> M W B) st r st' :
  bind m k st = (r, st') ->
  (exists a st1, m st = (Ok a, st1) /\ k a st1 = (r, st')) \/
  (exists e, m st = (Raise e, st') /\ r = Raise e).
Proof.
  unfold bind. destruct (m st) as [[a|e] st1]; intros Hk.
  - left. eauto.
  - right. injection Hk as <- <-. eauto.
Qed.

Lemma bind_Ok {A B} (m : M W A) (k : A -> M W B) st a st1 :
  m st = (Ok a, st1) -> bind m k st = k a st1.
Proof. unfold bind. now intros ->. Qed.

Lemma bind_Raise {A B} (m : M W A) (k : A -> M W B) st e st1 :
  m st = (Raise e, st1) -> bind m k st = (Raise e, st1).
Proof. unfold bind. now intros ->. Qed.

Lemma popen_inv cmd setsid pipe st r st' :
  popen cmd setsid pipe st = (r, st') ->
  self st' = self st /\ trace st' = (trace st ++ [EvPopen cmd setsid pipe r])%list.
Proof.
  unfold popen. destruct (os_popen _ _ _ _) as [r0 w]. intros [= <- <-]. auto.
Qed.

Lemma do_inv a st r st' :
  do_ a st = (r, st') ->
  self st' = self st /\ trace st' = (trace st ++ [EvDo a r])%list.
Proof.
  unfold do_. destruct (os_do _ _) as [r0 w]. intros [= <- <-]. auto.
Qed.

Lemma getpgid_inv p st r st' :
  getpgid p st = (r, st') ->
  self st' = self st /\ trace st' = (trace st ++ [EvGetpgid p r])%list.
Proof.
  unfold getpgid. destruct (os_getpgid _ _) as [r0 w]. intros [= <- <-]. auto.
Qed.

(** ** Computations that record nothing and create no process *)

Lemma quiet_pure {A} (f : state W -> result A) : quiet (fun st => (f st, st)).
Proof.
  intros st r st' [= <- <-]. split; [reflexivity|].
  exists []. now rewrite app_nil_r.
Qed.

Lemma quiet_ret {A} (a : A) : quiet (ret (W:=W) a).
Proof. apply (quiet_pure (fun _ => Ok a)). Qed.

Lemma quiet_raise {A} e : quiet (raise (W:=W) (A:=A) e).
Proof. apply (quiet_pure (fun _ => Raise e)). Qed.

Lemma quiet_lift {A} (r : result A) : quiet (lift (W:=W) r).
Proof. apply (quiet_pure (fun _ => r)). Qed.

Lemma quiet_get_self : quiet (get_self (W:=W)).
Proof. apply (quiet_pure (fun st => Ok (self st))). Qed.

Lemma quiet_is_local_address a : quiet (is_local_address a).
Proof. apply (quiet_pure (fun st => is_local_address_in (os_ifaddrs (world st)) a)). Qed.

Lemma quiet_do a : quiet (do_ a).
Proof.
  intros st r st' Hd. apply do_inv in Hd as [Hs Ht]. split; [exact Hs|].
  eexists. split; [exact Ht|reflexivity].
Qed.

Lemma quiet_getpgid p : quiet (getpgid p).
Proof.
  intros st r st' Hd. apply getpgid_inv in Hd as [Hs Ht]. split; [exact Hs|].
  eexists. split; [exact Ht|reflexivity].
Qed.

Lemma quiet_bind {A B} (m : M W A) (k : A -> M W B) :
  quiet m -> (forall a, quiet (k a)) -> quiet (bind m k).
Proof.
  intros Hm Hk st r st' Hb.
  apply bind_inv in Hb as [(a & st1 & H1 & H2)|(e & H1 & ->)].
  - apply Hm in H1 as (Hs1 & evs1 & Ht1 & Hsp1).
    apply Hk in H2 as (Hs2 & evs2 & Ht2 & Hsp2).
    split; [congruence|]. exists (evs1 ++ evs2)%list.
    rewrite Ht2, Ht1, <- app_assoc, spawned_app, Hsp1, Hsp2. auto.
  - now apply Hm in H1.
Qed.

Lemma quiet_for_each {A} (l : list A) (body : A -> M W unit) :
  (forall x, quiet (body x)) -> quiet (for_each l body).
Proof.
  intros Hb. induction l as [|x l IH]; simpl.
  - apply quiet_ret.
  - apply quiet_bind; auto.
Qed.

Hint Resolve quiet_ret quiet_raise quiet_lift quiet_get_self quiet_is_local_address
     quiet_do quiet_getpgid : quiet.

Ltac quiet_step :=
  match goal with
  | |- forall _, _ => intro
  | |- quiet (bind _ _) => apply quiet_bind
  | |- quiet (if ?b then _ else _) => destruct b
  | |- quiet _ => solve [eauto with quiet]
  end.

Lemma quiet_with_sftp_client {A} host (body : M W A) :
  quiet body -> quiet (with_sftp_client host body).
Proof. intros Hb. unfold with_sftp_client. repeat quiet_step. Qed.

Lemma quiet_with_ssh_client {A} host (body : M W A) :
  quiet body -> quiet (with_ssh_client host body).
Proof. intros Hb. unfold with_ssh_client. repeat quiet_step. Qed.

Hint Resolve quiet_with_sftp_client quiet_with_ssh_client : quiet.

Lemma quiet_remote_pre_start_tf_server host file :
  quiet (remote_pre_start_tf_server environ host file).
Proof.
  unfold remote_pre_start_tf_server, remote_copy, remote_file_write.
  repeat quiet_step.
Qed.

(** ** Computations that leave the object alone *)

Lemma quiet_keeps_self {A} (m : M W A) : quiet m -> keeps_self m.
Proof. intros Hq st r st' Hm. apply Hq in Hm as (? & evs & ? & _). eauto. Qed.

Lemma keeps_self_popen cmd setsid pipe : keeps_self (popen cmd setsid pipe).
Proof. intros st r st' Hp. apply popen_inv in Hp as [? ?]. eauto. Qed.

Lemma keeps_self_bind {A B} (m : M W A) (k : A -> M W B) :
  keeps_self m -> (forall a, keeps_self (k a)) -> keeps_self (bind m k).
Proof.
  intros Hm Hk st r st' Hb.
  apply bind_inv in Hb as [(a & st1 & H1 & H2)|(e & H1 & ->)].
  - apply Hm in H1 as (Hs1 & evs1 & Ht1). apply Hk in H2 as (Hs2 & evs2 & Ht2).
    split; [congruence|]. exists (evs1 ++ evs2)%list. now rewrite Ht2, Ht1, <- app_assoc.
  - now apply Hm in H1.
Qed.

Lemma keeps_self_for_each {A} (l : list A) (body : A -> M W unit) :
  (forall x, keeps_self (body x)) -> keeps_self (for_each l body).
Proof.
  intros Hb. induction l as [|x l IH]; simpl.
  - apply quiet_keeps_self, quiet_ret.
  - apply keeps_self_bind; auto.
Qed.

Lemma keeps_self_for_collect {A B} (l : list A) (body : A -> M W B) :
  (forall x, keeps_self (body x)) -> keeps_self (for_collect l body).
Proof.
  intros Hb. induction l as [|x l IH]; simpl.
  - apply quiet_keeps_self, quiet_ret.
  - apply keeps_self_bind; [auto|]. intros y.
    apply keeps_self_bind; [auto|]. intros ys. apply quiet_keeps_self, quiet_ret.
Qed.

(** ** [remote_exec] *)

(** [remote_exec] leaves the object alone; the handle it returns is the
    process it has created, or [None] when it has created none. *)
Lemma remote_exec_inv args host st r st' :
  remote_exec environ args host st = (r, st') ->
  self st' = self st /\
  exists evs, trace st' = (trace st ++ evs)%list /\
    spawned evs = match r with Ok h => processes [h] | Raise _ => [] end.
Proof.
  unfold remote_exec. intros Hb.
  apply bind_inv in Hb as [(c & st1 & [= <- <-] & Hb)|(e & [= _ _] & _)].
  apply bind_inv in Hb as [(cfg & st1 & [= Hcfg <-] & Hb)|(e & [= He <-] & ->)].
  - destruct (AUTODIST_DEBUG_REMOTE environ); simpl in Hb.
    + injection Hb as <- <-. split; [reflexivity|].
      exists []. now rewrite app_nil_r.
    + apply bind_inv in Hb as [(p & st1 & Hp & [= <- <-])|(e & Hp & ->)];
        apply popen_inv in Hp as [Hs Ht]; (split; [exact Hs|]);
        eexists; (split; [exact Ht|reflexivity]).
  - split; [reflexivity|]. exists []. now rewrite app_nil_r.
Qed.

(** In dry-run mode [remote_exec] returns [None] for every host that has
    a config, and does nothing else. *)
Lemma remote_exec_dry_run args host st :
  AUTODIST_DEBUG_REMOTE environ = true ->
  remote_exec environ args host st =
    (rbind (ssh_config_of (self st) host) (fun _ => Ok None), st).
Proof.
  intros Hdry. unfold remote_exec, bind, get_self, lift.
  destruct (ssh_config_of (self st) host) as [cfg|e]; simpl; [|reflexivity].
  now rewrite Hdry.
Qed.

(** ** One iteration of the launch loop *)

Lemma append_subprocess_inv h st r st' :
  append_subprocess h st = (r, st') ->
  r = Ok tt /\ trace st' = trace st /\
  subprocesses (self st') = (subprocesses (self st) ++ [h])%list.
Proof. unfold append_subprocess. intros [= <- <-]. auto. Qed.

Lemma launch_task_records_one job task : records_one (launch_task environ job task).
Proof.
  destruct task as [task_index full_address].
  intros st r st' Hl. unfold launch_task in Hl.
  apply bind_inv in Hl as [(local & st1 & [= Hloc <-] & Hl)|(e & [= He <-] & ->)];
    [|exists []; rewrite app_nil_r; auto].
  apply bind_inv in Hl as [(c & st1 & [= <- <-] & Hl)|(e & [= _ _] & _)].
  destruct (local || is_chief environ (self st) _).
  - (* local spawn *)
    apply bind_inv in Hl as [([] & st1 & Hj & Hl)|(e & Hj & ->)];
      apply do_inv in Hj as [Hs1 Ht1];
      [|eexists; split; [exact Ht1|]; rewrite Hs1; auto].
    apply bind_inv in Hl as [(p & st2 & Hp & Hl)|(e & Hp & ->)];
      apply popen_inv in Hp as [Hs2 Ht2];
      [|eexists; split; [rewrite Ht2, Ht1, <- app_assoc; reflexivity|];
        rewrite Hs2, Hs1; auto].
    apply append_subprocess_inv in Hl as (-> & Ht3 & Hs3).
    eexists. split; [rewrite Ht3, Ht2, Ht1, <- app_assoc; reflexivity|].
    exists (Some p). rewrite Hs3, Hs2, Hs1. auto.
  - (* remote *)
    apply bind_inv in Hl as [([] & st1 & Hpre & Hl)|(e & Hpre & ->)];
      apply quiet_remote_pre_start_tf_server in Hpre as (Hs1 & evs1 & Ht1 & Hsp1);
      [|exists evs1; split; [exact Ht1|]; rewrite Hs1; auto].
    apply bind_inv in Hl as [(h & st2 & Hex & Hl)|(e & Hex & ->)];
      apply remote_exec_inv in Hex as (Hs2 & evs2 & Ht2 & Hsp2);
      [|exists (evs1 ++ evs2)%list; split;
        [rewrite Ht2, Ht1, <- app_assoc; reflexivity|];
        rewrite Hs2, Hs1, spawned_app, Hsp1, Hsp2; auto].
    apply append_subprocess_inv in Hl as (-> & Ht3 & Hs3).
    exists (evs1 ++ evs2)%list. split; [rewrite Ht3, Ht2, Ht1, <- app_assoc; reflexivity|].
    exists h. rewrite Hs3, Hs2, Hs1, spawned_app, Hsp1, Hsp2. auto.
Qed.

(** ** Loops *)

Lemma for_each_app {A} (l1 l2 : list A) (body : A -> M W unit) st :
  for_each (l1 ++ l2) body st = bind (for_each l1 body) (fun _ => for_each l2 body) st.
Proof.
  revert st. induction l1 as [|x l1 IH]; intros st; simpl; [reflexivity|].
  unfold bind. destruct (body x st) as [[[]|e] st1]; [|reflexivity].
  rewrite IH. reflexivity.
Qed.

Lemma for_each_map {A B} (f : A -> B) (l : list A) (body : B -> M W unit) st :
  for_each (map f l) body st = for_each l (fun x => body (f x)) st.
Proof.
  revert st. induction l as [|x l IH]; intros st; simpl; [reflexivity|].
  unfold bind. destruct (body (f x) st) as [[[]|e] st1]; [apply IH|reflexivity].
Qed.

(** A loop that fails has completed the iterations before some element
    and failed in the iteration of that element. *)
Lemma for_each_records {A} (l : list A) (body : A -> M W unit) :
  (forall x, records_one (body x)) ->
  forall st r st', for_each l body st = (r, st') ->
    exists hs evs,
      trace st' = (trace st ++ evs)%list /\
      subprocesses (self st') = (subprocesses (self st) ++ hs)%list /\
      processes hs = spawned evs /\
      match r with
      | Ok _ => length hs = length l
      | Raise e => exists x st_k,
          l !! length hs = Some x /\
          for_each (take (length hs) l) body st = (Ok tt, st_k) /\
          body x st_k = (Raise e, st')
      end.
Proof.
  intros Hbody. induction l as [|x l IH]; intros st r st' Hf; simpl in Hf.
  - injection Hf as <- <-. exists [], []. now rewrite !app_nil_r.
  - apply bind_inv in Hf as [([] & st1 & Hx & Hf)|(e & Hx & ->)].
    + pose proof (Hbody x _ _ _ Hx) as (evs1 & Ht1 & h & Hs1 & Hsp1).
      apply IH in Hf as (hs & evs & Ht & Hs & Hsp & Hr).
      exists (h :: hs), (evs1 ++ evs)%list.
      split; [now rewrite Ht, Ht1, <- app_assoc|].
      split; [now rewrite Hs, Hs1, <- app_assoc|].
      split; [change (h :: hs) with ([h] ++ hs)%list;
              now rewrite processes_app, spawned_app, Hsp, Hsp1|].
      destruct r as [[]|e]; simpl; [now rewrite Hr|].
      destruct Hr as (y & st_k & Hy & Hpre & Hfail).
      exists y, st_k. split; [exact Hy|]. split; [|exact Hfail].
      now rewrite (bind_Ok _ _ _ _ _ Hx).
    + pose proof (Hbody x _ _ _ Hx) as (evs1 & Ht1 & Hs1 & Hsp1).
      exists [], evs1. rewrite app_nil_r. repeat split; auto.
      exists x, st. auto.
Qed.

(** The nested loops of [start] visit [all_tasks] in order. *)
Lemma launch_loop_flat st :
  launch_loop environ st = for_each (all_tasks (cluster_spec (self st))) (launch environ) st.
Proof.
  unfold launch_loop, all_tasks, dict_items.
  rewrite (bind_Ok get_self _ st (self st) st eq_refl).
  generalize (cluster_spec (self st)) as spec. intros spec. revert st.
  induction spec as [|[job_name tasks] spec IH]; intros st; simpl; [reflexivity|].
  rewrite for_each_app. unfold bind. rewrite for_each_map. unfold launch at 1. simpl.
  destruct (for_each (enumerate tasks) _ st) as [[[]|e] st1]; [apply IH|reflexivity].
Qed.

(** ** The prelude of [start] *)

Lemma keeps_self_remote_exec args host : keeps_self (remote_exec environ args host).
Proof.
  intros st r st' Hr. apply remote_exec_inv in Hr as (? & evs & ? & _). eauto.
Qed.

Lemma keeps_self_clean kw : keeps_self (_clean_autodist_processes environ kw).
Proof.
  unfold _clean_autodist_processes.
  apply keeps_self_bind; [apply quiet_keeps_self, quiet_get_self|]. intros c.
  apply keeps_self_bind.
  - apply keeps_self_for_collect. intros host. unfold clean_host.
    apply keeps_self_bind; [apply quiet_keeps_self, quiet_get_self|]. intros c'.
    destruct (is_chief _ _ _).
    + apply keeps_self_bind; [apply keeps_self_popen|].
      intros p. apply quiet_keeps_self, quiet_ret.
    + apply keeps_self_remote_exec.
  - intros procs. apply keeps_self_for_each. intros [p|]; simpl.
    + apply quiet_keeps_self, quiet_do.
    + apply quiet_keeps_self, quiet_raise.
Qed.

Lemma keeps_self_start_prelude : keeps_self (start_prelude environ).
Proof.
  unfold start_prelude.
  apply keeps_self_bind; [apply quiet_keeps_self, quiet_do|]. intros _.
  apply keeps_self_bind; [apply quiet_keeps_self, quiet_get_self|]. intros c.
  destruct (is_chief _ _ _); [apply keeps_self_clean|apply quiet_keeps_self, quiet_ret].
Qed.

Lemma events_since_app st st' evs :
  trace st' = (trace st ++ evs)%list -> events_since st st' = evs.
Proof. unfold events_since. intros ->. now rewrite drop_app_length. Qed.

(** C4.  Whatever the world does, [start] records a handle for every
    process that its launch loop creates, right after creating it: when
    [start] returns or raises, the handles appended to [subprocesses] are
    those of the tasks whose launch was completed, in order, and the
    processes among them are exactly the processes created since the
    launch loop began.  If the loop fails at task k, exactly k handles
    were appended (the tasks before k were launched, task k failed and
    has no handle); if [start] fails before the loop, none was. *)
Theorem start_records_launched_handles st r st' :
  start environ st = (r, st') ->
  let tasks := all_tasks (cluster_spec (self st)) in
  exists r1 st1 hs,
    start_prelude environ st = (r1, st1) /\
    self st1 = self st /\
    subprocesses (self st') = (subprocesses (self st) ++ hs)%list /\
    processes hs = spawned (events_since st1 st') /\
    match r with
    | Ok _ => r1 = Ok tt /\ length hs = length tasks
    | Raise e =>
        (r1 = Raise e /\ st' = st1 /\ hs = []) \/
        (r1 = Ok tt /\ exists task st_k,
           let k := length hs in
           tasks !! k = Some task /\
           for_each (take k tasks) (launch environ) st1 = (Ok tt, st_k) /\
           launch environ task st_k = (Raise e, st'))
    end.
Proof.
  intros Hstart tasks. unfold start in Hstart.
  apply bind_inv in Hstart as [([] & st1 & Hpre & Hloop)|(e & Hpre & ->)].
  - pose proof (keeps_self_start_prelude _ _ _ Hpre) as [Hself _].
    rewrite launch_loop_flat, Hself in Hloop. fold tasks in Hloop.
    apply for_each_records in Hloop as (hs & evs & Ht & Hs & Hsp & Hr);
      [|intros x; apply launch_task_records_one].
    exists (Ok tt), st1, hs. rewrite (events_since_app _ _ _ Ht), <- Hself.
    repeat split; auto.
    destruct r as [[]|e]; [auto|]. right. split; [reflexivity|].
    destruct Hr as (task & st_k & ? & ? & ?). exists task, st_k. auto.
  - pose proof (keeps_self_start_prelude _ _ _ Hpre) as [Hself _].
    exists (Raise e), st', []. rewrite app_nil_r, Hself.
    unfold events_since. rewrite drop_all. repeat split; auto.
Qed.

(** ** The stale-process sweep *)

Lemma clean_host_inv kw host st r st' :
  clean_host environ kw host st = (r, st') ->
  self st' = self st /\
  exists evs, trace st' = (trace st ++ evs)%list /\
    Forall (is_sweep_event environ (self st) kw) evs /\
    match r with
    | Ok h => kill_commands_issued environ (self st) kw [host] [h] evs
    | Raise _ => True
    end.
Proof.
  unfold clean_host. intros Hc.
  apply bind_inv in Hc as [(c & st1 & [= <- <-] & Hc)|(e & [= _ _] & _)].
  destruct (is_chief environ (self st) (Some host)) eqn:Hchief.
  - assert (sweep_command environ (self st) kw host = Some (local_kill_cmd kw, false, true)) as Hcmd
      by (unfold sweep_command; now rewrite Hchief).
    apply bind_inv in Hc as [(p & st1 & Hp & [= <- <-])|(e & Hp & ->)];
      apply popen_inv in Hp as [Hs Ht]; (split; [exact Hs|]);
      (eexists; split; [exact Ht|]); (split; [|try exact I]).
    + constructor; [|constructor]. left. eauto 10.
    + econstructor; [exact Hcmd|constructor].
    + constructor; [|constructor]. left. eauto 10.
  - unfold remote_exec in Hc.
    apply bind_inv in Hc as [(c & st1 & [= <- <-] & Hc)|(e & [= _ _] & _)].
    apply bind_inv in Hc as [(cfg & st1 & [= Hcfg <-] & Hc)|(e & [= He <-] & ->)].
    + assert (sweep_command environ (self st) kw host =
              Some (remote_cmd cfg (split_on " "%char (kill_cmd kw)) host, true, true))
        as Hcmd by (unfold sweep_command; now rewrite Hchief, Hcfg).
      destruct (AUTODIST_DEBUG_REMOTE environ) eqn:Hdry; simpl in Hc.
      * injection Hc as <- <-. split; [reflexivity|].
        exists []. rewrite app_nil_r. repeat split; auto.
        apply kci_dry_run; auto. constructor.
      * apply bind_inv in Hc as [(p & st1 & Hp & [= <- <-])|(e & Hp & ->)];
          apply popen_inv in Hp as [Hs Ht]; (split; [exact Hs|]);
          (eexists; split; [exact Ht|]); (split; [|try exact I]).
        -- constructor; [|constructor]. left. eauto 10.
        -- econstructor; [exact Hcmd|constructor].
        -- constructor; [|constructor]. left. eauto 10.
    + split; [reflexivity|]. exists []. rewrite app_nil_r. auto.
Qed.

Lemma kill_commands_issued_cons c kw host hosts h hs evs1 evs :
  kill_commands_issued environ c kw [host] [h] evs1 ->
  kill_commands_issued environ c kw hosts hs evs ->
  kill_commands_issued environ c kw (host :: hosts) (h :: hs) (evs1 ++ evs).
Proof.
  intros H1 H2. inversion H1 as [|? ? ? ? ? ? ? ? Hcmd Hnil|? ? ? ? Hd Hch Hnil]; subst;
    inversion Hnil; subst; simpl.
  - now apply kci_spawn.
  - now apply kci_dry_run.
Qed.

Lemma collect_clean_hosts_inv kw hosts : forall st r st',
  for_collect hosts (clean_host environ kw) st = (r, st') ->
  self st' = self st /\
  exists evs, trace st' = (trace st ++ evs)%list /\
    Forall (is_sweep_event environ (self st) kw) evs /\
    match r with
    | Ok procs => kill_commands_issued environ (self st) kw hosts procs evs
    | Raise _ => True
    end.
Proof.
  induction hosts as [|host hosts IH]; intros st r st' Hc; simpl in Hc.
  - injection Hc as <- <-. split; [reflexivity|]. exists [].
    rewrite app_nil_r. repeat split; auto. constructor.
  - apply bind_inv in Hc as [(h & st1 & Hh & Hc)|(e & Hh & ->)];
      apply clean_host_inv in Hh as (Hs1 & evs1 & Ht1 & Hsw1 & Hk1).
    + apply bind_inv in Hc as [(hs & st2 & Hrest & [= <- <-])|(e & Hrest & ->)];
        apply IH in Hrest as (Hs2 & evs2 & Ht2 & Hsw2 & Hk2);
        rewrite Hs1 in *; (split; [exact Hs2|]);
        (exists (evs1 ++ evs2)%list; split; [now rewrite Ht2, Ht1, <- app_assoc|]);
        (split; [now apply Forall_app|]); [|exact I].
      now apply kill_commands_issued_cons.
    + split; [exact Hs1|]. exists evs1. auto.
Qed.

Lemma wait_procs_inv procs : forall st r st',
  for_each procs wait_proc st = (r, st') ->
  self st' = self st /\
  exists evs, trace st' = (trace st ++ evs)%list /\
    Forall (fun ev => exists p r, ev = EvDo (Wait p) r) evs /\
    match r with
    | Ok _ => exists ps, procs = map Some ps /\ evs = map waited ps
    | Raise _ => True
    end.
Proof.
  induction procs as [|h procs IH]; intros st r st' Hw; simpl in Hw.
  - injection Hw as <- <-. split; [reflexivity|]. exists [].
    rewrite app_nil_r. repeat split; auto. now exists [].
  - apply bind_inv in Hw as [([] & st1 & Hh & Hw)|(e & Hh & ->)].
    + destruct h as [p|]; simpl in Hh; [|discriminate].
      apply do_inv in Hh as [Hs1 Ht1].
      apply IH in Hw as (Hs2 & evs2 & Ht2 & Hall & Hr).
      split; [congruence|]. exists (EvDo (Wait p) (Ok tt) :: evs2).
      split; [rewrite Ht2, Ht1, <- app_assoc; reflexivity|].
      split; [constructor; eauto|].
      destruct r as [[]|e]; [|exact I].
      destruct Hr as (ps & -> & ->). now exists (p :: ps).
    + destruct h as [p|]; simpl in Hh.
      * apply do_inv in Hh as [Hs1 Ht1]. split; [exact Hs1|].
        eexists. split; [exact Ht1|]. split; [|exact I]. constructor; eauto.
      * injection Hh as <- <-. split; [reflexivity|]. exists [].
        rewrite app_nil_r. auto.
Qed.

(** The sweep: when it returns, the kill command of every known host has
    been spawned, in order, and then every one of these processes has
    been waited for; when it raises, it has done nothing but spawn kill
    commands and wait for them. *)
Lemma clean_autodist_processes_inv kw st r st' :
  _clean_autodist_processes environ kw st = (r, st') ->
  self st' = self st /\
  exists evs, trace st' = (trace st ++ evs)%list /\
    Forall (is_sweep_event environ (self st) kw) evs /\
    match r with
    | Ok _ => exists procs issue_evs,
        kill_commands_issued environ (self st) kw (dict_keys (_address_to_port (self st)))
                             (map Some procs) issue_evs /\
        evs = (issue_evs ++ map waited procs)%list
    | Raise _ => True
    end.
Proof.
  unfold _clean_autodist_processes. intros Hc.
  apply bind_inv in Hc as [(c & st1 & [= <- <-] & Hc)|(e & [= _ _] & _)].
  apply bind_inv in Hc as [(hs & st1 & Hcol & Hw)|(e & Hcol & ->)];
    apply collect_clean_hosts_inv in Hcol as (Hs1 & evs1 & Ht1 & Hsw1 & Hk).
  - apply wait_procs_inv in Hw as (Hs2 & evs2 & Ht2 & Hall & Hr).
    split; [congruence|]. exists (evs1 ++ evs2)%list.
    split; [now rewrite Ht2, Ht1, <- app_assoc|]. split.
    + apply Forall_app. split; [exact Hsw1|].
      eapply Forall_impl; [exact Hall|]. intros ev Hev. now right.
    + destruct r as [[]|e]; [|exact I].
      destruct Hr as (ps & -> & ->). now exists ps, evs1.
  - split; [exact Hs1|]. exists evs1. auto.
Qed.

(** C5.  The events of a run of [start] begin with the registration of
    the exit hook.  If that fails nothing else happens.  Otherwise, on
    the chief, the sweep follows: if it fails, [start] fails with it and
    all that has happened are kill-command spawns and waits; if it
    returns, a kill command has been spawned for every known host and
    every one of them has been waited for.  Only then does the launch
    loop run: its events all come after the registration, the spawns and
    the waits. *)
Theorem start_order st r st' :
  start environ st = (r, st') ->
  let c := self st in
  let kw := server_starter_name environ in
  exists reg rest,
    trace st' = (trace st ++ EvDo AtexitRegister reg :: rest)%list /\
    ((exists e, reg = Raise e /\ r = Raise e /\ rest = []) \/
     (reg = Ok tt /\ is_chief environ c None = true /\
      exists e, r = Raise e /\ start_prelude environ st = (Raise e, st') /\
                Forall (is_sweep_event environ c kw) rest) \/
     (reg = Ok tt /\
      exists sweep_evs launch_evs st1,
        rest = (sweep_evs ++ launch_evs)%list /\
        (if is_chief environ c None
         then exists procs issue_evs,
             kill_commands_issued environ c kw (dict_keys (_address_to_port c))
                                  (map Some procs) issue_evs /\
             sweep_evs = (issue_evs ++ map waited procs)%list
         else sweep_evs = []) /\
        start_prelude environ st = (Ok tt, st1) /\
        trace st1 = (trace st ++ EvDo AtexitRegister (Ok tt) :: sweep_evs)%list /\
        launch_loop environ st1 = (r, st') /\
        events_since st1 st' = launch_evs)).
Proof.
  intros Hstart c kw. unfold start in Hstart.
  apply bind_inv in Hstart as [([] & st1 & Hpre & Hloop)|(e & Hpre & ->)].
  - (* the prelude returned *)
    assert (exists launch_evs, trace st' = (trace st1 ++ launch_evs)%list)
      as [launch_evs Hl].
    { pose proof Hloop as Hl. rewrite launch_loop_flat in Hl.
      apply for_each_records in Hl as (hs & evs & Ht & _);
        [eauto|intros x; apply launch_task_records_one]. }
    pose proof Hpre as Hp. unfold start_prelude in Hp.
    apply bind_inv in Hp as [([] & st0 & Hreg & Hp)|(e & _ & [=])].
    apply do_inv in Hreg as [Hs0 Ht0].
    apply bind_inv in Hp as [(c0 & ? & [= <- <-] & Hp)|(e & [= _ _] & _)].
    rewrite Hs0 in Hp. fold c in Hp.
    destruct (is_chief environ c None) eqn:Hchief.
    + apply clean_autodist_processes_inv in Hp
        as (Hs1 & evs & Ht1 & Hsw & procs & issue_evs & Hk & ->).
      rewrite Hs0 in Hk. fold c in Hk.
      exists (Ok tt), ((issue_evs ++ map waited procs) ++ launch_evs)%list.
      assert (trace st1 = trace st ++
                EvDo AtexitRegister (Ok tt) :: issue_evs ++ map waited procs)%list
        as Ht by (now rewrite Ht1, Ht0, <- app_assoc).
      split; [rewrite Hl, Ht, <- app_assoc; reflexivity|].
      right. right. split; [reflexivity|].
      exists (issue_evs ++ map waited procs)%list, launch_evs, st1.
      repeat split; auto; [eauto|]. now apply events_since_app.
    + injection Hp as <-.
      exists (Ok tt), launch_evs.
      split; [rewrite Hl, Ht0, <- app_assoc; reflexivity|].
      right. right. split; [reflexivity|].
      exists [], launch_evs, st0.
      repeat split; auto. now apply events_since_app.
  - (* the prelude raised *)
    pose proof Hpre as Hp. unfold start_prelude in Hp.
    apply bind_inv in Hp as [([] & st0 & Hreg & Hp)|(e' & Hreg & [= <-])];
      apply do_inv in Hreg as [Hs0 Ht0].
    + apply bind_inv in Hp as [(c0 & ? & [= <- <-] & Hp)|(e' & [= _ _] & _)].
      rewrite Hs0 in Hp. fold c in Hp.
      destruct (is_chief environ c None) eqn:Hchief; [|discriminate].
      apply clean_autodist_processes_inv in Hp as (Hs1 & evs & Ht1 & Hsw & _).
      rewrite Hs0 in Hsw. fold c in Hsw.
      exists (Ok tt), evs.
      split; [rewrite Ht1, Ht0, <- app_assoc; reflexivity|].
      right. left. repeat split; auto. exists e. auto.
    + exists (Raise e), []. split; [exact Ht0|]. left. eauto.
Qed.

(** ** [terminate] *)

Lemma terminate_one_inv h st r st' :
  terminate_one h st = (r, st') ->
  self st' = self st /\
  exists evs, trace st' = (trace st ++ evs)%list /\
    match r with
    | Ok _ => signalled_all [h] evs
    | Raise e => failed_at h e evs
    end.
Proof.
  destruct h as [p|]; simpl; intros Ht.
  - apply bind_inv in Ht as [(g & st1 & Hg & Hk)|(e & Hg & ->)];
      apply getpgid_inv in Hg as [Hs1 Ht1].
    + apply do_inv in Hk as [Hs2 Ht2]. split; [congruence|].
      eexists. split; [rewrite Ht2, Ht1, <- app_assoc; reflexivity|].
      destruct r as [[]|e]; simpl; [repeat constructor|eauto].
    + split; [exact Hs1|]. eexists. split; [exact Ht1|]. simpl. auto.
  - injection Ht as <- <-. split; [reflexivity|]. exists [].
    rewrite app_nil_r. simpl. auto.
Qed.

Lemma signalled_all_cons h hs evs1 evs :
  signalled_all [h] evs1 -> signalled_all hs evs -> signalled_all (h :: hs) (evs1 ++ evs).
Proof.
  intros H1 H2. inversion H1 as [|? ? ? ? Hnil]; subst. inversion Hnil; subst.
  simpl. now constructor.
Qed.

Lemma terminate_loop_inv hs : forall st r st',
  for_each hs terminate_one st = (r, st') ->
  self st' = self st /\
  exists evs, trace st' = (trace st ++ evs)%list /\
    match r with
    | Ok _ => signalled_all hs evs
    | Raise e => exists k h done tail,
        hs !! k = Some h /\ signalled_all (take k hs) done /\
        failed_at h e tail /\ evs = (done ++ tail)%list
    end.
Proof.
  induction hs as [|h hs IH]; intros st r st' Ht; simpl in Ht.
  - injection Ht as <- <-. split; [reflexivity|]. exists [].
    rewrite app_nil_r. split; [reflexivity|constructor].
  - apply bind_inv in Ht as [([] & st1 & Hh & Ht)|(e & Hh & ->)];
      apply terminate_one_inv in Hh as (Hs1 & evs1 & Ht1 & Hr1).
    + apply IH in Ht as (Hs2 & evs2 & Ht2 & Hr2). split; [congruence|].
      exists (evs1 ++ evs2)%list. split; [now rewrite Ht2, Ht1, <- app_assoc|].
      destruct r as [[]|e].
      * now apply signalled_all_cons.
      * destruct Hr2 as (k & h' & done & tail & Hk & Hdone & Hfail & ->).
        exists (S k), h', (evs1 ++ done)%list, tail. simpl.
        repeat split; auto; [now apply signalled_all_cons|now rewrite app_assoc].
    + split; [exact Hs1|]. exists evs1. split; [exact Ht1|].
      exists 0, h, [], evs1. simpl. repeat split; auto. constructor.
Qed.

(** A failure in the iteration of one element is the failure of the
    whole loop: the elements after it are not visited. *)
Lemma for_each_fails_at {A} (l : list A) (body : A -> M W unit) k x : forall st st_k e st',
  l !! k = Some x ->
  for_each (take k l) body st = (Ok tt, st_k) ->
  body x st_k = (Raise e, st') ->
  for_each l body st = (Raise e, st').
Proof.
  intros st st_k e st' Hk Hpre Hx.
  rewrite <- (take_drop_middle l k x Hk), for_each_app.
  rewrite (bind_Ok _ _ _ _ _ Hpre). simpl. now rewrite (bind_Raise _ _ _ _ _ Hx).
Qed.

(** C2, as the code has it.  [terminate] leaves the handle list as it is
    and signals the handles in order, up to the first failure.  If it
    returns, every handle was a process whose group was looked up and
    sent SIGTERM.  If it raises, that is the failure of some handle k
    (a [None] handle, a failed group lookup such as that of a process
    that no longer exists, or a failed signal): the handles before k were
    signalled, and nothing was attempted for the handles after k.
    Conversely the failure of any handle, reached after the handles
    before it were signalled, makes [terminate] raise at once. *)
Theorem terminate_stops_at_first_failure st :
  (forall r st',
     terminate st = (r, st') ->
     self st' = self st /\
     exists evs, trace st' = (trace st ++ evs)%list /\
       match r with
       | Ok _ => signalled_all (subprocesses (self st)) evs
       | Raise e => exists k h done tail,
           subprocesses (self st) !! k = Some h /\
           signalled_all (take k (subprocesses (self st))) done /\
           failed_at h e tail /\ evs = (done ++ tail)%list
       end) /\
  (forall k h st_k e st',
     subprocesses (self st) !! k = Some h ->
     for_each (take k (subprocesses (self st))) terminate_one st = (Ok tt, st_k) ->
     terminate_one h st_k = (Raise e, st') ->
     terminate st = (Raise e, st')).
Proof.
  split.
  - intros r st' Ht. unfold terminate in Ht.
    apply bind_inv in Ht as [(c & ? & [= <- <-] & Ht)|(e & [= _ _] & _)].
    now apply terminate_loop_inv.
  - intros k h st_k e st' Hk Hpre Hh. unfold terminate.
    rewrite (bind_Ok get_self _ st (self st) st eq_refl).
    eapply for_each_fails_at; eauto.
Qed.

(** A [None] among the handles makes [terminate] raise, whatever the
    world does. *)
Lemma terminate_raises_on_None st :
  None ∈ subprocesses (self st) -> exists e st', terminate st = (Raise e, st').
Proof.
  unfold terminate. rewrite (bind_Ok get_self _ st (self st) st eq_refl).
  generalize (subprocesses (self st)) as hs. intros hs. revert st.
  induction hs as [|h hs IH]; intros st Hin; [now apply elem_of_nil in Hin|].
  simpl. apply elem_of_cons in Hin as [<-|Hin].
  - do 2 eexists. reflexivity.
  - unfold bind. destruct (terminate_one h st) as [[[]|e] st1]; [apply IH, Hin|eauto].
Qed.

(** ** Dry-run mode *)

Lemma launch_remote_dry_run job idx full_address st st1 :
  AUTODIST_DEBUG_REMOTE environ = true ->
  launch_task environ job (idx, full_address) st = (Ok tt, st1) ->
  target_is_remote environ st full_address ->
  subprocesses (self st1) = (subprocesses (self st) ++ [None])%list.
Proof.
  intros Hdry Hl [Hloc Hchief]. unfold launch_task in Hl.
  unfold is_local_address in Hl at 1.
  unfold bind at 1 in Hl. rewrite Hloc in Hl.
  rewrite (bind_Ok get_self _ st (self st) st eq_refl) in Hl.
  rewrite Hchief in Hl. simpl in Hl.
  apply bind_inv in Hl as [([] & st2 & Hpre & Hl)|(e & _ & [=])].
  apply quiet_remote_pre_start_tf_server in Hpre as (Hs2 & _).
  unfold bind in Hl. rewrite remote_exec_dry_run in Hl by exact Hdry.
  destruct (ssh_config_of (self st2) _); simpl in Hl; [|discriminate].
  apply append_subprocess_inv in Hl as (_ & _ & Hs3). now rewrite Hs3, Hs2.
Qed.

(** In dry-run mode the sweep keeps [None] for every host that is not
    the chief. *)
Lemma collect_clean_hosts_dry_run kw hosts : forall st procs st',
  AUTODIST_DEBUG_REMOTE environ = true ->
  for_collect hosts (clean_host environ kw) st = (Ok procs, st') ->
  Forall2 (fun host h => is_chief environ (self st) (Some host) = false -> h = None)
          hosts procs.
Proof.
  induction hosts as [|host hosts IH]; intros st procs st' Hdry Hc; simpl in Hc.
  - injection Hc as <- <-. constructor.
  - apply bind_inv in Hc as [(h & st1 & Hh & Hc)|(e & _ & [=])].
    apply bind_inv in Hc as [(hs & st2 & Hrest & [= <- <-])|(e & _ & [=])].
    pose proof (clean_host_inv _ _ _ _ _ Hh) as (Hs1 & _).
    apply IH in Hrest; [|exact Hdry]. rewrite Hs1 in Hrest.
    constructor; [|exact Hrest].
    intros Hchief. unfold clean_host in Hh.
    rewrite (bind_Ok get_self _ st (self st) st eq_refl), Hchief in Hh.
    rewrite remote_exec_dry_run in Hh by exact Hdry.
    destruct (ssh_config_of (self st) host); simpl in Hh; congruence.
Qed.

Lemma lookup_map_Some_None {A} (ps : list A) : forall i,
  map Some ps !! i = Some None -> False.
Proof.
  induction ps as [|p ps IH]; intros [|i]; simpl; try discriminate. apply IH.
Qed.

Lemma sweep_dry_run_raises kw st r st' host :
  AUTODIST_DEBUG_REMOTE environ = true ->
  host ∈ dict_keys (_address_to_port (self st)) ->
  is_chief environ (self st) (Some host) = false ->
  _clean_autodist_processes environ kw st = (r, st') ->
  exists e, r = Raise e.
Proof.
  intros Hdry Hin Hchief Hc. destruct r as [[]|e]; [|eauto]. exfalso.
  unfold _clean_autodist_processes in Hc.
  rewrite (bind_Ok get_self _ st (self st) st eq_refl) in Hc.
  apply bind_inv in Hc as [(procs & st1 & Hcol & Hw)|(e & _ & [=])].
  apply collect_clean_hosts_dry_run in Hcol; [|exact Hdry].
  apply wait_procs_inv in Hw as (_ & evs & _ & _ & ps & -> & _).
  apply list_elem_of_lookup in Hin as [i Hi].
  destruct (Forall2_lookup_l _ _ _ _ _ Hcol Hi) as (h & Hh & Hnone).
  rewrite (Hnone Hchief) in Hh. now apply lookup_map_Some_None in Hh.
Qed.

Lemma for_each_completed {A} (l : list A) (body : A -> M W unit) :
  (forall x, records_one (body x)) ->
  forall st st', for_each l body st = (Ok tt, st') ->
    exists hs, subprocesses (self st') = (subprocesses (self st) ++ hs)%list /\
               length hs = length l.
Proof.
  intros Hbody st st' Hf.
  apply for_each_records in Hf as (hs & _ & _ & Hs & _ & Hlen); eauto.
Qed.

Lemma for_each_extends {A} (l : list A) (body : A -> M W unit) :
  (forall x, records_one (body x)) ->
  forall st r st', for_each l body st = (r, st') ->
    exists hs, subprocesses (self st') = (subprocesses (self st) ++ hs)%list.
Proof.
  intros Hbody st r st' Hf.
  apply for_each_records in Hf as (hs & _ & _ & Hs & _); eauto.
Qed.

(** C10, as the code has it.  With the dry-run toggle set:
    - [remote_exec] returns [None] for a host that has a config, and
      runs nothing;
    - a launch of a remote target that completes appends that [None];
    - when the calling process is not the chief (so that there is no
      sweep), [start] leaves a [None] in the handle list at the position
      of every remote target whose launch completed;
    - [terminate] raises on every handle list that contains a [None];
    - when the calling process is the chief and some known host is not
      the chief, [start] itself raises in the sweep, which waits on the
      [None] that [remote_exec] returned: nothing is launched and the
      handle list is as before. *)
Theorem dry_run_start_and_terminate :
  AUTODIST_DEBUG_REMOTE environ = true ->
  (forall args host st cfg,
     ssh_config_of (self st) host = Ok cfg ->
     remote_exec environ args host st = (Ok None, st)) /\
  (forall job idx full_address st st1,
     launch_task environ job (idx, full_address) st = (Ok tt, st1) ->
     target_is_remote environ st full_address ->
     subprocesses (self st1) = (subprocesses (self st) ++ [None])%list) /\
  (forall st r st' st1 k task st_k st_k1,
     is_chief environ (self st) None = false ->
     start environ st = (r, st') ->
     start_prelude environ st = (Ok tt, st1) ->
     all_tasks (cluster_spec (self st)) !! k = Some task ->
     for_each (take k (all_tasks (cluster_spec (self st)))) (launch environ) st1 = (Ok tt, st_k) ->
     launch environ task st_k = (Ok tt, st_k1) ->
     target_is_remote environ st_k (snd (snd task)) ->
     subprocesses (self st') !! (length (subprocesses (self st)) + k) = Some None /\
     exists e st'', terminate st' = (Raise e, st'')) /\
  (forall st, None ∈ subprocesses (self st) -> exists e st', terminate st = (Raise e, st')) /\
  (forall st r st' host,
     is_chief environ (self st) None = true ->
     host ∈ dict_keys (_address_to_port (self st)) ->
     is_chief environ (self st) (Some host) = false ->
     start environ st = (r, st') ->
     exists e, r = Raise e /\ start_prelude environ st = (Raise e, st') /\
               self st' = self st).
Proof.
  intros Hdry. split; [|split; [|split; [|split]]].
  - intros args host st cfg Hcfg. rewrite remote_exec_dry_run by exact Hdry.
    now rewrite Hcfg.
  - intros job idx full_address st st1. now apply launch_remote_dry_run.
  - intros st r st' st1 k [job [idx full_address]] st_k st_k1
           Hchief Hstart Hpre Hk Htake Hlaunch Hremote.
    pose proof (keeps_self_start_prelude _ _ _ Hpre) as [Hself _].
    unfold start in Hstart. rewrite (bind_Ok _ _ _ _ _ Hpre) in Hstart.
    rewrite launch_loop_flat, Hself in Hstart.
    rewrite <- (take_drop_middle _ k _ Hk) in Hstart.
    rewrite for_each_app, (bind_Ok _ _ _ _ _ Htake) in Hstart. simpl in Hstart.
    rewrite (bind_Ok _ _ _ _ _ Hlaunch) in Hstart.
    apply for_each_completed in Htake as (hs_k & Hs_k & Hlen_k);
      [|intros x; apply launch_task_records_one].
    apply for_each_extends in Hstart as (hs_rest & Hs_rest);
      [|intros x; apply launch_task_records_one].
    unfold launch in Hlaunch. simpl in Hlaunch, Hremote.
    pose proof (launch_remote_dry_run _ _ _ _ _ Hdry Hlaunch Hremote) as Hs_k1.
    assert (subprocesses (self st') !! (length (subprocesses (self st)) + k) = Some None)
      as Hnone.
    { rewrite Hs_rest, Hs_k1, Hs_k, Hself.
      rewrite length_take in Hlen_k.
      apply lookup_lt_Some in Hk.
      rewrite lookup_app_l by (rewrite !length_app; simpl; lia).
      rewrite lookup_app_r by (rewrite length_app; lia).
      rewrite length_app.
      replace (length (subprocesses (self st)) + k
               - (length (subprocesses (self st)) + length hs_k)) with 0 by lia.
      reflexivity. }
    split; [exact Hnone|].
    apply terminate_raises_on_None. eapply list_elem_of_lookup_2, Hnone.
  - apply terminate_raises_on_None.
  - intros st r st' host Hchief Hin Hhost Hstart.
    unfold start in Hstart.
    apply bind_inv in Hstart as [([] & st1 & Hpre & _)|(e & Hpre & ->)].
    + exfalso. unfold start_prelude in Hpre.
      apply bind_inv in Hpre as [([] & st0 & Hreg & Hpre)|(e & _ & [=])].
      apply do_inv in Hreg as [Hs0 _].
      rewrite (bind_Ok get_self _ st0 (self st0) st0 eq_refl), Hs0, Hchief in Hpre.
      eapply sweep_dry_run_raises in Hpre as [e [=]]; rewrite ?Hs0; eauto.
    + exists e. repeat split; auto.
      now apply keeps_self_start_prelude in Hpre as [? _].
Qed.
End Lifecycle.
(* ===================================================================== *)
(** * Runs on the concrete world *)
(* ===================================================================== *)

Lemma run_eq {A} (m : M sim A) (st : state sim) : m st = (fst (m st), snd (m st)).
Proof. now destruct (m st). Defined.

Lemma start_records_launched_handles_witness :
  let out := start default_env chief_state_one_down in
  fst out = Raise (OtherError "NoValidConnectionsError") /\
  subprocesses (self (snd out)) = [Some {| pid := 103 |}; Some {| pid := 104 |}] /\
  exists hs,
    subprocesses (self (snd out)) = (subprocesses (self chief_state_one_down) ++ hs)%list /\
    processes hs =
      spawned (events_since (snd (start_prelude default_env chief_state_one_down)) (snd out)).
Proof.
  intros out. split; [vm_compute; reflexivity|]. split; [vm_compute; reflexivity|].
  destruct (start_records_launched_handles default_env chief_state_one_down
              (fst out) (snd out) (run_eq _ _))
    as (r1 & st1 & hs & Hpre & _ & Hs & Hsp & _).
  exists hs. rewrite Hpre. split; [exact Hs|exact Hsp].
Defined.

Lemma start_order_witness :
  let out := start default_env chief_state in
  fst out = Ok tt /\
  exists reg rest, trace (snd out) = EvDo AtexitRegister reg :: rest.
Proof.
  intros out. split; [vm_compute; reflexivity|].
  destruct (start_order default_env chief_state (fst out) (snd out) (run_eq _ _))
    as (reg & rest & Ht & _).
  exists reg, rest. exact Ht.
Defined.

Lemma terminate_stops_at_first_failure_witness :
  fst (terminate started_state) = Ok tt /\
  exists evs,
    trace (snd (terminate started_state)) = (trace started_state ++ evs)%list /\
    signalled_all (subprocesses (self started_state)) evs.
Proof.
  split; [vm_compute; reflexivity|].
  assert (terminate started_state = (Ok tt, snd (terminate started_state))) as Hrun
    by (vm_compute; reflexivity).
  destruct (proj1 (terminate_stops_at_first_failure started_state) _ _ Hrun)
    as (_ & evs & Ht & Hsig).
  exists evs. auto.
Defined.

(** C2, as stated, fails: when the process of the first handle no longer
    exists, [terminate] raises [ProcessLookupError] from the lookup of its
    process group, and the two handles after it are never signalled. *)
Lemma terminate_raises_on_exited_process :
  subprocesses (self first_server_gone)
    = [Some {| pid := 103 |}; Some {| pid := 104 |}; Some {| pid := 105 |}] /\
  table (world first_server_gone) = [(104, 104); (105, 105)]%Z /\
  terminate first_server_gone =
    (Raise ProcessLookupError,
     {| self := self first_server_gone;
        world := world first_server_gone;
        trace := [EvGetpgid 103 (Raise ProcessLookupError)] |}).
Proof. repeat split; vm_compute; reflexivity. Qed.

Lemma dry_run_start_and_terminate_witness :
  let out := start dry_run_worker_env chief_state in
  subprocesses (self (snd out)) = [Some {| pid := 100 |}; None; None] /\
  subprocesses (self (snd out)) !! 1 = Some None /\
  exists e st'', terminate (snd out) = (Raise e, st'').
Proof.
  intros out. split; [vm_compute; reflexivity|].
  destruct (dry_run_start_and_terminate dry_run_worker_env eq_refl)
    as (_ & _ & Hstart & _ & _).
  pose (st1 := snd (start_prelude dry_run_worker_env chief_state)).
  pose (tasks := all_tasks (cluster_spec (self chief_state))).
  pose (st_k := snd (for_each (take 1 tasks) (launch dry_run_worker_env) st1)).
  pose (st_k1 := snd (launch dry_run_worker_env ("worker", (1, "10.0.0.2:15001")) st_k)).
  refine (Hstart chief_state (fst out) (snd out) st1 1
                 ("worker", (1, "10.0.0.2:15001")) st_k st_k1 _ _ _ _ _ _ _).
  - vm_compute; reflexivity.
  - apply run_eq.
  - vm_compute; reflexivity.
  - vm_compute; reflexivity.
  - vm_compute; reflexivity.
  - vm_compute; reflexivity.
  - split; vm_compute; reflexivity.
Defined.

(** C10, as stated, fails on the chief: in dry-run mode, with a remote
    node in the cluster, [start] raises [AttributeError] in the sweep
    (waiting on the [None] that [remote_exec] returned), no handle is
    recorded, and a subsequent [terminate] returns normally. *)
Lemma dry_run_start_on_chief_fails_in_sweep :
  let environ := with_debug_remote true default_env in
  let out := start environ chief_state in
  is_chief environ (self chief_state) None = true /\
  fst out = Raise AttributeError /\
  subprocesses (self (snd out)) = [] /\
  fst (terminate (snd out)) = Ok tt.
Proof. repeat split; vm_compute; reflexivity. Qed.

(* ===================================================================== *)
(** * Further properties: construction and the task maps *)
(* ===================================================================== *)

Section SplitFacts.

Lemma string_of_uint_colon_free u : colon_free (NilEmpty.string_of_uint u).
Proof. unfold colon_free. induction u; simpl; auto. Qed.

Lemma str_of_Z_colon_free p : colon_free (str_of_Z p).
Proof.
  unfold str_of_Z, NilZero.string_of_int, NilZero.string_of_uint.
  destruct (Z.to_int p) as [u|u]; destruct u; try reflexivity;
    apply (string_of_uint_colon_free (_ _)) || idtac.
  all: unfold colon_free; simpl; try apply string_of_uint_colon_free.
Qed.

Lemma split_on_none c s : count_char c s = 0 -> split_on c s = [s].
Proof.
  induction s as [|d s IH]; simpl; [reflexivity|].
  destruct (Ascii.eqb d c); [discriminate|]. intros Hc. now rewrite IH.
Qed.

Lemma split_on_app_sep c a b :
  count_char c a = 0 -> split_on c (a ++ String c b) = a :: split_on c b.
Proof.
  induction a as [|d a IH]; simpl.
  - intros _. rewrite ?append_nil. simpl. now rewrite Ascii.eqb_refl.
  - destruct (Ascii.eqb d c) eqn:E; [discriminate|]. intros Hc.
    rewrite IH by exact Hc. reflexivity.
Qed.

Lemma split_full_address n p :
  colon_free n -> split_on colon (full_address n p) = [n; str_of_Z p].
Proof.
  intros Hn. unfold full_address.
  change (":" ++ str_of_Z p) with (String colon (str_of_Z p)).
  rewrite split_on_app_sep by exact Hn.
  now rewrite split_on_none by apply str_of_Z_colon_free.
Qed.

Lemma full_address_one_colon n p :
  count_char colon (full_address n p) = 1 -> colon_free n.
Proof. rewrite full_address_colons. unfold colon_free. lia. Qed.
End SplitFacts.

Section DictMore.
Context {K V : Type} `{EqDecision K}.
Implicit Types (d l : dict K V) (k : K) (v : V).

Lemma dict_set_fresh k v d : k ∉ dict_keys d -> dict_set k v d = (d ++ [(k, v)])%list.
Proof.
  induction d as [|[k' v'] d IH]; simpl; [reflexivity|].
  rewrite not_elem_of_cons. intros [Hne Hd].
  rewrite decide_False by exact Hne. now rewrite IH.
Qed.

Lemma fold_dict_set_NoDup l : forall d,
  NoDup (dict_keys (d ++ l)%list) ->
  fold_left (fun acc kv => dict_set (fst kv) (snd kv) acc) l d = (d ++ l)%list.
Proof.
  induction l as [|[k v] l IH]; intros d Hnd; simpl.
  - now rewrite app_nil_r.
  - assert (d ++ (k, v) :: l = (d ++ [(k, v)]) ++ l)%list as Heq
      by (now rewrite <- app_assoc).
    rewrite Heq in *. rewrite dict_set_fresh.
    + now apply IH.
    + unfold dict_keys in Hnd. rewrite !map_app in Hnd. simpl in Hnd.
      apply NoDup_app in Hnd as (Hnd & _ & _).
      apply NoDup_app in Hnd as (_ & Hdis & _).
      intros Hin. apply (Hdis k Hin). apply elem_of_cons. now left.
Qed.

(** Building a dictionary from pairs with distinct keys keeps the pairs as
    they are. *)
Lemma dict_of_pairs_NoDup l : NoDup (dict_keys l) -> dict_of_pairs l = l.
Proof. intros Hnd. unfold dict_of_pairs. now rewrite fold_dict_set_NoDup. Qed.

Lemma dict_get_lookup (l : list (K * V)) : forall i k v,
  NoDup (dict_keys l) -> l !! i = Some (k, v) -> dict_get k l = Some v.
Proof.
  induction l as [|[k' v'] l IH]; intros i k v Hnd Hi; [discriminate|].
  simpl in Hnd. apply NoDup_cons in Hnd as [Hk' Hnd]. simpl.
  destruct i as [|i]; simpl in Hi.
  - injection Hi as -> ->. now rewrite decide_True.
  - rewrite decide_False; [eauto|].
    intros ->. apply Hk'. apply list_elem_of_lookup. exists i.
    unfold dict_keys. rewrite list_lookup_fmap. now rewrite Hi.
Qed.
End DictMore.

Section ConstructionMore.

Lemma address_port_dict_fold ns : forall ports acc,
  Forall colon_free ns -> length ns <= length ports ->
  address_port_dict (zip_with full_address ns ports) acc =
    Ok (fold_left (fun d kv => dict_set (fst kv) (snd kv) d)
                  (zip ns (map str_of_Z ports)) acc).
Proof.
  induction ns as [|n ns IH]; intros ports acc Hcf Hlen; [reflexivity|].
  destruct ports as [|p ports]; simpl in Hlen; [lia|].
  apply Forall_cons in Hcf as [Hn Hcf]. simpl.
  rewrite split_full_address by exact Hn. apply IH; [exact Hcf|lia].
Qed.

Lemma sorted_Forall (P : string -> Prop) l : Forall P l -> Forall P (sorted l).
Proof. intros Hl. now rewrite sorted_perm. Qed.

Lemma sorted_length l : length (sorted l) = length l.
Proof. now rewrite sorted_perm. Qed.

Lemma SSHCluster_init_few_ports (rs : ResourceSpec) (it : int_iter) :
  length it < length (nodes rs) ->
  SSHCluster_init rs it = (Raise StopIteration, []).
Proof.
  intros Hlt. unfold SSHCluster_init, _get_default_cluster_spec.
  rewrite format_workers_exhausted by (rewrite sorted_length; exact Hlt).
  reflexivity.
Qed.

Lemma SSHCluster_init_colon (rs : ResourceSpec) (it : int_iter) :
  length (nodes rs) <= length it ->
  Exists (fun a => ~ colon_free a) (nodes rs) ->
  SSHCluster_init rs it = (Raise ValueError, drop (length (nodes rs)) it).
Proof.
  intros Hle Hex. unfold SSHCluster_init.
  rewrite get_default_cluster_spec_enough by exact Hle. simpl.
  rewrite app_nil_r, address_port_dict_Raise; [reflexivity|].
  apply Exists_exists in Hex as (a & Ha & Hcolon).
  destruct (zip_with_full_address_elem a (sorted (nodes rs))
              (take (length (nodes rs)) it)) as [p Hp].
  + now rewrite sorted_perm.
  + rewrite length_take, sorted_length. lia.
  + apply Exists_exists. exists (full_address a p). split; [exact Hp|].
    rewrite full_address_colons. unfold colon_free in Hcolon. lia.
Qed.

(** X1.  The outcome of the constructor is decided by the number of ports
    left and by the colons in the node identities.  With fewer ports left
    than nodes it raises [StopIteration] and the port iterator is left
    exhausted.  With enough ports, a node identity that contains a colon
    makes it raise [ValueError], the ports of the build being consumed all
    the same.  Otherwise it succeeds: the topology has the single job
    "worker" whose tasks are the sorted identities paired with the next
    ports, the flattened address list is that task list, no process is
    recorded, and the chief and the SSH registry are those of the resource
    specification. *)
Theorem SSHCluster_init_outcome (rs : ResourceSpec) (it : int_iter) :
  let n := length (nodes rs) in
  let workers := zip_with full_address (sorted (nodes rs)) (take n it) in
  (length it < n -> SSHCluster_init rs it = (Raise StopIteration, [])) /\
  (n <= length it -> Exists (fun a => ~ colon_free a) (nodes rs) ->
   SSHCluster_init rs it = (Raise ValueError, drop n it)) /\
  (n <= length it -> Forall colon_free (nodes rs) ->
   exists c,
     SSHCluster_init rs it = (Ok c, drop n it) /\
     cluster_spec c = [("worker", workers)] /\
     _full_addresses c = workers /\
     _chief c = chief rs /\
     subprocesses c = [] /\
     _ssh_conf c = ssh_config_map rs).
Proof.
  intros n workers. split; [|split].
  - apply SSHCluster_init_few_ports.
  - apply SSHCluster_init_colon.
  - intros Hle Hcf. unfold SSHCluster_init.
    rewrite get_default_cluster_spec_enough by exact Hle. simpl.
    rewrite app_nil_r. fold n. fold workers. unfold workers.
    rewrite address_port_dict_fold;
      [|now apply sorted_Forall|rewrite length_take, sorted_length; fold n; lia].
    simpl. eexists. split; [reflexivity|]. simpl. rewrite ?app_nil_r. auto.
Qed.

Lemma SSHCluster_init_Ok_inv rs it c it' :
  SSHCluster_init rs it = (Ok c, it') ->
  length (nodes rs) <= length it /\ Forall colon_free (nodes rs) /\
  it' = drop (length (nodes rs)) it /\
  cluster_spec c =
    [("worker", zip_with full_address (sorted (nodes rs)) (take (length (nodes rs)) it))] /\
  _address_to_port c =
    dict_of_pairs (zip (sorted (nodes rs)) (map str_of_Z (take (length (nodes rs)) it))) /\
  _task_to_address c = dict_of_pairs (task_address_pairs (cluster_spec c)) /\
  _full_addresses c =
    zip_with full_address (sorted (nodes rs)) (take (length (nodes rs)) it) /\
  _chief c = chief rs.
Proof.
  intros Hinit.
  destruct (decide (length (nodes rs) <= length it)) as [Hle|Hgt].
  2:{ rewrite SSHCluster_init_few_ports in Hinit by lia. discriminate. }
  assert (forall a, Decision (colon_free a)) as Hdec
    by (intros a; unfold colon_free; apply _).
  destruct (decide (Forall colon_free (nodes rs))) as [Hcf|Hex].
  2:{ apply not_Forall_Exists in Hex; [|exact Hdec].
      rewrite (SSHCluster_init_colon rs it Hle Hex) in Hinit.
      discriminate. }
  split; [exact Hle|]. split; [exact Hcf|].
  unfold SSHCluster_init in Hinit.
  rewrite get_default_cluster_spec_enough in Hinit by exact Hle. simpl in Hinit.
  rewrite app_nil_r in Hinit.
  rewrite address_port_dict_fold in Hinit;
    [|now apply sorted_Forall|rewrite length_take, sorted_length; lia].
  simpl in Hinit. injection Hinit as <- <-. simpl. rewrite ?app_nil_r. auto 10.
Qed.
End ConstructionMore.

Lemma SSHCluster_init_outcome_witness :
  SSHCluster_init (three_nodes default_env) [15000%Z; 15001%Z]
    = (Raise StopIteration, []) /\
  SSHCluster_init {| nodes := ["10.0.0.1"; "::1"]; chief := "10.0.0.1";
                     ssh_config_map := [] |} (range_iter 15000 3)
    = (Raise ValueError, [15002%Z]) /\
  exists c,
    SSHCluster_init (three_nodes default_env) (range_iter 15000 4) = (Ok c, [15003%Z]) /\
    _full_addresses c = ["10.0.0.1:15000"; "10.0.0.2:15001"; "10.0.0.3:15002"].
Proof.
  pose proof (SSHCluster_init_outcome (three_nodes default_env) [15000%Z; 15001%Z])
    as (Hstop & _ & _).
  pose proof (SSHCluster_init_outcome
                {| nodes := ["10.0.0.1"; "::1"]; chief := "10.0.0.1";
                   ssh_config_map := [] |} (range_iter 15000 3)) as (_ & Hcolon & _).
  pose proof (SSHCluster_init_outcome (three_nodes default_env) (range_iter 15000 4))
    as (_ & _ & Hok).
  split; [apply Hstop; simpl; lia|]. split.
  - apply Hcolon; [simpl; lia|]. apply Exists_cons_tl, Exists_cons_hd. discriminate.
  - destruct Hok as (c & Hc & _ & Hfull & _); [simpl; lia|repeat constructor|].
    exists c. split; [exact Hc|]. rewrite Hfull. reflexivity.
Defined.

Section TaskMaps.
Variable environ : Env.

Lemma task_address_pairs_worker ns : forall ports,
  Forall colon_free ns -> length ns <= length ports ->
  task_address_pairs [("worker", zip_with full_address ns ports)] =
    imap (fun i n => (("worker", i), n)) ns.
Proof.
  intros ports Hcf Hlen. unfold task_address_pairs, dict_items, enumerate. simpl.
  rewrite app_nil_r.
  assert (forall k,
    map (fun '(task_index, a) => (("worker", task_index), hd "" (split_on colon a)))
        (imap (fun i a => (k + i, a)) (zip_with full_address ns ports)) =
    imap (fun i n => (("worker", k + i), n)) ns) as Hgen.
  { revert ports Hlen. induction Hcf as [|n ns Hn Hcf IH]; intros ports Hlen k;
      [reflexivity|].
    destruct ports as [|p ports]; simpl in Hlen; [lia|]. simpl.
    rewrite split_full_address by exact Hn. simpl. f_equal.
    rewrite (imap_ext _ (fun i a => (S k + i, a))) by (intros; simpl; f_equal; lia).
    rewrite IH by lia. apply imap_ext. intros; simpl. do 2 f_equal. lia. }
  apply (Hgen 0).
Qed.

Lemma dict_keys_imap_worker (ns : list string) : forall k,
  dict_keys (imap (fun i n => (("worker", k + i), n)) ns) =
    map (fun i => ("worker", i)) (seq k (length ns)).
Proof.
  induction ns as [|n ns IH]; intros k; simpl; [reflexivity|].
  rewrite Nat.add_0_r. f_equal.
  rewrite (imap_ext _ (fun i n => (("worker", S k + i), n)))
    by (intros; simpl; do 2 f_equal; lia).
  apply IH.
Qed.

Lemma dict_keys_worker_tasks (ns : list string) :
  dict_keys (imap (fun i n => (("worker", i), n)) ns) =
    map (fun i => ("worker", i)) (seq 0 (length ns)).
Proof. exact (dict_keys_imap_worker ns 0). Qed.

Lemma worker_tasks_NoDup (ns : list string) :
  NoDup (dict_keys (imap (fun i n => (("worker", i), n)) ns)).
Proof.
  rewrite dict_keys_worker_tasks.
  apply NoDup_fmap_2; [|apply NoDup_seq]. intros i j [= ->]. reflexivity.
Qed.

Lemma dict_get_worker_task (ns : list string) job i :
  dict_get (job, i) (imap (fun i n => (("worker", i), n)) ns) =
    if String.eqb job "worker" then ns !! i else None.
Proof.
  destruct (String.eqb_spec job "worker") as [->|Hne].
  - destruct (ns !! i) as [n|] eqn:Hi.
    + apply (dict_get_lookup _ i); [apply worker_tasks_NoDup|].
      rewrite list_lookup_imap, Hi. reflexivity.
    + apply dict_get_None_keys. rewrite dict_keys_worker_tasks.
      intros Hin. apply list_elem_of_fmap in Hin as (j & [= ->] & Hj).
      apply elem_of_seq in Hj. apply lookup_ge_None in Hi. lia.
  - apply dict_get_None_keys. rewrite dict_keys_worker_tasks.
    intros Hin. apply list_elem_of_fmap in Hin as (j & [= -> _] & _). congruence.
Qed.

Lemma task_address_built rs it c it' job i :
  SSHCluster_init rs it = (Ok c, it') ->
  get_address_from_task c job i =
    if String.eqb job "worker"
    then match sorted (nodes rs) !! i with
         | Some n => Ok n
         | None => Raise KeyError
         end
    else Raise KeyError.
Proof.
  intros Hinit.
  apply SSHCluster_init_Ok_inv in Hinit as (Hle & Hcf & _ & Hspec & _ & Htask & _).
  unfold get_address_from_task, dict_item. rewrite Htask, Hspec.
  rewrite task_address_pairs_worker;
    [|now apply sorted_Forall|rewrite length_take, sorted_length; lia].
  rewrite dict_of_pairs_NoDup by apply worker_tasks_NoDup.
  rewrite dict_get_worker_task.
  destruct (String.eqb job "worker"); [|reflexivity].
  now destruct (sorted (nodes rs) !! i).
Qed.

(** X2.  In a constructed cluster, task [i] of the job "worker" is at the
    [i]-th node identity in sorted order (without its port); an index past
    the last node, or any other job name, is a [KeyError]. *)
Theorem get_address_from_task_sorted_nodes rs it c it' job i :
  SSHCluster_init rs it = (Ok c, it') ->
  get_address_from_task c job i =
    if String.eqb job "worker"
    then match sorted (nodes rs) !! i with
         | Some n => Ok n
         | None => Raise KeyError
         end
    else Raise KeyError.
Proof. apply task_address_built. Qed.

Lemma dict_keys_zip {A} (ns : list string) : forall (vs : list A),
  length ns <= length vs -> dict_keys (zip ns vs) = ns.
Proof.
  induction ns as [|n ns IH]; intros vs Hlen; [reflexivity|].
  destruct vs as [|v vs]; simpl in *; [lia|]. f_equal. apply IH. lia.
Qed.

Lemma address_to_port_lookup rs it c it' :
  SSHCluster_init rs it = (Ok c, it') -> NoDup (nodes rs) ->
  forall a,
    dict_get a (_address_to_port c) =
      dict_get a (zip (sorted (nodes rs)) (map str_of_Z (take (length (nodes rs)) it))) /\
    dict_keys (_address_to_port c) = sorted (nodes rs).
Proof.
  intros Hinit Hnd a.
  apply SSHCluster_init_Ok_inv in Hinit as (Hle & _ & _ & _ & Hports & _).
  assert (dict_keys (zip (sorted (nodes rs))
                         (map str_of_Z (take (length (nodes rs)) it)))
          = sorted (nodes rs)) as Hkeys.
  { apply dict_keys_zip. rewrite length_map, length_take, sorted_length. lia. }
  rewrite Hports, dict_of_pairs_NoDup; [auto|].
  rewrite Hkeys. now rewrite sorted_perm.
Qed.

(** X3.  In a cluster constructed from distinct node identities, the
    session target of the local address is "grpc://localhost:" followed by
    the port that the construction drew for that node: the [i]-th port of
    the iterator for the [i]-th identity in sorted order.  When the local
    address is not a node identity the result is a [KeyError]. *)
Theorem get_local_session_target_port rs it c it' :
  SSHCluster_init rs it = (Ok c, it') -> NoDup (nodes rs) ->
  let local := get_local_address environ c in
  (forall i, sorted (nodes rs) !! i = Some local ->
     exists p, it !! i = Some p /\
       get_local_session_target environ c = Ok ("grpc://localhost:" ++ str_of_Z p)) /\
  (local ∉ nodes rs -> get_local_session_target environ c = Raise KeyError).
Proof.
  intros Hinit Hnd local.
  pose proof (address_to_port_lookup _ _ _ _ Hinit Hnd) as Hlookup.
  apply SSHCluster_init_Ok_inv in Hinit as (Hle & _).
  unfold get_local_session_target, dict_item. fold local. split.
  - intros i Hi.
    assert (i < length (nodes rs)) as Hlt
      by (apply lookup_lt_Some in Hi; now rewrite sorted_length in Hi).
    destruct (lookup_lt_is_Some_2 it i) as [p Hp]; [lia|].
    exists p. split; [exact Hp|].
    destruct (Hlookup local) as [-> _].
    erewrite dict_get_lookup; [reflexivity| |].
    + rewrite dict_keys_zip by (rewrite length_map, length_take, sorted_length; lia).
      now rewrite sorted_perm.
    + apply lookup_zip_with_Some. exists local, (str_of_Z p).
      split; [reflexivity|]. split; [exact Hi|].
      rewrite list_lookup_fmap, lookup_take_lt by lia. now rewrite Hp.
  - intros Hnot. destruct (Hlookup local) as [_ Hkeys].
    assert (dict_get local (_address_to_port c) = None) as ->; [|reflexivity].
    apply dict_get_None_keys. rewrite Hkeys. now rewrite sorted_perm.
Qed.
Lemma is_substring_full_address local m p :
  is_substring local m -> is_substring local (full_address m p).
Proof.
  intros (pre & post & ->). exists pre, (post ++ ":" ++ str_of_Z p).
  unfold full_address.
  assert (forall a b c : string, (a ++ b) ++ c = a ++ b ++ c) as Hassoc.
  { intros a b c0. induction a as [|x a IH]; [reflexivity|].
    rewrite !append_cons. now rewrite IH. }
  now rewrite !Hassoc.
Qed.

(** X4.  In a cluster constructed from distinct node identities whose
    [i]-th identity in sorted order is the local address,
    [get_local_worker_task_index] returns an index that is at most [i].
    It is smaller than [i] as soon as an earlier identity contains the
    local address as a substring, and the task at the returned index then
    belongs to another node. *)
Theorem get_local_worker_task_index_at_most_own rs it c it' i :
  SSHCluster_init rs it = (Ok c, it') -> NoDup (nodes rs) ->
  let local := get_local_address environ c in
  sorted (nodes rs) !! i = Some local ->
  exists j,
    get_local_worker_task_index environ c = Ok j /\ j <= i /\
    (forall k m, k < i -> sorted (nodes rs) !! k = Some m -> is_substring local m ->
       j < i /\
       exists other, get_address_from_task c "worker" j = Ok other /\ other <> local).
Proof.
  intros Hinit Hnd local Hi.
  pose proof (fun j => task_address_built _ _ _ _ "worker" j Hinit) as Htask.
  apply SSHCluster_init_Ok_inv in Hinit as (Hle & _ & _ & _ & _ & _ & Hfull & _).
  assert (forall k m, sorted (nodes rs) !! k = Some m ->
            exists p, _full_addresses c !! k = Some (full_address m p)) as Hentry.
  { intros k m Hk.
    assert (k < length (nodes rs)) as Hlt
      by (apply lookup_lt_Some in Hk; now rewrite sorted_length in Hk).
    destruct (lookup_lt_is_Some_2 it k) as [p Hp]; [lia|].
    exists p. rewrite Hfull. apply lookup_zip_with_Some.
    exists m, p. split; [reflexivity|]. split; [exact Hk|].
    now rewrite lookup_take_lt by lia. }
  unfold get_local_worker_task_index, enumerate. fold local.
  pose proof (enumerate_filter_first (contains local) (_full_addresses c) 0) as Hf.
  simpl in Hf.
  destruct (List.filter _ _) as [|[j a] rest].
  - exfalso. destruct (Hentry i local Hi) as [p Hp].
    assert (contains local (full_address local p) = true) as Hc
      by (apply contains_spec, address_port_contains).
    rewrite Hf in Hc; [discriminate|]. eapply list_elem_of_lookup_2, Hp.
  - destruct Hf as (j' & -> & Hj & Pa & Hmin).
    assert (forall k m, sorted (nodes rs) !! k = Some m -> is_substring local m -> j' <= k)
      as Hfirst.
    { intros k m Hk Hsub. destruct (Hentry k m Hk) as [p Hp].
      destruct (decide (j' <= k)) as [|Hgt]; [assumption|exfalso].
      assert (contains local (full_address m p) = true) as Hc
        by (now apply contains_spec, is_substring_full_address).
      rewrite (Hmin k _ ltac:(lia) Hp) in Hc. discriminate. }
    exists j'. split; [reflexivity|]. split.
    + apply (Hfirst i local Hi). exists "", "". unfold local.
      clear. induction (get_local_address environ c) as [|x s IH]; [reflexivity|].
      rewrite append_nil in *. rewrite append_cons. now f_equal.
    + intros k m Hlt Hk Hsub. pose proof (Hfirst k m Hk Hsub) as Hjk.
      split; [lia|].
      destruct (lookup_lt_is_Some_2 (sorted (nodes rs)) j') as [other Ho].
      { apply lookup_lt_Some in Hk. lia. }
      exists other. split.
      * rewrite (Htask j'). simpl. now rewrite Ho.
      * intros ->. assert (NoDup (sorted (nodes rs))) as Hnds
          by (now rewrite sorted_perm).
        pose proof (NoDup_lookup _ _ _ _ Hnds Ho Hi). lia.
Qed.
End TaskMaps.

Lemma get_address_from_task_sorted_nodes_witness :
  let c := cluster_of (three_nodes default_env) 15000 in
  get_address_from_task c "worker" 2 = Ok "10.0.0.3" /\
  get_address_from_task c "worker" 3 = Raise KeyError /\
  get_address_from_task c "ps" 0 = Raise KeyError.
Proof.
  intros c.
  assert (SSHCluster_init (three_nodes default_env) (range_iter 15000 1000)
          = (Ok c, range_iter 15003 997)) as Hinit by (vm_compute; reflexivity).
  split; [|split].
  - exact (get_address_from_task_sorted_nodes _ _ _ _ "worker" 2 Hinit).
  - exact (get_address_from_task_sorted_nodes _ _ _ _ "worker" 3 Hinit).
  - exact (get_address_from_task_sorted_nodes _ _ _ _ "ps" 0 Hinit).
Defined.

Lemma get_local_session_target_port_witness :
  let c := cluster_of (three_nodes default_env) 15000 in
  get_local_session_target (with_worker "10.0.0.2" default_env) c
    = Ok "grpc://localhost:15001" /\
  get_local_session_target (with_worker "10.0.0.9" default_env) c = Raise KeyError.
Proof.
  intros c.
  assert (SSHCluster_init (three_nodes default_env) (range_iter 15000 1000)
          = (Ok c, range_iter 15003 997)) as Hinit by (vm_compute; reflexivity).
  assert (NoDup (nodes (three_nodes default_env))) as Hnd.
  { repeat constructor; rewrite ?elem_of_cons, ?elem_of_nil; intuition discriminate. }
  split.
  - destruct (get_local_session_target_port (with_worker "10.0.0.2" default_env)
                _ _ _ _ Hinit Hnd) as [Hport _].
    destruct (Hport 1 eq_refl) as (p & Hp & ->). injection Hp as <-. reflexivity.
  - destruct (get_local_session_target_port (with_worker "10.0.0.9" default_env)
                _ _ _ _ Hinit Hnd) as [_ Hmiss].
    apply Hmiss. simpl.
    rewrite !elem_of_cons, elem_of_nil. intuition discriminate.
Defined.

Lemma get_local_worker_task_index_at_most_own_witness :
  let c := cluster_of overlapping_nodes 15000 in
  let environ := with_worker "2.2.2.2" default_env in
  _full_addresses c = ["12.2.2.2:15000"; "2.2.2.2:15001"] /\
  exists j, get_local_worker_task_index environ c = Ok j /\ j <= 1 /\ j < 1 /\
    exists other, get_address_from_task c "worker" j = Ok other /\ other <> "2.2.2.2".
Proof.
  intros c environ. split; [reflexivity|].
  assert (SSHCluster_init overlapping_nodes (range_iter 15000 1000)
          = (Ok c, range_iter 15002 998)) as Hinit by (vm_compute; reflexivity).
  assert (NoDup (nodes overlapping_nodes)) as Hnd.
  { repeat constructor; rewrite ?elem_of_cons, ?elem_of_nil; intuition discriminate. }
  destruct (get_local_worker_task_index_at_most_own environ _ _ _ _ 1 Hinit Hnd eq_refl)
    as (j & Hj & Hle & Hstrict).
  exists j. split; [exact Hj|]. split; [exact Hle|].
  apply (Hstrict 0 "12.2.2.2"); [lia|reflexivity|].
  exists "1", "". reflexivity.
Defined.


(* ===================================================================== *)
(** * Further properties: the SSH configuration registry *)
(* ===================================================================== *)

Section RegistryMore.
Variable environ : Env.
Variable from_private_key_file : string -> result RSAKey.

Lemma build_conf_map_first_failure pre key i post e : forall acc,
  Forall (config_ok environ from_private_key_file) pre -> make_config environ from_private_key_file i = Raise e ->
  build_conf_map environ from_private_key_file (pre ++ (key, i) :: post) acc = Raise e.
Proof.
  induction pre as [|[k j] pre IH]; intros acc Hpre Hi; simpl.
  - now rewrite Hi.
  - apply Forall_cons in Hpre as [Hj Hpre]. unfold config_ok in Hj. simpl in Hj.
    destruct (make_config environ from_private_key_file j); [|discriminate]. simpl. now apply IH.
Qed.

Lemma build_conf_map_all_ok items : forall acc,
  Forall (config_ok environ from_private_key_file) items -> exists conf_map, build_conf_map environ from_private_key_file items acc = Ok conf_map.
Proof.
  induction items as [|[k j] items IH]; intros acc Hall; simpl; [eauto|].
  apply Forall_cons in Hall as [Hj Hall]. unfold config_ok in Hj. simpl in Hj.
  destruct (make_config environ from_private_key_file j); [|discriminate]. simpl. now apply IH.
Qed.

(** X5.  The registry is built only if the config of every group can be
    built.  Otherwise the construction raises what the first failing group
    raises, in the order of the group configs, whatever the host map is:
    also when no host belongs to that group. *)
Theorem SSHConfigMap_fails_with_first_group info node_groups :
  (Forall (config_ok environ from_private_key_file) info ->
   exists m, SSHConfigMap environ from_private_key_file info node_groups = Ok m) /\
  (forall pre key i post e,
     info = (pre ++ (key, i) :: post)%list ->
     Forall (config_ok environ from_private_key_file) pre ->
     make_config environ from_private_key_file i = Raise e ->
     SSHConfigMap environ from_private_key_file info node_groups = Raise e).
Proof.
  split.
  - intros Hall. unfold SSHConfigMap, dict_items.
    destruct (build_conf_map_all_ok info [] Hall) as [conf_map ->]. simpl. eauto.
  - intros pre key i post e -> Hpre Hi. unfold SSHConfigMap, dict_items.
    now rewrite (build_conf_map_first_failure pre key i post e [] Hpre Hi).
Qed.

Lemma existsb_baseline (shared : dict string pyval) :
  existsb (fun k => dict_mem k [("TF_CPP_MIN_LOG_LEVEL", PInt 0);
                                ("AUTODIST_PATCH_TF", AUTODIST_PATCH_TF environ)])
          (dict_keys shared)
  = existsb is_baseline_key (dict_keys shared).
Proof.
  induction (dict_keys shared) as [|k ks IH]; [reflexivity|]. simpl. rewrite IH.
  f_equal. unfold dict_mem, is_baseline_key. simpl.
  destruct (String.eqb_spec k "TF_CPP_MIN_LOG_LEVEL") as [->|H1]; [reflexivity|].
  rewrite decide_False by exact H1.
  destruct (String.eqb_spec k "AUTODIST_PATCH_TF") as [->|H2]; [reflexivity|].
  now rewrite decide_False by exact H2.
Qed.

Lemma dict_get_app_r {V} (k : string) (d1 d2 : dict string V) :
  dict_get k d1 = None -> dict_get k (d1 ++ d2)%list = dict_get k d2.
Proof.
  induction d1 as [|[k' v'] d1 IH]; simpl; [reflexivity|].
  destruct (decide (k = k')); [discriminate|]. exact IH.
Qed.

(** X6.  The config of a group.  A key file that is not given, or given as
    the empty string, is never loaded and leaves [pkey] at [None]; a key
    file that fails to load fails the config with the loader's exception.
    A shared environment that names one of the two baseline entries is
    rejected with [TypeError] (the baseline is not overridden).  Otherwise
    the config is built: the fields that are not given take their defaults
    (user name '', port 22, no virtual environment), and the environment
    holds the two baseline entries followed by the shared ones. *)
Theorem make_config_outcome (i : ssh_info) :
  let shared := default [] (info_shared_envs i) in
  match _gen_rsa_pkey from_private_key_file (info_key_file i) with
  | Raise e =>
      make_config environ from_private_key_file i = Raise e /\
      exists path, info_key_file i = Some path /\ path <> "" /\
                   from_private_key_file path = Raise e
  | Ok pk =>
      (pk = None <-> info_key_file i = None \/ info_key_file i = Some "") /\
      if existsb is_baseline_key (dict_keys shared)
      then make_config environ from_private_key_file i = Raise TypeError
      else exists c,
          make_config environ from_private_key_file i = Ok c /\ pkey c = pk /\
          username c = default "" (info_username i) /\
          port c = default 22%Z (info_port i) /\
          python_venv c = default "" (info_python_venv i) /\
          key_file c = default "" (info_key_file i) /\
          dict_get "TF_CPP_MIN_LOG_LEVEL" (env c) = Some (PInt 0) /\
          dict_get "AUTODIST_PATCH_TF" (env c) = Some (AUTODIST_PATCH_TF environ) /\
          forall k, is_baseline_key k = false -> dict_get k (env c) = dict_get k shared
  end.
Proof.
  intros shared. unfold make_config, config_env. fold shared.
  rewrite existsb_baseline.
  unfold _gen_rsa_pkey. destruct (info_key_file i) as [path|] eqn:Hkey.
  - destruct (String.eqb_spec path "") as [->|Hne]; simpl.
    + split; [split; auto|].
      destruct (existsb is_baseline_key (dict_keys shared)); simpl; [reflexivity|].
      eexists. split; [reflexivity|]. simpl. repeat split; auto.
      intros k Hk. unfold is_baseline_key in Hk. apply orb_false_elim in Hk as [H1 H2].
      apply String.eqb_neq in H1, H2. now rewrite !decide_False.
    + destruct (from_private_key_file path) as [key|e] eqn:Hload; simpl.
      * split; [split; [discriminate|intros [|[= ->]]; congruence]|].
        destruct (existsb is_baseline_key (dict_keys shared)); simpl; [reflexivity|].
        eexists. split; [reflexivity|]. simpl. repeat split; auto.
        intros k Hk. unfold is_baseline_key in Hk. apply orb_false_elim in Hk as [H1 H2].
        apply String.eqb_neq in H1, H2. now rewrite !decide_False.
      * split; [reflexivity|]. exists path. auto.
  - simpl. split; [split; auto|].
    destruct (existsb is_baseline_key (dict_keys shared)); simpl; [reflexivity|].
    eexists. split; [reflexivity|]. simpl. repeat split; auto.
    intros k Hk. unfold is_baseline_key in Hk. apply orb_false_elim in Hk as [H1 H2].
    apply String.eqb_neq in H1, H2. now rewrite !decide_False.
Qed.

Lemma build_conf_map_lookup items : forall acc conf_map group i,
  build_conf_map environ from_private_key_file items acc = Ok conf_map ->
  NoDup (dict_keys items) ->
  dict_get group items = Some i ->
  exists c, make_config environ from_private_key_file i = Ok c /\ dict_get group conf_map = Some c.
Proof.
  induction items as [|[key info] items IH]; intros acc conf_map group i Hb Hnd Hg;
    simpl in *; [discriminate|].
  apply NoDup_cons in Hnd as [Hkey Hnd].
  destruct (make_config environ from_private_key_file info) as [c|e] eqn:Hc; simpl in Hb; [|discriminate].
  destruct (decide (group = key)) as [->|Hne].
  - injection Hg as <-. exists c. split; [exact Hc|].
    apply dict_get_None_keys in Hkey.
    rewrite (build_conf_map_unknown _ _ _ _ _ _ Hb Hkey). apply dict_get_set_eq.
  - eauto.
Qed.

Lemma assign_hosts_app conf_map items : forall self,
  NoDup (dict_keys self ++ dict_keys items)%list ->
  assign_hosts items conf_map self =
    (self ++ map (fun hg => (fst hg, dict_get (snd hg) conf_map)) items)%list.
Proof.
  induction items as [|[h g] items IH]; intros self Hnd; simpl.
  - now rewrite app_nil_r.
  - simpl in Hnd.
    assert (h ∉ dict_keys self) as Hfresh.
    { apply NoDup_app in Hnd as (_ & Hdis & _).
      intros Hin. apply (Hdis h Hin). apply elem_of_cons. now left. }
    rewrite dict_set_fresh by exact Hfresh. rewrite IH.
    + now rewrite <- app_assoc.
    + unfold dict_keys. rewrite map_app. simpl. rewrite <- app_assoc. exact Hnd.
Qed.

(** X7.  The hosts of a built registry are exactly the hosts of the host
    map, in its order.  A host whose group has a config holds the config
    built from that group's information, so that the hosts of one group
    hold equal configs. *)
Theorem SSHConfigMap_known_group info node_groups m :
  SSHConfigMap environ from_private_key_file info node_groups = Ok m ->
  NoDup (dict_keys node_groups) -> NoDup (dict_keys info) ->
  dict_keys m = dict_keys node_groups /\
  forall host group i,
    dict_get host node_groups = Some group -> dict_get group info = Some i ->
    exists c, make_config environ from_private_key_file i = Ok c /\
              dict_get host m = Some (Some c).
Proof.
  intros Hm Hhosts Hinfo. split.
  - unfold SSHConfigMap, dict_items in Hm.
    destruct (build_conf_map environ from_private_key_file info []) as [conf_map|e]; simpl in Hm; [|discriminate].
    injection Hm as <-. rewrite assign_hosts_app by exact Hhosts. simpl.
    unfold dict_keys. rewrite map_map. reflexivity.
  - intros host group i Hhost Hgroup.
    destruct (SSHConfigMap_lookup _ _ _ _ _ host Hm Hhosts) as (conf_map & Hb & Hget).
    rewrite Hhost in Hget.
    destruct (build_conf_map_lookup _ _ _ _ _ Hb Hinfo Hgroup) as (c & Hc & Hconf).
    exists c. split; [exact Hc|]. now rewrite Hget, Hconf.
Qed.
End RegistryMore.

Lemma SSHConfigMap_fails_with_first_group_witness :
  SSHConfigMap default_env no_key_file
    [("A", group_A); ("B", group_shadowing); ("C", group_A)] [("h1", "A")]
  = Raise TypeError.
Proof.
  destruct (SSHConfigMap_fails_with_first_group default_env no_key_file
              [("A", group_A); ("B", group_shadowing); ("C", group_A)] [("h1", "A")])
    as [_ Hfail].
  apply (Hfail [("A", group_A)] "B" group_shadowing [("C", group_A)]).
  - reflexivity.
  - repeat constructor.
  - reflexivity.
Defined.

Lemma make_config_outcome_witness :
  exists c,
    make_config default_env no_key_file group_with_env = Ok c /\
    pkey c = None /\ port c = 22%Z /\
    dict_get "TF_CPP_MIN_LOG_LEVEL" (env c) = Some (PInt 0) /\
    dict_get "LD_LIBRARY_PATH" (env c) = Some (PStr "/opt/lib").
Proof.
  destruct (make_config_outcome default_env no_key_file group_with_env)
    as (_ & c & Hc & Hpk & _ & Hport & _ & _ & Hlog & _ & Hshared).
  exists c. split; [exact Hc|]. split; [exact Hpk|]. split; [exact Hport|].
  split; [exact Hlog|]. apply (Hshared "LD_LIBRARY_PATH"). reflexivity.
Defined.

Lemma SSHConfigMap_known_group_witness :
  exists m c,
    SSHConfigMap default_env no_key_file [("A", group_A)] [("h1", "A"); ("h2", "A")] = Ok m /\
    dict_keys m = ["h1"; "h2"] /\
    dict_get "h1" m = Some (Some c) /\ dict_get "h2" m = Some (Some c).
Proof.
  pose (m := registry_of default_env [("h1", "A"); ("h2", "A")]).
  assert (SSHConfigMap default_env no_key_file [("A", group_A)] [("h1", "A"); ("h2", "A")]
          = Ok m) as Hm by reflexivity.
  destruct (SSHConfigMap_known_group default_env no_key_file _ _ _ Hm) as [Hkeys Hget].
  { repeat constructor; rewrite ?elem_of_cons, ?elem_of_nil; intuition discriminate. }
  { repeat constructor. apply not_elem_of_nil. }
  destruct (Hget "h1" "A" group_A eq_refl eq_refl) as (c & Hc & H1).
  destruct (Hget "h2" "A" group_A eq_refl eq_refl) as (c' & Hc' & H2).
  exists m, c. split; [exact Hm|]. split; [exact Hkeys|]. split; [exact H1|].
  rewrite H2. congruence.
Defined.

(* ===================================================================== *)
(** * Further properties: paths and the remote transport *)
(* ===================================================================== *)

Section PathFacts.

Lemma string_app_assoc (a b c : string) : (a ++ b) ++ c = a ++ b ++ c.
Proof.
  induction a as [|x a IH]; [reflexivity|]. rewrite !append_cons. now rewrite IH.
Qed.

Lemma rpartition_aux_None sep s :
  rpartition_aux sep s = None <-> count_char sep s = 0.
Proof.
  induction s as [|c s IH]; simpl; [tauto|].
  destruct (rpartition_aux sep s) as [[hd tl]|].
  - split; [discriminate|]. intros Hc.
    assert (count_char sep s = 0) as Hs by lia. apply IH in Hs. discriminate.
  - destruct (Ascii.eqb c sep); simpl.
    + split; [discriminate|lia].
    + split; [intros _; now apply IH|reflexivity].
Qed.

Lemma rpartition_aux_Some sep s : forall hd tl,
  rpartition_aux sep s = Some (hd, tl) ->
  s = hd ++ String sep tl /\ count_char sep tl = 0.
Proof.
  induction s as [|c s IH]; intros hd tl; simpl; [discriminate|].
  destruct (rpartition_aux sep s) as [[hd' tl']|] eqn:Hr.
  - intros [= <- <-]. destruct (IH _ _ eq_refl) as [-> Htl].
    rewrite append_cons. auto.
  - destruct (Ascii.eqb_spec c sep) as [->|Hne]; [|discriminate].
    intros [= <- <-]. split; [reflexivity|]. now apply rpartition_aux_None.
Qed.

Lemma rpartition_aux_app sep hd tl :
  count_char sep tl = 0 -> rpartition_aux sep (hd ++ String sep tl) = Some (hd, tl).
Proof.
  intros Htl. induction hd as [|c hd IH].
  - rewrite append_nil. simpl.
    apply rpartition_aux_None in Htl. rewrite Htl. now rewrite Ascii.eqb_refl.
  - rewrite append_cons. simpl. now rewrite IH.
Qed.

Lemma basename_slash_free p : count_char "/"%char (basename p) = 0.
Proof.
  unfold basename, rpartition.
  destruct (rpartition_aux "/"%char p) as [[hd tl]|] eqn:Hr; simpl.
  - now apply rpartition_aux_Some in Hr as [_ Htl].
  - now apply rpartition_aux_None.
Qed.

Lemma basename_app x b :
  count_char "/"%char b = 0 -> basename (x ++ String "/"%char b) = b.
Proof.
  intros Hb. unfold basename, rpartition. now rewrite rpartition_aux_app.
Qed.

Lemma basename_id b : count_char "/"%char b = 0 -> basename b = b.
Proof.
  intros Hb. unfold basename, rpartition.
  apply rpartition_aux_None in Hb. now rewrite Hb.
Qed.

(** Joining a directory and a file name and taking the base name gives
    the file name back. *)
Lemma basename_path_join d b :
  count_char "/"%char b = 0 -> basename (path_join d b) = b.
Proof.
  intros Hb. unfold path_join.
  assert (String.prefix "/" b = false) as ->.
  { destruct b as [|c b]; [reflexivity|].
    change (String.prefix "/" (String c b))
      with (if ascii_dec "/" c then String.prefix "" b else false).
    destruct (ascii_dec "/" c) as [<-|]; [|reflexivity].
    simpl in Hb. discriminate. }
  destruct (String.eqb_spec d "") as [->|Hd]; simpl.
  - rewrite append_nil. now apply basename_id.
  - destruct (String.eqb_spec (snd (rpartition "/"%char d)) "") as [Htail|Htail].
    + unfold rpartition in Htail.
      destruct (rpartition_aux "/"%char d) as [[hd tl]|] eqn:Hr; simpl in Htail;
        [|congruence].
      apply rpartition_aux_Some in Hr as [-> _]. subst tl.
      rewrite string_app_assoc. rewrite append_cons, append_nil.
      now apply basename_app.
    + change ("/" ++ b) with (String "/"%char b). now apply basename_app.
Qed.
End PathFacts.

Section TransportMore.
Context {W : Type} `{OS W}.
Variable environ : Env.
Implicit Types (st : state W).

Lemma lift_inv {A} (x : result A) st r st' :
  lift x st = (r, st') -> r = x /\ st' = st.
Proof. unfold lift. now intros [= <- <-]. Qed.

(** X8.  The remote operations on a host without a usable config.  For a
    host that is not a key of the registry, [remote_exec],
    [remote_file_write] and [remote_copy] raise [KeyError] and do nothing.
    For a host whose stored value is [None] (its group was unknown when
    the registry was built), [remote_exec] and [remote_file_write] raise
    [AttributeError] and do nothing, and [remote_copy] raises it after
    having created its SSH client, before any connection. *)
Theorem remote_operations_without_config st host args path data local_path dir :
  (dict_get host (_ssh_conf (self st)) = None ->
   remote_exec environ args host st = (Raise KeyError, st) /\
   remote_file_write path data host st = (Raise KeyError, st) /\
   remote_copy local_path dir host st = (Raise KeyError, st)) /\
  (dict_get host (_ssh_conf (self st)) = Some None ->
   remote_exec environ args host st = (Raise AttributeError, st) /\
   remote_file_write path data host st = (Raise AttributeError, st) /\
   forall r st', remote_copy local_path dir host st = (r, st') ->
     exists created,
       self st' = self st /\
       trace st' = (trace st ++ [EvDo (SshClientNew host) created])%list /\
       r = match created with Ok _ => Raise AttributeError | Raise e => Raise e end).
Proof.
  split; intros Hconf.
  - unfold remote_exec, remote_file_write, remote_copy, with_sftp_client, with_ssh_client,
      bind, get_self, lift, ssh_config_of, dict_item.
    rewrite Hconf. simpl. auto.
  - split; [|split].
    + unfold remote_exec, bind, get_self, lift, ssh_config_of, dict_item.
      now rewrite Hconf.
    + unfold remote_file_write, with_sftp_client, bind, get_self, lift, ssh_config_of,
        dict_item. now rewrite Hconf.
    + intros r st' Hcopy. unfold remote_copy, with_ssh_client in Hcopy.
      apply bind_inv in Hcopy as [(u & st1 & Hssh & _)|(e & Hssh & ->)].
      * exfalso.
        apply bind_inv in Hssh as [(c & ? & [= <- <-] & Hssh)|(e & [= _ _] & _)].
        unfold dict_item in Hssh. rewrite Hconf in Hssh.
        apply bind_inv in Hssh as [(s & ? & [= <- <-] & Hssh)|(e & [=] & _)].
        apply bind_inv in Hssh as [([] & st2 & Hnew & Hssh)|(e & _ & [=])].
        apply bind_inv in Hssh as [(cfg & ? & [=] & _)|(e & _ & [=])].
      * apply bind_inv in Hssh as [(c & ? & [= <- <-] & Hssh)|(e' & [= _ _] & _)].
        unfold dict_item in Hssh. rewrite Hconf in Hssh.
        apply bind_inv in Hssh as [(s & ? & [= <- <-] & Hssh)|(e' & [=] & _)].
        apply bind_inv in Hssh as [([] & st2 & Hnew & Hssh)|(e' & Hnew & [= <-])];
          apply do_inv in Hnew as [Hs Ht].
        -- apply bind_inv in Hssh as [(cfg & ? & [=] & _)|(e' & [= <- <-] & [= <-])].
           exists (Ok tt). auto.
        -- exists (Raise e). auto.
Qed.

Lemma remote_file_write_inv st host path data cfg r st' :
  ssh_config_of (self st) host = Ok cfg ->
  remote_file_write path data host st = (r, st') ->
  let connect := SftpConnect host (port cfg) (username cfg) (pkey cfg) in
  let write := SftpWrite host path data in
  self st' = self st /\
  ((exists e, r = Raise e /\
      trace st' = (trace st ++ [EvDo connect (Raise e)])%list) \/
   (exists e, r = Raise e /\
      trace st' = (trace st ++ [EvDo connect (Ok tt); EvDo write (Raise e)])%list) \/
   trace st' = (trace st ++ [EvDo connect (Ok tt); EvDo write (Ok tt);
                             EvDo (SftpClose host) r])%list).
Proof.
  intros Hcfg Hw connect write. unfold remote_file_write, with_sftp_client in Hw.
  apply bind_inv in Hw as [(c & ? & [= <- <-] & Hw)|(e & [= _ _] & _)].
  rewrite Hcfg in Hw.
  apply bind_inv in Hw as [(cfg' & ? & [= <- <-] & Hw)|(e & [=] & _)].
  fold connect write in Hw.
  apply bind_inv in Hw as [([] & st1 & Hc & Hw)|(e & Hc & ->)];
    apply do_inv in Hc as [Hs1 Ht1]; [|split; [exact Hs1|eauto]].
  apply bind_inv in Hw as [([] & st2 & Hwr & Hw)|(e & Hwr & ->)];
    apply do_inv in Hwr as [Hs2 Ht2].
  2:{ split; [congruence|]. right. left. exists e. split; [reflexivity|].
      now rewrite Ht2, Ht1, <- app_assoc. }
  apply bind_inv in Hw as [([] & st3 & Hcl & [= <- <-])|(e & Hcl & ->)];
    apply do_inv in Hcl as [Hs3 Ht3];
    (split; [congruence|]); right; right;
    now rewrite Ht3, Ht2, Ht1, <- !app_assoc.
Qed.


(** X9.  [remote_file_write] to a host with a config opens a file-transfer
    channel, writes, and closes the channel, in that order, and leaves the
    object alone.  The channel is closed only when the write has returned:
    when the write raises, its exception propagates and no close is
    issued. *)
Theorem remote_file_write_events st host path data cfg r st' :
  ssh_config_of (self st) host = Ok cfg ->
  remote_file_write path data host st = (r, st') ->
  let connect := SftpConnect host (port cfg) (username cfg) (pkey cfg) in
  let write := SftpWrite host path data in
  self st' = self st /\
  ((exists e, r = Raise e /\
      trace st' = (trace st ++ [EvDo connect (Raise e)])%list) \/
   (exists e, r = Raise e /\
      trace st' = (trace st ++ [EvDo connect (Ok tt); EvDo write (Raise e)])%list) \/
   trace st' = (trace st ++ [EvDo connect (Ok tt); EvDo write (Ok tt);
                             EvDo (SftpClose host) r])%list).
Proof. apply remote_file_write_inv. Qed.

Lemma remote_copy_Ok_inv st host local_path dir st' :
  remote_copy local_path dir host st = (Ok tt, st') ->
  exists cfg,
    ssh_config_of (self st) host = Ok cfg /\
    self st' = self st /\
    trace st' =
      (trace st ++
       [EvDo (SshClientNew host) (Ok tt);
        EvDo (SshConnect host (port cfg) (username cfg) (pkey cfg)) (Ok tt);
        EvDo (SshExecCommand host ("mkdir -p " ++ dir)) (Ok tt);
        EvDo (SshClose host) (Ok tt);
        EvDo (SftpConnect host (port cfg) (username cfg) (pkey cfg)) (Ok tt);
        EvDo (SftpPut host local_path (path_join dir (basename local_path))) (Ok tt);
        EvDo (SftpClose host) (Ok tt)])%list.
Proof.
  intros Hcopy. unfold remote_copy, with_ssh_client, with_sftp_client in Hcopy.
  apply bind_inv in Hcopy as [([] & st1 & Hssh & Hsftp)|(e & _ & [=])].
  apply bind_inv in Hssh as [(c & ? & [= <- <-] & Hssh)|(e & _ & [=])].
  apply bind_inv in Hssh as [(stored & ? & Hst & Hssh)|(e & _ & [=])].
  apply lift_inv in Hst as [Hstored ->].
  apply bind_inv in Hssh as [([] & s1 & Hnew & Hssh)|(e & _ & [=])].
  apply do_inv in Hnew as [Hs1 Ht1].
  apply bind_inv in Hssh as [(cfg & ? & Hat & Hssh)|(e & _ & [=])].
  apply lift_inv in Hat as [Hattr ->].
  apply bind_inv in Hssh as [([] & s2 & Hcon & Hssh)|(e & _ & [=])].
  apply do_inv in Hcon as [Hs2 Ht2].
  apply bind_inv in Hssh as [([] & s3 & Hex & Hssh)|(e & _ & [=])].
  apply do_inv in Hex as [Hs3 Ht3].
  apply bind_inv in Hssh as [([] & s4 & Hcl & [= <-])|(e & _ & [=])].
  apply do_inv in Hcl as [Hs4 Ht4].
  assert (self s4 = self st) as Hself by congruence.
  assert (ssh_config_of (self st) host = Ok cfg) as Hcfg.
  { unfold ssh_config_of. rewrite <- Hstored. simpl. now rewrite <- Hattr. }
  apply bind_inv in Hsftp as [(c & ? & [= <- <-] & Hsftp)|(e & _ & [=])].
  rewrite Hself, Hcfg in Hsftp.
  apply bind_inv in Hsftp as [(cfg' & ? & [= <- <-] & Hsftp)|(e & _ & [=])].
  apply bind_inv in Hsftp as [([] & s5 & Hcon2 & Hsftp)|(e & _ & [=])].
  apply do_inv in Hcon2 as [Hs5 Ht5].
  apply bind_inv in Hsftp as [([] & s6 & Hput & Hsftp)|(e & _ & [=])].
  apply do_inv in Hput as [Hs6 Ht6].
  apply bind_inv in Hsftp as [([] & s7 & Hcl2 & [= <-])|(e & _ & [=])].
  apply do_inv in Hcl2 as [Hs7 Ht7].
  exists cfg. split; [exact Hcfg|]. split; [congruence|].
  rewrite Ht7, Ht6, Ht5, Ht4, Ht3, Ht2, Ht1, <- !app_assoc. reflexivity.
Qed.

(** X10.  A [remote_copy] that returns has, in this order: created an SSH
    client, connected it with the host's config, run [mkdir -p] on the
    remote directory, closed the client, opened a file-transfer channel,
    put the local file into the remote directory under its own file name,
    and closed the channel; every one of these steps has returned. *)
Theorem remote_copy_events st host local_path dir st' :
  remote_copy local_path dir host st = (Ok tt, st') ->
  exists cfg,
    ssh_config_of (self st) host = Ok cfg /\
    self st' = self st /\
    trace st' =
      (trace st ++
       [EvDo (SshClientNew host) (Ok tt);
        EvDo (SshConnect host (port cfg) (username cfg) (pkey cfg)) (Ok tt);
        EvDo (SshExecCommand host ("mkdir -p " ++ dir)) (Ok tt);
        EvDo (SshClose host) (Ok tt);
        EvDo (SftpConnect host (port cfg) (username cfg) (pkey cfg)) (Ok tt);
        EvDo (SftpPut host local_path (path_join dir (basename local_path))) (Ok tt);
        EvDo (SftpClose host) (Ok tt)])%list /\
    basename (path_join dir (basename local_path)) = basename local_path.
Proof.
  intros Hcopy. destruct (remote_copy_Ok_inv _ _ _ _ _ Hcopy) as (cfg & Hcfg & Hs & Ht).
  exists cfg. repeat split; auto. apply basename_path_join, basename_slash_free.
Qed.
End TransportMore.

Lemma remote_operations_without_config_witness :
  remote_exec default_env ["true"] "10.0.0.3" partial_registry_state
    = (Raise KeyError, partial_registry_state) /\
  remote_file_write "/tmp/x" "data" "10.0.0.2" partial_registry_state
    = (Raise AttributeError, partial_registry_state) /\
  fst (remote_copy "/a/b.py" "/tmp" "10.0.0.2" partial_registry_state)
    = Raise AttributeError.
Proof.
  destruct (remote_operations_without_config default_env partial_registry_state
              "10.0.0.3" ["true"] "/tmp/x" "data" "/a/b.py" "/tmp") as [Hmissing _].
  destruct (remote_operations_without_config default_env partial_registry_state
              "10.0.0.2" ["true"] "/tmp/x" "data" "/a/b.py" "/tmp") as [_ Hnone].
  destruct (Hmissing eq_refl) as (Hexec & _ & _).
  destruct (Hnone eq_refl) as (_ & Hwrite & Hcopy).
  split; [exact Hexec|]. split; [exact Hwrite|].
  destruct (Hcopy _ _ (run_eq _ _)) as (created & _ & Ht & ->).
  assert (trace (snd (remote_copy "/a/b.py" "/tmp" "10.0.0.2" partial_registry_state))
          = [EvDo (SshClientNew "10.0.0.2") (Ok tt)]) as Hrun by (vm_compute; reflexivity).
  rewrite Hrun in Ht. injection Ht as <-. reflexivity.
Defined.

Lemma remote_file_write_events_witness :
  exists cfg,
    ssh_config_of (self chief_state) "10.0.0.2" = Ok cfg /\
    let out := remote_file_write "/tmp/x" "data" "10.0.0.2"
                                 (init_state (self chief_state)
                                             (with_unreachable ["10.0.0.2"] boot)) in
    fst out = Raise (OtherError "NoValidConnectionsError") /\
    self (snd out) = self chief_state.
Proof.
  eexists. split; [reflexivity|]. intros out. split; [vm_compute; reflexivity|].
  refine (proj1 (remote_file_write_events
                   (init_state (self chief_state) (with_unreachable ["10.0.0.2"] boot))
                   "10.0.0.2" "/tmp/x" "data" _ (fst out) (snd out) eq_refl (run_eq _ _))).
Defined.

Lemma remote_copy_events_witness :
  let st' := snd (remote_copy "/opt/autodist/utils/server_starter.py" "/tmp/autodist"
                              "10.0.0.2" chief_state) in
  exists cfg,
    ssh_config_of (self chief_state) "10.0.0.2" = Ok cfg /\
    self st' = self chief_state /\
    length (trace st') = 7.
Proof.
  intros st'.
  assert (remote_copy "/opt/autodist/utils/server_starter.py" "/tmp/autodist"
                      "10.0.0.2" chief_state = (Ok tt, st')) as Hrun
    by (vm_compute; reflexivity).
  destruct (remote_copy_events _ _ _ _ _ Hrun) as (cfg & Hcfg & Hs & Ht & _).
  exists cfg. split; [exact Hcfg|]. split; [exact Hs|]. rewrite Ht. reflexivity.
Defined.

(* ===================================================================== *)
(** * Further properties: launching and terminating *)
(* ===================================================================== *)

Section LifecycleMore.
Context {W : Type} `{OS W}.
Variable environ : Env.
Implicit Types (st : state W).

Lemma split_on_hd_colon_free s : colon_free (hd "" (split_on colon s)).
Proof.
  unfold colon_free. induction s as [|c s IH]; simpl; [reflexivity|].
  destruct (Ascii.eqb c colon) eqn:E; simpl; [reflexivity|].
  destruct (split_on colon s) as [|p ps]; simpl in *; rewrite E; simpl; auto.
Qed.

Lemma rpartition_colon_free a :
  colon_free a -> rpartition colon a = ("", "", a).
Proof.
  intros Ha. unfold rpartition. apply rpartition_aux_None in Ha. now rewrite Ha.
Qed.

(** What a colon-free address (an address without a port) can parse to:
    only "localhost" and IPv4 literals are accepted. *)
Lemma get_ip_colon_free a :
  colon_free a ->
  _get_ip_from_address a =
    if String.eqb (str_or "" a) "localhost" then Ok (IPv4Address 2130706433)
    else match parse_ipv4 (strip ["["%char; "]"%char] a) with
         | Some n => Ok (IPv4Address n)
         | None => Raise ValueError
         end.
Proof.
  intros Ha. unfold _get_ip_from_address. rewrite rpartition_colon_free by exact Ha.
  destruct (String.eqb (str_or "" a) "localhost") eqn:Hl; [reflexivity|].
  unfold ip_address. change (str_or "" a) with a.
  destruct (parse_ipv4 _); [reflexivity|].
  destruct (parse_ipv6 _) as [[v scope]|] eqn:Hv6; [|reflexivity].
  apply parse_ipv6_colons in Hv6.
  pose proof (strip_count ["["%char; "]"%char] colon a). unfold colon_free in Ha. lia.
Qed.

(** X11.  The launch of a task whose address is neither "localhost" nor an
    IPv4 literal (a host name, say) raises [ValueError] at once: the
    address is parsed before the chief is even compared, nothing is
    launched, nothing contacted and no handle recorded. *)
Theorem launch_task_needs_ip_literal job idx full_address st :
  let address := hd "" (split_on colon full_address) in
  address <> "localhost" ->
  parse_ipv4 (strip ["["%char; "]"%char] address) = None ->
  launch_task environ job (idx, full_address) st = (Raise ValueError, st).
Proof.
  intros address Hlocalhost Hv4. unfold launch_task. fold address.
  unfold bind, is_local_address, is_local_address_in.
  rewrite get_ip_colon_free by apply split_on_hd_colon_free. fold address.
  change (str_or "" address) with address.
  destruct (String.eqb_spec address "localhost") as [|_]; [contradiction|].
  now rewrite Hv4.
Qed.

Lemma remote_exec_Ok_not_dry args host st h st' :
  AUTODIST_DEBUG_REMOTE environ = false ->
  remote_exec environ args host st = (Ok h, st') ->
  exists cfg p,
    ssh_config_of (self st) host = Ok cfg /\ h = Some p /\ self st' = self st /\
    trace st' = (trace st ++ [EvPopen (remote_cmd cfg args host) true true (Ok p)])%list.
Proof.
  intros Hdry Hex. unfold remote_exec in Hex.
  apply bind_inv in Hex as [(c & ? & [= <- <-] & Hex)|(e & _ & [=])].
  apply bind_inv in Hex as [(cfg & ? & Hl & Hex)|(e & _ & [=])].
  apply lift_inv in Hl as [Hcfg ->]. rewrite Hdry in Hex. simpl in Hex.
  apply bind_inv in Hex as [(p & st1 & Hp & [= <- <-])|(e & _ & [=])].
  apply popen_inv in Hp as [Hs Ht]. exists cfg, p. auto.
Qed.

Lemma launch_task_appends_process job task st r st' :
  AUTODIST_DEBUG_REMOTE environ = false ->
  launch_task environ job task st = (r, st') ->
  match r with
  | Ok _ => exists p, subprocesses (self st') = (subprocesses (self st) ++ [Some p])%list
  | Raise _ => subprocesses (self st') = subprocesses (self st)
  end.
Proof.
  intros Hdry Hl.
  destruct (launch_task_records_one environ job task st r st' Hl) as (evs & _ & Hr).
  destruct r as [[]|e]; [|tauto].
  destruct Hr as (h & Hs & _). destruct task as [idx full_address].
  unfold launch_task in Hl.
  apply bind_inv in Hl as [(local & ? & [= Hloc <-] & Hl)|(e & _ & [=])].
  apply bind_inv in Hl as [(c & ? & [= <- <-] & Hl)|(e & _ & [=])].
  destruct (local || is_chief environ (self st) _).
  - apply bind_inv in Hl as [([] & st1 & Hj & Hl)|(e & _ & [=])].
    apply do_inv in Hj as [Hs1 _].
    apply bind_inv in Hl as [(p & st2 & Hp & Hl)|(e & _ & [=])].
    apply popen_inv in Hp as [Hs2 _].
    apply append_subprocess_inv in Hl as (_ & _ & Hs3).
    exists p. now rewrite Hs3, Hs2, Hs1.
  - apply bind_inv in Hl as [([] & st1 & Hpre & Hl)|(e & _ & [=])].
    apply quiet_remote_pre_start_tf_server in Hpre as (Hs1 & _).
    apply bind_inv in Hl as [(h' & st2 & Hex & Hl)|(e & _ & [=])].
    apply remote_exec_Ok_not_dry in Hex as (cfg & p & _ & -> & Hs2 & _); [|exact Hdry].
    apply append_subprocess_inv in Hl as (_ & _ & Hs3).
    exists p. now rewrite Hs3, Hs2, Hs1.
Qed.

Lemma for_each_appends_processes {A} (l : list A) (body : A -> M W unit) :
  (forall x st r st', body x st = (r, st') ->
     match r with
     | Ok _ => exists p, subprocesses (self st') = (subprocesses (self st) ++ [Some p])%list
     | Raise _ => subprocesses (self st') = subprocesses (self st)
     end) ->
  forall st r st', for_each l body st = (r, st') ->
    exists ps, subprocesses (self st') = (subprocesses (self st) ++ map Some ps)%list.
Proof.
  intros Hbody. induction l as [|x l IH]; intros st r st' Hf; simpl in Hf.
  - injection Hf as <- <-. exists []. now rewrite app_nil_r.
  - apply bind_inv in Hf as [([] & st1 & Hx & Hf)|(e & Hx & ->)].
    + apply Hbody in Hx as (p & Hs1). apply IH in Hf as (ps & Hs).
      exists (p :: ps). rewrite Hs, Hs1, <- app_assoc. reflexivity.
    + apply Hbody in Hx. exists []. now rewrite app_nil_r.
Qed.

Lemma processes_map_Some ps : processes (map Some ps) = ps.
Proof. induction ps as [|p ps IH]; simpl; [reflexivity|]. now rewrite IH. Qed.

Lemma start_appends_launched st r st' :
  AUTODIST_DEBUG_REMOTE environ = false ->
  start environ st = (r, st') ->
  let launched := spawned (events_since (snd (start_prelude environ st)) st') in
  subprocesses (self st') = (subprocesses (self st) ++ map Some launched)%list.
Proof.
  intros Hdry Hstart launched. unfold start in Hstart.
  apply bind_inv in Hstart as [([] & st1 & Hpre & Hloop)|(e & Hpre & ->)].
  - pose proof (keeps_self_start_prelude _ _ _ _ Hpre) as [Hself _].
    unfold launched. rewrite Hpre. simpl.
    rewrite launch_loop_flat in Hloop.
    pose proof Hloop as Hrec.
    apply for_each_records in Hrec as (hs & evs & Ht & Hs & Hsp & _);
      [|intros x; apply launch_task_records_one].
    apply for_each_appends_processes in Hloop as (ps & Hps);
      [|intros x s r0 s'; now apply launch_task_appends_process].
    rewrite (events_since_app _ _ _ Ht), <- Hsp.
    rewrite Hps in Hs. apply app_inv_head in Hs. subst hs.
    now rewrite processes_map_Some, Hps, Hself.
  - pose proof (keeps_self_start_prelude _ _ _ _ Hpre) as [Hself _].
    unfold launched. rewrite Hpre. simpl. unfold events_since.
    rewrite drop_all. simpl. now rewrite app_nil_r, Hself.
Qed.

(** X12.  Outside dry-run mode, whatever the world does and whether
    [start] returns or raises, what [start] appends to the handle list are
    the handles of the processes created since its launch loop began, in
    the order of their creation: never a [None], and never the process of
    a kill command of the sweep. *)
Theorem start_records_exactly_the_launched st r st' :
  AUTODIST_DEBUG_REMOTE environ = false ->
  start environ st = (r, st') ->
  let launched := spawned (events_since (snd (start_prelude environ st)) st') in
  subprocesses (self st') = (subprocesses (self st) ++ map Some launched)%list.
Proof. apply start_appends_launched. Qed.

(** X13.  [start] followed by [terminate], outside dry-run mode, on a
    manager without handles: when [terminate] returns it has looked up the
    process group of every process that the launch loop created, in the
    order of creation, and sent SIGTERM to each of these groups, and it has
    done nothing else; this also holds when [start] had raised half way. *)
Theorem start_then_terminate st r st1 st2 :
  AUTODIST_DEBUG_REMOTE environ = false ->
  subprocesses (self st) = [] ->
  start environ st = (r, st1) ->
  terminate st1 = (Ok tt, st2) ->
  let launched := spawned (events_since (snd (start_prelude environ st)) st1) in
  signalled_all (map Some launched) (events_since st1 st2).
Proof.
  intros Hdry Hempty Hstart Hterm launched.
  pose proof (start_appends_launched _ _ _ Hdry Hstart) as Hs.
  rewrite Hempty in Hs. simpl in Hs. fold launched in Hs.
  unfold terminate in Hterm.
  apply bind_inv in Hterm as [(c & ? & [= <- <-] & Hterm)|(e & _ & [=])].
  apply terminate_loop_inv in Hterm as (_ & evs & Ht & Hsig).
  rewrite (events_since_app _ _ _ Ht). now rewrite <- Hs.
Qed.
End LifecycleMore.

Section RemoteLaunch.
Context {W : Type} `{OS W}.
Variable environ : Env.
Implicit Types (st : state W).

Lemma remote_pre_start_Ok_inv host st st' :
  remote_pre_start_tf_server environ host (server_starter_file environ) st = (Ok tt, st') ->
  exists cfg,
    ssh_config_of (self st) host = Ok cfg /\
    self st' = self st /\
    trace st' = (trace st ++ pushed (W:=W) environ cfg host (cluster_spec (self st)))%list.
Proof.
  intros Hpre. unfold remote_pre_start_tf_server in Hpre.
  apply bind_inv in Hpre as [([] & st1 & Hcopy & Hpre)|(e & _ & [=])].
  apply remote_copy_Ok_inv in Hcopy as (cfg & Hcfg & Hs1 & Ht1).
  apply bind_inv in Hpre as [(c & ? & [= <- <-] & Hwrite)|(e & _ & [=])].
  assert (ssh_config_of (self st1) host = Ok cfg) as Hcfg1 by (now rewrite Hs1).
  destruct (remote_file_write_inv _ _ _ _ _ _ _ Hcfg1 Hwrite)
    as (Hs2 & [(e & [=] & _)|[(e & [=] & _)|Ht2]]).
  exists cfg. split; [exact Hcfg|]. split; [congruence|].
  rewrite Ht2, Ht1, Hs1, <- app_assoc. reflexivity.
Qed.

(** X14.  Outside dry-run mode, the launch of a remote target that
    completes has first pushed the server starter and the serialized
    topology to the target host, every step of the push having returned,
    and only then started the server there through ssh, with the task's job
    name and index on its command line; the handle of that ssh process is
    the one handle appended. *)
Theorem launch_task_remote_pushes_first job idx full_address st st' :
  AUTODIST_DEBUG_REMOTE environ = false ->
  target_is_remote environ st full_address ->
  launch_task environ job (idx, full_address) st = (Ok tt, st') ->
  let address := hd "" (split_on colon full_address) in
  exists cfg p,
    ssh_config_of (self st) address = Ok cfg /\
    trace st' =
      (trace st ++ pushed (W:=W) environ cfg address (cluster_spec (self st)) ++
       [EvPopen (remote_cmd cfg (remote_server_args environ job idx) address)
                true true (Ok p)])%list /\
    subprocesses (self st') = (subprocesses (self st) ++ [Some p])%list.
Proof.
  intros Hdry [Hloc Hchief] Hl address. unfold launch_task in Hl. fold address in Hl.
  fold address in Hloc, Hchief.
  unfold is_local_address in Hl at 1. unfold bind at 1 in Hl. rewrite Hloc in Hl.
  rewrite (bind_Ok get_self _ st (self st) st eq_refl) in Hl.
  rewrite Hchief in Hl. simpl in Hl.
  apply bind_inv in Hl as [([] & st1 & Hpre & Hl)|(e & _ & [=])].
  apply remote_pre_start_Ok_inv in Hpre as (cfg & Hcfg & Hs1 & Ht1).
  apply bind_inv in Hl as [(h & st2 & Hex & Hl)|(e & _ & [=])].
  apply remote_exec_Ok_not_dry in Hex as (cfg' & p & Hcfg' & -> & Hs2 & Ht2);
    [|exact Hdry].
  rewrite Hs1, Hcfg in Hcfg'. injection Hcfg' as <-.
  apply append_subprocess_inv in Hl as (_ & Ht3 & Hs3).
  exists cfg, p. split; [exact Hcfg|]. split.
  - rewrite Ht3, Ht2, Ht1, <- app_assoc. reflexivity.
  - now rewrite Hs3, Hs2, Hs1.
Qed.
End RemoteLaunch.

(* ===================================================================== *)
(** * Further properties: addresses *)
(* ===================================================================== *)

Section AddressMore.

Lemma all_chars_cons p c s : all_chars p (String c s) = p c && all_chars p s.
Proof. reflexivity. Qed.

Lemma split_on_all_chars (P : ascii -> bool) c s :
  Forall (fun part => all_chars P part = true) (split_on c s) ->
  all_chars (fun d => P d || Ascii.eqb d c) s = true.
Proof.
  induction s as [|d s IH]; simpl; [reflexivity|].
  destruct (Ascii.eqb d c) eqn:E.
  - intros Hall. apply Forall_cons in Hall as [_ Hall].
    rewrite all_chars_cons, E, orb_true_r. simpl. now apply IH.
  - destruct (split_on c s) as [|part parts] eqn:Hs.
    + pose proof (split_on_length c s) as Hlen. rewrite Hs in Hlen. discriminate.
    + intros Hall. apply Forall_cons in Hall as [Hpart Hall].
      rewrite all_chars_cons in Hpart. apply andb_true_iff in Hpart as [Hd Hpart].
      rewrite all_chars_cons, Hd. simpl. apply IH. now constructor.
Qed.

Lemma parse_all_octets_digits octets : forall bytes,
  parse_all _parse_octet octets = Some bytes ->
  Forall (fun part => all_chars is_decimal_digit part = true) octets.
Proof.
  induction octets as [|o octets IH]; intros bytes; simpl; [constructor|].
  destruct (_parse_octet o) as [b|] eqn:Ho; [|discriminate].
  destruct (parse_all _parse_octet octets) as [bs|]; [|discriminate].
  intros _. constructor; [|eauto].
  unfold _parse_octet in Ho. destruct (String.eqb o ""); [discriminate|].
  destruct (all_chars is_decimal_digit o); [reflexivity|discriminate].
Qed.

(** A string that parses as an IPv4 address is not empty and consists of
    decimal digits and dots. *)
Lemma parse_ipv4_chars a n :
  parse_ipv4 a = Some n ->
  a <> "" /\ all_chars (fun d => is_decimal_digit d || Ascii.eqb d "."%char) a = true.
Proof.
  unfold parse_ipv4, ipv4_int_from_string.
  destruct (has_char "/"%char a); [discriminate|].
  destruct (String.eqb_spec a "") as [|Hne]; [discriminate|].
  destruct (negb _); [discriminate|].
  destruct (parse_all _parse_octet (split_on "."%char a)) as [bytes|] eqn:Hp;
    [|discriminate].
  intros _. split; [exact Hne|].
  eapply split_on_all_chars, parse_all_octets_digits, Hp.
Qed.

Lemma all_chars_count (P : ascii -> bool) c s :
  all_chars P s = true -> P c = false -> count_char c s = 0.
Proof.
  intros Hall Hc. induction s as [|d s IH]; [reflexivity|].
  rewrite all_chars_cons in Hall. apply andb_true_iff in Hall as [Hd Hall].
  simpl. destruct (Ascii.eqb_spec d c) as [->|_]; [congruence|]. now apply IH.
Qed.

Lemma strip_unchanged (P : ascii -> bool) chars s :
  all_chars P s = true -> (forall c, P c = true -> in_chars chars c = false) ->
  strip chars s = s.
Proof.
  intros Hall Hout. unfold strip.
  assert (lstrip chars s = s) as ->.
  { destruct s as [|c s]; [reflexivity|]. rewrite all_chars_cons in Hall.
    apply andb_true_iff in Hall as [Hc _]. simpl. now rewrite (Hout c Hc). }
  induction s as [|c s IH]; [reflexivity|].
  rewrite all_chars_cons in Hall. apply andb_true_iff in Hall as [Hc Hall].
  simpl. rewrite (IH Hall). destruct s; [|reflexivity]. now rewrite (Hout c Hc).
Qed.

Lemma rpartition_app a p :
  colon_free p -> rpartition colon (a ++ ":" ++ p) = (a, ":", p).
Proof.
  intros Hp. unfold rpartition.
  change (":" ++ p) with (String colon p). now rewrite rpartition_aux_app.
Qed.

(** X15.  [_get_ip_from_address] accepts an IPv4 literal with or without a
    port suffix and gives the same address in both cases; "localhost" with
    a port suffix is the IPv4 loopback address, and
    [is_loopback_address] holds of it. *)
Theorem get_ip_from_address_port_suffix a n p :
  parse_ipv4 a = Some n -> colon_free p ->
  _get_ip_from_address a = Ok (IPv4Address n) /\
  _get_ip_from_address (a ++ ":" ++ p) = Ok (IPv4Address n) /\
  _get_ip_from_address ("localhost:" ++ p) = Ok (IPv4Address 2130706433) /\
  is_loopback_address ("localhost:" ++ p) = Ok true.
Proof.
  intros Hv4 Hp. destruct (parse_ipv4_chars a n Hv4) as [Hne Hchars].
  set (P := fun d => is_decimal_digit d || Ascii.eqb d "."%char) in Hchars.
  assert (colon_free a) as Hcf by (now apply (all_chars_count P)).
  assert (strip ["["%char; "]"%char] a = a) as Hstrip.
  { apply (strip_unchanged P); [exact Hchars|].
    intros c Hc. unfold in_chars. simpl.
    destruct (Ascii.eqb_spec c "["%char) as [->|_]; [discriminate|].
    destruct (Ascii.eqb_spec c "]"%char) as [->|_]; [discriminate|reflexivity]. }
  assert (String.eqb a "localhost" = false) as Hnl.
  { apply String.eqb_neq. intros ->. discriminate. }
  assert (str_or a (a ++ ":" ++ p) = a /\ str_or a a = a /\ str_or "" a = a) as (H1 & H2 & H3).
  { unfold str_or. apply String.eqb_neq in Hne. rewrite Hne. auto. }
  assert (forall s, _get_ip_from_address ("localhost:" ++ s) =
                    (let '(ip, _, _) := rpartition colon ("localhost" ++ ":" ++ s) in
                     let ip := str_or ip ("localhost:" ++ s) in
                     let ip := if String.eqb ip "localhost" then "127.0.0.1" else ip in
                     ip_address (strip ["["%char; "]"%char] ip))) as Hlocal
    by reflexivity.
  split; [|split; [|split]].
  - unfold _get_ip_from_address. rewrite rpartition_colon_free by exact Hcf.
    rewrite H3, Hnl, Hstrip. unfold ip_address. now rewrite Hv4.
  - unfold _get_ip_from_address. rewrite rpartition_app by exact Hp.
    rewrite H1, Hnl, Hstrip. unfold ip_address. now rewrite Hv4.
  - rewrite Hlocal, rpartition_app by exact Hp. reflexivity.
  - unfold is_loopback_address. rewrite Hlocal, rpartition_app by exact Hp. reflexivity.
Qed.
End AddressMore.

Section LocalAddress.

Lemma ip_eqb_eq a b : ip_eqb a b = true <-> a = b.
Proof.
  destruct a as [x|x sx], b as [y|y sy]; simpl; try (split; [discriminate|congruence]).
  - rewrite Z.eqb_eq. split; congruence.
  - rewrite andb_true_iff, Z.eqb_eq.
    destruct sx as [p|], sy as [q|]; try rewrite String.eqb_eq;
      split; try intros [-> ?]; try intros [= -> ?]; try intros [= ->];
      subst; auto; try discriminate; try congruence.
Qed.

Lemma ip_address_Raise s e : ip_address s = Raise e -> e = ValueError.
Proof.
  unfold ip_address. destruct (parse_ipv4 s); [discriminate|].
  destruct (parse_ipv6 s) as [[v sc]|]; [discriminate|]. now intros [= <-].
Qed.

Lemma get_ip_Raise a e : _get_ip_from_address a = Raise e -> e = ValueError.
Proof.
  unfold _get_ip_from_address. destruct (rpartition colon a) as [[hd sep] tl].
  apply ip_address_Raise.
Qed.

Lemma local_addresses_spec ifaddrs :
  match local_addresses ifaddrs with
  | Ok ips => forall ip, ip ∈ ips <-> exists s, Some s ∈ ifaddrs /\ ip_address s = Ok ip
  | Raise e => e = ValueError
  end.
Proof.
  induction ifaddrs as [|[s|] ifaddrs IH]; simpl.
  - intros ip. split; [intros Hin; now apply elem_of_nil in Hin|].
    intros (s & Hin & _). now apply elem_of_nil in Hin.
  - destruct (String.eqb_spec s "") as [->|Hne].
    + destruct (local_addresses ifaddrs) as [ips|e]; [|exact IH].
      intros ip. rewrite IH. split; intros (s & Hin & Hs); exists s.
      * split; [now apply elem_of_cons; right|exact Hs].
      * apply elem_of_cons in Hin as [[= ->]|Hin]; [vm_compute in Hs; discriminate|auto].
    + destruct (ip_address s) as [i|e] eqn:Hi; simpl; [|now apply ip_address_Raise in Hi].
      destruct (local_addresses ifaddrs) as [ips|e]; simpl; [|exact IH].
      intros ip. rewrite elem_of_cons, IH. split.
      * intros [->|(s' & Hin & Hs')].
        -- exists s. split; [apply elem_of_cons; now left|exact Hi].
        -- exists s'. split; [apply elem_of_cons; now right|exact Hs'].
      * intros (s' & Hin & Hs'). apply elem_of_cons in Hin as [[= <-]|Hin].
        -- left. congruence.
        -- right. eauto.
  - destruct (local_addresses ifaddrs) as [ips|e]; [|exact IH].
    intros ip. rewrite IH. split; intros (s & Hin & Hs); exists s.
    + split; [now apply elem_of_cons; right|exact Hs].
    + apply elem_of_cons in Hin as [[=]|Hin]; auto.
Qed.

(** X16.  [is_local_address], given the addresses that the interfaces
    report: it answers true exactly when the parsed address equals the
    parsed address of some interface; the placeholder of an interface
    without an IPv4 address is skipped.  Its only failure is [ValueError],
    raised when the address itself or the address of any interface does not
    parse. *)
Theorem is_local_address_in_spec ifaddrs a :
  match is_local_address_in ifaddrs a with
  | Ok b =>
      exists ip, _get_ip_from_address a = Ok ip /\
        (b = true <-> exists s, Some s ∈ ifaddrs /\ ip_address s = Ok ip)
  | Raise e => e = ValueError
  end.
Proof.
  unfold is_local_address_in.
  destruct (_get_ip_from_address a) as [ip|e] eqn:Hip; simpl;
    [|now apply get_ip_Raise in Hip].
  pose proof (local_addresses_spec ifaddrs) as Hl.
  destruct (local_addresses ifaddrs) as [ips|e]; simpl; [|exact Hl].
  exists ip. split; [reflexivity|]. rewrite <- Hl.
  rewrite existsb_exists. split.
  - intros (x & Hin & Heq). apply ip_eqb_eq in Heq. subst x. now apply list_elem_of_In.
  - intros Hin. exists ip. split; [now apply list_elem_of_In|]. now apply ip_eqb_eq.
Qed.
End LocalAddress.

Lemma is_local_address_in_spec_witness :
  is_local_address_in (ifaddrs boot) "localhost:22" = Ok true /\
  exists s, Some s ∈ ifaddrs boot /\ ip_address s = Ok (IPv4Address 2130706433).
Proof.
  split; [reflexivity|].
  destruct (is_local_address_in_spec (ifaddrs boot) "localhost:22") as (ip & Hip & Hiff).
  injection Hip as <-. now apply Hiff.
Defined.

Lemma launch_task_needs_ip_literal_witness :
  _full_addresses (self hostname_state) = ["10.0.0.1:15000"; "node1:15001"] /\
  launch_task default_env "worker" (1, "node1:15001") hostname_state
    = (Raise ValueError, hostname_state).
Proof.
  split; [reflexivity|].
  apply launch_task_needs_ip_literal; [discriminate|reflexivity].
Defined.

Lemma start_records_exactly_the_launched_witness :
  let out := start default_env chief_state_one_down in
  subprocesses (self (snd out)) = [Some {| pid := 103 |}; Some {| pid := 104 |}] /\
  subprocesses (self (snd out)) =
    map Some (spawned (events_since (snd (start_prelude default_env chief_state_one_down))
                                    (snd out))).
Proof.
  intros out. split; [vm_compute; reflexivity|].
  exact (start_records_exactly_the_launched default_env chief_state_one_down
           (fst out) (snd out) eq_refl (run_eq _ _)).
Defined.

Lemma start_then_terminate_witness :
  signalled_all
    (map Some (spawned (events_since (snd (start_prelude default_env chief_state))
                                     started_state)))
    (events_since started_state (snd (terminate started_state))).
Proof.
  assert (terminate started_state = (Ok tt, snd (terminate started_state))) as Hterm
    by (vm_compute; reflexivity).
  exact (start_then_terminate default_env chief_state
           (fst (start default_env chief_state)) started_state _
           eq_refl eq_refl (run_eq _ _) Hterm).
Defined.

Lemma launch_task_remote_pushes_first_witness :
  let st' := snd (launch_task default_env "worker" (1, "10.0.0.2:15001") chief_state) in
  exists cfg p,
    ssh_config_of (self chief_state) "10.0.0.2" = Ok cfg /\
    trace st' =
      (pushed (W:=sim) default_env cfg "10.0.0.2" (cluster_spec (self chief_state)) ++
       [EvPopen (remote_cmd cfg (remote_server_args default_env "worker" 1) "10.0.0.2")
                true true (Ok p)])%list /\
    subprocesses (self st') = [Some p].
Proof.
  intros st'.
  assert (launch_task default_env "worker" (1, "10.0.0.2:15001") chief_state
          = (Ok tt, st')) as Hrun by (vm_compute; reflexivity).
  assert (target_is_remote default_env chief_state "10.0.0.2:15001") as Hremote
    by (split; vm_compute; reflexivity).
  exact (launch_task_remote_pushes_first default_env "worker" 1 "10.0.0.2:15001"
           chief_state st' eq_refl Hremote Hrun).
Defined.

Lemma get_ip_from_address_port_suffix_witness :
  _get_ip_from_address "10.0.0.5" = Ok (IPv4Address 167772165) /\
  _get_ip_from_address ("10.0.0.5" ++ ":" ++ "2222") = Ok (IPv4Address 167772165) /\
  _get_ip_from_address ("localhost:" ++ "2222") = Ok (IPv4Address 2130706433) /\
  is_loopback_address ("localhost:" ++ "2222") = Ok true.
Proof.
  apply (get_ip_from_address_port_suffix "10.0.0.5" 167772165 "2222"); reflexivity.
Defined.

Section LaunchBranches.
Context {W : Type} `{OS W}.
Variable environ : Env.
Implicit Types (st : state W).

(** X17.  The dry-run toggle only gates the remote command.  In dry-run
    mode the launch of a remote target that completes has still connected
    to the target host and pushed the server starter and the serialized
    topology there; it has created no process, and the handle it has
    appended is [None]. *)
Theorem launch_task_dry_run_still_pushes job idx full_address st st' :
  AUTODIST_DEBUG_REMOTE environ = true ->
  target_is_remote environ st full_address ->
  launch_task environ job (idx, full_address) st = (Ok tt, st') ->
  let address := hd "" (split_on colon full_address) in
  exists cfg,
    ssh_config_of (self st) address = Ok cfg /\
    trace st' =
      (trace st ++ pushed (W:=W) environ cfg address (cluster_spec (self st)))%list /\
    subprocesses (self st') = (subprocesses (self st) ++ [None])%list.
Proof.
  intros Hdry Hremote Hl address.
  pose proof (launch_remote_dry_run environ _ _ _ _ _ Hdry Hl Hremote) as Hsub.
  destruct Hremote as [Hloc Hchief]. unfold launch_task in Hl.
  fold address in Hl, Hloc, Hchief.
  unfold is_local_address in Hl at 1. unfold bind at 1 in Hl. rewrite Hloc in Hl.
  rewrite (bind_Ok get_self _ st (self st) st eq_refl) in Hl.
  rewrite Hchief in Hl. simpl in Hl.
  apply bind_inv in Hl as [([] & st1 & Hpre & Hl)|(e & _ & [=])].
  apply remote_pre_start_Ok_inv in Hpre as (cfg & Hcfg & Hs1 & Ht1).
  unfold bind in Hl. rewrite remote_exec_dry_run in Hl by exact Hdry.
  destruct (ssh_config_of (self st1) _); simpl in Hl; [|discriminate].
  apply append_subprocess_inv in Hl as (_ & Ht2 & _).
  exists cfg. split; [exact Hcfg|]. split; [now rewrite Ht2|exact Hsub].
Qed.

(** X18.  The launch of a target that is a local interface or the chief
    never uses ssh and does not look at the dry-run toggle.  When it
    completes it has written the topology file into the working directory
    and then started the server with a local shell command, in a session of
    its own, with the task's job name and index; the handle of that
    process is the one handle appended. *)
Theorem launch_task_local_events job idx full_address st st' :
  target_is_local environ st full_address ->
  launch_task environ job (idx, full_address) st = (Ok tt, st') ->
  exists p,
    trace st' =
      (trace st ++
       [EvDo (JsonDump (path_join (DEFAULT_WORKING_DIR environ) "cluster_spec.json")
                       (cluster_spec (self st))) (Ok tt);
        EvPopen (local_server_cmd environ job idx) true false (Ok p)])%list /\
    subprocesses (self st') = (subprocesses (self st) ++ [Some p])%list.
Proof.
  intros (b & Hloc & Hb) Hl. unfold launch_task in Hl.
  unfold is_local_address in Hl at 1. unfold bind at 1 in Hl. rewrite Hloc in Hl.
  rewrite (bind_Ok get_self _ st (self st) st eq_refl) in Hl.
  rewrite Hb in Hl.
  apply bind_inv in Hl as [([] & st1 & Hj & Hl)|(e & _ & [=])].
  apply do_inv in Hj as [Hs1 Ht1].
  apply bind_inv in Hl as [(p & st2 & Hp & Hl)|(e & _ & [=])].
  apply popen_inv in Hp as [Hs2 Ht2].
  apply append_subprocess_inv in Hl as (_ & Ht3 & Hs3).
  exists p. split.
  - rewrite Ht3, Ht2, Ht1, <- app_assoc. reflexivity.
  - now rewrite Hs3, Hs2, Hs1.
Qed.
End LaunchBranches.

Lemma launch_task_dry_run_still_pushes_witness :
  let st' := snd (launch_task dry_run_worker_env "worker" (2, "10.0.0.3:15002")
                              chief_state) in
  exists cfg,
    ssh_config_of (self chief_state) "10.0.0.3" = Ok cfg /\
    trace st' = pushed (W:=sim) dry_run_worker_env cfg "10.0.0.3"
                       (cluster_spec (self chief_state)) /\
    subprocesses (self st') = [None].
Proof.
  intros st'.
  assert (launch_task dry_run_worker_env "worker" (2, "10.0.0.3:15002") chief_state
          = (Ok tt, st')) as Hrun by (vm_compute; reflexivity).
  assert (target_is_remote dry_run_worker_env chief_state "10.0.0.3:15002") as Hremote
    by (split; vm_compute; reflexivity).
  exact (launch_task_dry_run_still_pushes dry_run_worker_env "worker" 2 "10.0.0.3:15002"
           chief_state st' eq_refl Hremote Hrun).
Defined.

Lemma launch_task_local_events_witness :
  let environ := with_debug_remote true default_env in
  let st' := snd (launch_task environ "worker" (0, "10.0.0.1:15000") chief_state) in
  exists p,
    trace st' =
      [EvDo (JsonDump "/tmp/autodist/cluster_spec.json" (cluster_spec (self chief_state)))
            (Ok tt);
       EvPopen (local_server_cmd environ "worker" 0) true false (Ok p)] /\
    subprocesses (self st') = [Some p].
Proof.
  intros environ st'.
  assert (launch_task environ "worker" (0, "10.0.0.1:15000") chief_state = (Ok tt, st'))
    as Hrun by (vm_compute; reflexivity).
  assert (target_is_local environ chief_state "10.0.0.1:15000") as Hlocal
    by (exists true; split; vm_compute; reflexivity).
  exact (launch_task_local_events environ "worker" 0 "10.0.0.1:15000"
           chief_state st' Hlocal Hrun).
Defined.
